(** * equivcheck: re2c graph dumps compared as automata

    A shallow embedding of [equivcheck.py].  Python [str] values are
    modelled by [string], one [ascii] per character, which covers the
    texts whose code points are below 256 (re2c writes every other
    character as a [0xNN] escape).  Python [int] is [Z], a [set] is a
    [gset], a [dict] is a [gmap], and a function that may raise returns
    a value of type [res]. *)

From Stdlib Require Import ZArith Ascii.
From stdpp Require Import base gmap sets list strings pretty sorting.

Local Open Scope Z_scope.

(** ** Exceptions *)

(** The exceptions that the modelled code can raise. *)
Inductive exn : Type :=
| ValueError      (* [int(s, 16)], [int(s)], [str(x)], [chr(x)], unpacking *)
| TypeError       (* [ord(s)] on a string whose length is not 1 *)
| OverflowError   (* [chr(x)] when [x] does not fit a C int *)
| KeyError        (* [transitions[fs]] on a missing key *)
| AssertionError  (* a failed [assert] *)
| Exception       (* the plain [raise Exception(...)] of the builder *)
| MissingStateError    (* the four exceptions of [DFA(...)] *)
| MissingSymbolError
| InvalidSymbolError
| InvalidStateError.

Inductive res (A : Type) : Type :=
| Ok (a : A)
| Raise (e : exn).
Arguments Ok {A} a.
Arguments Raise {A} e.

#[global] Instance res_ret : MRet res := fun A a => Ok a.
#[global] Instance res_bind : MBind res := fun A B k m =>
  match m with
  | Ok a => k a
  | Raise e => Raise e
  end.

(** [for x in l: s = body(s, x)], stopping at the first exception. *)
Fixpoint for_each {A S : Type} (body : S → A → res S) (l : list A) (s : S)
  : res S :=
  match l with
  | [] => Ok s
  | x :: l' => s' ← body s x; for_each body l' s'
  end.

#[global] Instance exn_eq_dec : EqDecision exn.
Proof. solve_decision. Defined.

(** ** Python string methods *)

Module Str.

Definition ord1 (c : ascii) : Z := Z.of_N (N_of_ascii c).

(** [c in chars] for a single character [c]. *)
Fixpoint mem (c : ascii) (chars : string) : bool :=
  match chars with
  | EmptyString => false
  | String d chars' => Ascii.eqb c d || mem c chars'
  end.

Fixpoint lstrip (chars s : string) : string :=
  match s with
  | EmptyString => EmptyString
  | String c s' => if mem c chars then lstrip chars s' else s
  end.

Fixpoint rstrip (chars s : string) : string :=
  match s with
  | EmptyString => EmptyString
  | String c s' =>
      match rstrip chars s' with
      | EmptyString => if mem c chars then EmptyString else String c EmptyString
      | r => String c r
      end
  end.

(** [s.strip(chars)] *)
Definition strip (chars s : string) : string := rstrip chars (lstrip chars s).

(** [s.startswith(p)] *)
Definition startswith (s p : string) : bool := String.prefix p s.

(** [sub in s] *)
Fixpoint contains (sub s : string) : bool :=
  String.prefix sub s ||
  match s with
  | EmptyString => false
  | String _ s' => contains sub s'
  end.

(** [s.split(sep)] for a non-empty [sep]: the separators are found
    from left to right and do not overlap.  [skip] counts the
    characters of a separator that is being passed over and [cur] is
    the piece read so far. *)
Fixpoint split_go (sep : string) (skip : nat) (cur s : string) : list string :=
  match s with
  | EmptyString => [cur]
  | String c s' =>
      match skip with
      | S k => split_go sep k cur s'
      | O =>
          if String.prefix sep s
          then cur :: split_go sep (String.length sep - 1) EmptyString s'
          else split_go sep 0 (cur +:+ String c EmptyString) s'
      end
  end.

Definition split (sep s : string) : list string :=
  split_go sep 0 EmptyString s.

(** The characters below 256 that [str.split()] and [str.strip()]
    treat as white space. *)
Definition isspace (c : ascii) : bool :=
  let n := ord1 c in
  ((9 <=? n) && (n <=? 13)) || ((28 <=? n) && (n <=? 32))
  || (n =? 133) || (n =? 160).

(** [s.split()]: the maximal runs of characters that are not white
    space. *)
Fixpoint split_ws_go (cur : option string) (s : string) : list string :=
  match s with
  | EmptyString => option_list cur
  | String c s' =>
      if isspace c
      then option_list cur ++ split_ws_go None s'
      else split_ws_go
             (Some (from_option (fun w => w +:+ String c EmptyString)
                                (String c EmptyString) cur)) s'
  end.

Definition split_ws (s : string) : list string := split_ws_go None s.

(** [ord(s)] *)
Definition ord (s : string) : res Z :=
  match s with
  | String c EmptyString => Ok (ord1 c)
  | _ => Raise TypeError
  end.

Definition hex_digit (c : ascii) : option Z :=
  let n := ord1 c in
  if (48 <=? n) && (n <=? 57) then Some (n - 48)
  else if (97 <=? n) && (n <=? 102) then Some (n - 87)
  else if (65 <=? n) && (n <=? 70) then Some (n - 55)
  else None.

(** White space that [int] accepts after the digits. *)
Definition int_space (c : ascii) : bool :=
  let n := ord1 c in
  ((9 <=? n) && (n <=? 13)) || (n =? 32) || (n =? 133) || (n =? 160).

Fixpoint all_int_space (s : string) : bool :=
  match s with
  | EmptyString => true
  | String c s' => int_space c && all_int_space s'
  end.

(** The digits of [int(s, 16)]: [acc] is the value read so far,
    [seen] tells whether a digit was read and [us] whether the last
    character was an underscore.  Underscores stand alone between two
    digits; white space may follow the last digit. *)
Fixpoint hex_digits (acc : Z) (seen us : bool) (s : string) : res Z :=
  match s with
  | EmptyString => if seen && negb us then Ok acc else Raise ValueError
  | String c s' =>
      match hex_digit c with
      | Some d => hex_digits (16 * acc + d) true false s'
      | None =>
          if Ascii.eqb c "_"
          then if seen && negb us then hex_digits acc seen true s'
               else Raise ValueError
          else if seen && negb us && all_int_space s then Ok acc
               else Raise ValueError
      end
  end.

(** [int(s, 16)] for [s] that starts with [0x]: the prefix is
    dropped, one underscore may follow it. *)
Definition int16 (s : string) : res Z :=
  match s with
  | String _ (String _ (String "_" body)) => hex_digits 0 false false body
  | String _ (String _ body) => hex_digits 0 false false body
  | _ => Raise ValueError
  end.

(** [s.strip()]: white space is taken off both ends. *)
Fixpoint lstrip_ws (s : string) : string :=
  match s with
  | EmptyString => EmptyString
  | String c s' => if isspace c then lstrip_ws s' else s
  end.

Fixpoint rstrip_ws (s : string) : string :=
  match s with
  | EmptyString => EmptyString
  | String c s' =>
      match rstrip_ws s' with
      | EmptyString => if isspace c then EmptyString else String c EmptyString
      | r => String c r
      end
  end.

Definition strip_ws (s : string) : string := rstrip_ws (lstrip_ws s).

(** The characters below 256 that [\d] matches. *)
Definition isdigit (c : ascii) : bool :=
  let n := ord1 c in (48 <=? n) && (n <=? 57).

Fixpoint dec_digits (acc : Z) (s : string) : Z :=
  match s with
  | EmptyString => acc
  | String c s' => dec_digits (10 * acc + (ord1 c - 48)) s'
  end.

(** [int(s)] for a string of decimal digits, which is what a group
    [(\d+)] holds.  A string of more than 4300 digits is refused: that
    is the default of [sys.int_max_str_digits]. *)
Definition int10 (s : string) : res Z :=
  if 4300 <? Z.of_nat (String.length s) then Raise ValueError
  else Ok (dec_digits 0 s).

(** [str(x)] and the conversion of [x] in an f-string: the decimal
    numeral of [x].  A number of more than 4300 digits is refused, as
    by [int]. *)
Definition str (x : Z) : res string :=
  if 4300 <? Z.of_nat (String.length (pretty (Z.abs x)))
  then Raise ValueError
  else Ok (pretty x).

(** [sep.join(l)] *)
Definition join (sep : string) (l : list string) : string :=
  match l with
  | [] => EmptyString
  | x :: l' => foldl (fun acc y => acc +:+ sep +:+ y) x l'
  end.

End Str.

(** ** Data model *)

Record Transition : Type := mkTransition {
  src : Z;
  dst : Z;
  chars : gset Z
}.

Record ParsedDFA : Type := mkParsedDFA {
  transitions : list Transition;
  finalnodes : list (Z * string)
}.

(** ** Character Range Decoder *)

(** The local function [p] of [parse_char_ranges]. *)
Definition p (s : string) : res Z :=
  if Str.startswith s "0x" then Str.int16 s else Str.ord s.

(** [set(range(start, end + 1))] *)
Definition range_set (start stop : Z) : gset Z :=
  list_to_set (seqZ start (stop + 1 - start)).

(** One turn of the loop over the bracket groups. *)
Definition parse_part (acc : gset Z) (part : string) : res (gset Z) :=
  if Str.contains "-" part then
    match Str.split "-" part with
    | [a; b] =>
        x ← p a;
        y ← p b;
        Ok (acc ∪ range_set (Z.min x y) (Z.max x y))
    | _ => Raise ValueError
    end
  else
    x ← p part;
    Ok (acc ∪ {[ x ]}).

Definition parse_char_ranges (range_str : string) : res (gset Z) :=
  let range_str := Str.strip "[]" range_str in
  for_each parse_part (Str.split "][" range_str) ∅.

(** ** Graph Parser: the label of an edge line *)

(** One turn of [for range_str in label.split()]. *)
Definition label_token (chars : gset Z) (range_str : string) : res (gset Z) :=
  if Str.startswith range_str "yyacept=" then Ok chars
  else if Str.contains "[" range_str then
    cs ← parse_char_ranges range_str;
    Ok (chars ∪ cs)
  else Ok chars.

(** The body of [if edge_match:], from the groups of the match: [label]
    is [None] when the optional group did not take part in the match. *)
Definition edge_transition (src dst : Z) (label : option string)
  : res Transition :=
  match label with
  | Some label =>
      chars ← for_each label_token (Str.split_ws label) ∅;
      Ok (mkTransition src dst chars)
  | None => Ok (mkTransition src dst ∅)
  end.

(** ** Graph Parser: the two patterns *)

(** The two regular expressions, read as a backtracking matcher reads
    them: every piece of a pattern lists the ways it can match at the
    start of the text, the preferred way first, and [match] returns
    the groups of the first way in which the whole pattern matches. *)
Module Re.

(** The double quote, written [Q] in the patterns below. *)
Definition quote : ascii := "034"%char.

(** A greedy [x*]: what was matched and what follows, the longest
    match first. *)
Fixpoint star (x : ascii → bool) (s : string) : list (string * string) :=
  match s with
  | EmptyString => [(EmptyString, EmptyString)]
  | String c s' =>
      if x c
      then (prod_map (String c) id <$> star x s') ++ [(EmptyString, s)]
      else [(EmptyString, s)]
  end.

(** A greedy [x+]. *)
Definition plus (x : ascii → bool) (s : string) : list (string * string) :=
  match s with
  | EmptyString => []
  | String c s' => if x c then prod_map (String c) id <$> star x s' else []
  end.

(** A literal piece: what follows it. *)
Fixpoint lit (piece s : string) : list string :=
  match piece with
  | EmptyString => [s]
  | String c piece' =>
      match s with
      | EmptyString => []
      | String d s' => if Ascii.eqb c d then lit piece' s' else []
      end
  end.

(** A greedy [(?:x)?] around a piece with one group. *)
Definition opt (x : string → list string) (s : string) : list (option string) :=
  (Some <$> x s) ++ [None].

Definition not_quote (c : ascii) : bool := negb (Ascii.eqb c quote).

(** [\s*\[label=Q([^Q]+)Q\]]: the group. *)
Definition label_attr (s : string) : list string :=
  '(_, s) ← star Str.isspace s;
  s ← lit "[label=" s;
  s ← lit (String quote "") s;
  '(label, s) ← plus not_quote s;
  s ← lit (String quote "") s;
  _ ← lit "]" s;
  [label].

(** [edge_pattern.match(line)] and the groups of the match:
    [(\d+)\s*->\s*(\d+)(?:\s*\[label=Q([^Q]+)Q\])?] *)
Definition edge_matches (line : string)
  : list (string * string * option string) :=
  '(src, s) ← plus Str.isdigit line;
  '(_, s) ← star Str.isspace s;
  s ← lit "->" s;
  '(_, s) ← star Str.isspace s;
  '(dst, s) ← plus Str.isdigit s;
  label ← opt label_attr s;
  [(src, dst, label)].

Definition edge_pattern (line : string)
  : option (string * string * option string) :=
  head (edge_matches line).

(** [node_pattern.match(line)] and the groups of the match:
    [(\d+)\s*\[label=Q([^Q]+)Q\]] *)
Definition node_matches (line : string) : list (string * string) :=
  '(node_id, s) ← plus Str.isdigit line;
  label ← label_attr s;
  [(node_id, label)].

Definition node_pattern (line : string) : option (string * string) :=
  head (node_matches line).

End Re.

(** ** Graph Parser: the lines of a graph *)

(** The line feed. *)
Definition newline : ascii := "010"%char.

(** One turn of the [while] loop of [parse_re2c_graph] for a stripped
    line other than the closing brace; the accumulator holds
    [transitions] and [finalnodes]. *)
Definition parse_line (acc : list Transition * list (Z * string))
    (line : string) : res (list Transition * list (Z * string)) :=
  let '(transitions, finalnodes) := acc in
  if Str.startswith line "digraph" || Str.startswith line "//"
     || Str.startswith line "/*" || bool_decide (line = "")
  then Ok acc
  else
    match Re.edge_pattern line with
    | Some (src, dst, label) =>
        src ← Str.int10 src;
        dst ← Str.int10 dst;
        t ← edge_transition src dst label;
        Ok (transitions ++ [t], finalnodes)
    | None =>
        match Re.node_pattern line with
        | Some (node_id, label) =>
            n ← Str.int10 node_id;
            Ok (transitions, finalnodes ++ [(n, label)])
        | None => Ok acc
        end
    end.

(** The [while] loop: [lines] is the deque, and the lines that are
    left in it are returned beside the result. *)
Fixpoint parse_re2c_graph_loop (lines : list string)
    (acc : list Transition * list (Z * string))
  : res (option ParsedDFA * list string) :=
  match lines with
  | [] => Ok (None, [])
  | l :: lines' =>
      let line := Str.strip_ws l in
      if decide (line = "}") then Ok (Some (mkParsedDFA acc.1 acc.2), lines')
      else
        acc ← parse_line acc line;
        parse_re2c_graph_loop lines' acc
  end.

Definition parse_re2c_graph (lines : list string)
  : res (option ParsedDFA * list string) :=
  parse_re2c_graph_loop lines ([], []).

(** The [while True] loop of [parse_re2c_graphs]; [None] when [fuel]
    turns did not end it. *)
Fixpoint parse_re2c_graphs_loop (fuel : nat) (lines : list string)
    (dfas : list ParsedDFA) : option (res (list ParsedDFA)) :=
  match fuel with
  | O => None
  | S fuel' =>
      match parse_re2c_graph lines with
      | Raise e => Some (Raise e)
      | Ok (None, _) => Some (Ok dfas)
      | Ok (Some dfa, lines') =>
          parse_re2c_graphs_loop fuel' lines' (dfas ++ [dfa])
      end
  end.

(** Every turn but the last takes a line off the deque, so that one
    turn more than there are lines is enough. *)
Definition parse_re2c_graphs (text : string) : option (res (list ParsedDFA)) :=
  let lines := Str.split (String newline "") (Str.strip_ws text) in
  parse_re2c_graphs_loop (S (length lines)) lines [].

(** ** Automaton Builder *)

(** The keyword arguments that the builder passes to [DFA(...)]; the
    states are the decimal strings [str(x)] and a symbol [chr(x)] is
    represented by its code point [x]. *)
Module DFA.

Record t : Type := mk {
  states : gset string;
  input_symbols : gset Z;
  transitions : gmap string (gmap Z string);
  initial_state : string;
  final_states : gset string
}.

(** [transitions[q][sym]], where it is defined. *)
Definition delta (tbl : gmap string (gmap Z string)) (q : string) (sym : Z)
  : option string :=
  row ← tbl !! q; row !! sym.

(** Modelled from the spec: [DFA(...)] belongs to the automata
    library, which is not part of the source.  An Automaton has a
    total transition function over its states and its alphabet, a
    start state and accepting states among its states (section 3), and
    the constructor refuses arguments that are not of this kind.  The
    row of a state is checked for the symbols it lacks, then for the
    symbols it should not have, then for the states it leads to. *)
Definition check_row (D : t) (row : gmap Z string) : res unit :=
  if bool_decide (input_symbols D ⊆ dom row) then
    if bool_decide (dom row ⊆ input_symbols D) then
      if bool_decide (map_Forall (fun _ r => r ∈ states D) row) then Ok tt
      else Raise InvalidStateError
    else Raise InvalidSymbolError
  else Raise MissingSymbolError.

(** Modelled from the spec: the checks of [DFA(...)], in their order:
    every state has a row, every row is as [check_row] wants it, the
    start state is a state, the accepting states are states. *)
Definition new (D : t) : res t :=
  if bool_decide (states D ⊆ dom (transitions D)) then
    _ ← for_each (fun _ (qrow : string * gmap Z string) => check_row D qrow.2)
                 (map_to_list (transitions D)) tt;
    if bool_decide (initial_state D ∈ states D) then
      if bool_decide (final_states D ⊆ states D) then Ok D
      else Raise InvalidStateError
    else Raise InvalidStateError
  else Raise MissingStateError.

End DFA.

(** [mk_state = lambda x: str(x)] *)
Definition mk_state (x : Z) : res string := Str.str x.

(** [chr(x)] raises [ValueError] outside [range(0x110000)], and
    [OverflowError] when [x] does not fit a C int. *)
Definition chr (x : Z) : res Z :=
  if bool_decide (0 ≤ x < 1114112) then Ok x
  else if bool_decide (-2147483648 ≤ x ≤ 2147483647) then Raise ValueError
  else Raise OverflowError.

(** [transitions[q]] *)
Definition get_row (tbl : gmap string (gmap Z string)) (q : string)
  : res (gmap Z string) :=
  match tbl !! q with
  | Some row => Ok row
  | None => Raise KeyError
  end.

(** [transitions[q][sym] = v] *)
Definition set_item (tbl : gmap string (gmap Z string)) (q : string) (sym : Z)
    (v : string) : res (gmap string (gmap Z string)) :=
  match tbl !! q with
  | Some row => Ok (<[q := <[sym := v]> row]> tbl)
  | None => Raise KeyError
  end.

(** [set(mk_state(n[0]) for n in pdfa.finalnodes)] *)
Definition final_names (finalnodes : list (Z * string)) : res (gset string) :=
  for_each (fun names (n : Z * string) => q ← mk_state n.1; Ok (names ∪ {[ q ]}))
           finalnodes ∅.

(** The first loop over [pdfa.transitions]; the accumulator holds
    [states], [input_symbols] and [nonstarters]. *)
Definition scan_transition (acc : gset string * gset Z * gset string)
    (t : Transition) : res (gset string * gset Z * gset string) :=
  let '(states, input_symbols, nonstarters) := acc in
  q ← mk_state (src t);
  let states := states ∪ {[ q ]} in
  q ← mk_state (dst t);
  let states := states ∪ {[ q ]} in
  input_symbols ←
    for_each (fun syms x => c ← chr x; Ok (syms ∪ {[ c ]}))
             (elements (chars t)) input_symbols;
  q ← mk_state (dst t);
  Ok (states, input_symbols, nonstarters ∪ {[ q ]}).

(** [for sym in input_symbols: transitions[fs][sym] = fs] *)
Definition self_loops (input_symbols : gset Z)
    (tbl : gmap string (gmap Z string)) (fs : string)
  : res (gmap string (gmap Z string)) :=
  for_each (fun tbl sym => set_item tbl fs sym fs) (elements input_symbols) tbl.

(** One turn of the second loop over [pdfa.transitions].  In an
    assignment the right-hand side is evaluated first, then the row
    [transitions[src]], then the key. *)
Definition apply_transition (input_symbols : gset Z)
    (tbl : gmap string (gmap Z string)) (t : Transition)
  : res (gmap string (gmap Z string)) :=
  src ← mk_state (src t);
  if decide (size (chars t) = 0%nat) then
    for_each (fun tbl sym => v ← mk_state (dst t); set_item tbl src sym v)
             (elements input_symbols) tbl
  else
    for_each (fun tbl sym =>
                v ← mk_state (dst t);
                row ← get_row tbl src;
                c ← chr sym;
                Ok (<[src := <[c := v]> row]> tbl))
             (elements (chars t)) tbl.

(** The transition table as it stands after the two completion loops. *)
Definition build_table (pdfa : ParsedDFA) (states : gset string)
    (input_symbols : gset Z) (final_states : gset string)
  : res (gmap string (gmap Z string)) :=
  let tbl := gset_to_gmap (∅ : gmap Z string) states in
  tbl ← for_each (self_loops input_symbols) (elements final_states) tbl;
  for_each (apply_transition input_symbols) (transitions pdfa) tbl.

Definition pick_start (states nonstarters : gset string) : res string :=
  let starters := elements (states ∖ nonstarters) in
  if decide (1 < length starters)%nat then Raise Exception
  else match starters with
       | [q] => Ok q
       | _ => Raise AssertionError
       end.

Definition parsed_dfa_to_automaton (pdfa : ParsedDFA) : res DFA.t :=
  final_states ← final_names (finalnodes pdfa);
  '(states, input_symbols, nonstarters) ←
    for_each scan_transition (transitions pdfa) (∅, ∅, ∅);
  tbl ← build_table pdfa states input_symbols final_states;
  initial_state ← pick_start states nonstarters;
  DFA.new (DFA.mk states input_symbols tbl initial_state final_states).

(** ** The automaton algebra *)

(** Lexicographic order on words, symbols compared by code point. *)
Inductive lex_lt : list Z → list Z → Prop :=
| lex_lt_nil x v : lex_lt [] (x :: v)
| lex_lt_head x y u v : x < y → lex_lt (x :: u) (y :: v)
| lex_lt_tail x u v : lex_lt u v → lex_lt (x :: u) (x :: v).

Definition lex_le (u v : list Z) : Prop := u = v ∨ lex_lt u v.

(** Shorter words first, words of one length in lexicographic order. *)
Definition shortlex_le (u v : list Z) : Prop :=
  (length u < length v)%nat ∨ (length u = length v ∧ lex_le u v).

(** The source takes its automata from the [automata] library ([DFA],
    with [union], [difference], [isempty], [successor] and [==]), which
    is not part of the repository.  The modules [Search] and
    [Automata] model it from section 9 of the specification: product
    construction for difference and union, breadth-first search from
    the start state for the shortest accepted word, reachability of an
    accepting state for emptiness. *)

(** The searches over the graph of an automaton whose states have type
    [Q]; [step q s] is the successor of [q] under [s], where there is
    one. *)
Module Search.
Section search.
Context `{Countable Q}.
Context (alphabet : gset Z) (step : Q → Z → option Q) (accepting : Q → bool).

(** Modelled from the spec: the transition function, defined on the
    symbols of the alphabet. *)
Definition delta (q : Q) (s : Z) : option Q :=
  if decide (s ∈ alphabet) then step q s else None.

(** Modelled from the spec: the state after reading [w] from [q]. *)
Fixpoint run (q : Q) (w : list Z) : option Q :=
  match w with
  | [] => Some q
  | s :: w' => q' ← delta q s; run q' w'
  end.

(** Modelled from the spec: a word is accepted when the automaton
    ends in an accepting state after consuming it. *)
Definition accepts_from (q : Q) (w : list Z) : bool :=
  match run q w with
  | Some q' => accepting q'
  | None => false
  end.

(** Modelled from the spec: the alphabet in ascending order, the
    order in which the search tries the symbols. *)
Definition symbols : list Z := merge_sort Z.le (elements alphabet).

(** Modelled from the spec: the successors of a frontier entry, a
    state with the word that led to it. *)
Definition successors (e : list Z * Q) : list (list Z * Q) :=
  omap (fun s => q' ← step e.2 s; Some (e.1 ++ [s], q')) symbols.

(** Modelled from the spec: the candidates whose state was not seen
    before, each state once. *)
Fixpoint discover (seen : gset Q) (cands : list (list Z * Q))
  : gset Q * list (list Z * Q) :=
  match cands with
  | [] => (seen, [])
  | e :: cands' =>
      if decide (e.2 ∈ seen) then discover seen cands'
      else let r := discover ({[ e.2 ]} ∪ seen) cands' in (r.1, e :: r.2)
  end.

(** Modelled from the spec: the next level of the breadth-first
    search. *)
Definition next_level (seen : gset Q) (frontier : list (list Z * Q))
  : gset Q * list (list Z * Q) :=
  discover seen (frontier ≫= successors).

(** Modelled from the spec: breadth-first search, one level of the
    graph per unit of fuel: the word of the first accepting state of
    the first level that has one. *)
Fixpoint search (fuel : nat) (seen : gset Q) (frontier : list (list Z * Q))
  : option (list Z) :=
  match find (fun e => accepting e.2) frontier with
  | Some e => Some e.1
  | None =>
      match fuel with
      | O => None
      | S fuel' =>
          let r := next_level seen frontier in search fuel' r.1 r.2
      end
  end.

End search.
End Search.

Module Automata.

(** Modelled from the spec: the automaton type of the automaton
    library, which is not part of the source.  An automaton has a
    finite alphabet, a transition function, a start state and
    accepting states; [carrier] is a finite set that holds every
    state a transition leads to. *)
Record automaton : Type := mk {
  state : Type;
  state_eq_dec : EqDecision state;
  state_countable : Countable state;
  alphabet : gset Z;
  step : state → Z → option state;
  start : state;
  accepting : state → bool;
  carrier : gset state;
  carrier_closed : ∀ q s q', step q s = Some q' → q' ∈ carrier
}.

#[global] Existing Instance state_eq_dec.
#[global] Existing Instance state_countable.

(** Modelled from the spec: the language of an automaton. *)
Definition accepts (X : automaton) (w : list Z) : bool :=
  Search.accepts_from (alphabet X) (step X) (accepting X) (start X) w.

(** Modelled from the spec: the number of levels a search may take,
    more than there are states. *)
Definition fuel (X : automaton) : nat := S (S (size (carrier X))).

(** Modelled from the spec: emptiness is decided by reachability from
    the start state to any accepting state. *)
Definition isempty (X : automaton) : bool :=
  match Search.search (alphabet X) (step X) (accepting X) (fuel X)
               {[ start X ]} [([], start X)] with
  | None => true
  | Some _ => false
  end.

(** Modelled from the spec: [successor("", strict=True)], the
    shortest non-empty accepted word, found by breadth-first search
    from the start state; [None] when there is no such word. *)
Definition successor (X : automaton) : option (list Z) :=
  let r := Search.next_level (alphabet X) (step X) ∅ [([], start X)] in
  Search.search (alphabet X) (step X) (accepting X) (fuel X) r.1 r.2.

(** Modelled from the spec: a component of a product state is [None]
    once its automaton has no transition to follow. *)
Definition lift (X : automaton) (o : option (state X)) (s : Z)
  : option (state X) :=
  q ← o; Search.delta (alphabet X) (step X) q s.

Definition lift_accepting (X : automaton) (o : option (state X)) : bool :=
  from_option (accepting X) false o.

Definition lift_carrier (X : automaton) : list (option (state X)) :=
  None :: (Some <$> elements (carrier X)).

Definition product_step (A B : automaton)
    (pq : option (state A) * option (state B)) (s : Z)
  : option (option (state A) * option (state B)) :=
  Some (lift A pq.1 s, lift B pq.2 s).

Definition product_carrier (A B : automaton)
  : gset (option (state A) * option (state B)) :=
  list_to_set (p ← lift_carrier A; q ← lift_carrier B; [(p, q)]).

Lemma lift_in_carrier X o s : lift X o s ∈ lift_carrier X.
Proof.
  unfold lift, lift_carrier. destruct o as [q|]; simpl; [|by left].
  unfold Search.delta. case_decide; [|by left].
  destruct (step X q s) as [q'|] eqn:E; [|by left].
  right. apply list_elem_of_fmap. exists q'. split; [done|].
  apply elem_of_elements. by apply (carrier_closed X q s).
Qed.

Lemma product_closed A B pq s pq' :
  product_step A B pq s = Some pq' → pq' ∈ product_carrier A B.
Proof.
  unfold product_step. intros [= <-]. unfold product_carrier.
  apply elem_of_list_to_set, list_elem_of_bind.
  exists (lift A pq.1 s). split; [|apply lift_in_carrier].
  apply list_elem_of_bind. exists (lift B pq.2 s).
  split; [by left|apply lift_in_carrier].
Qed.

(** Modelled from the spec: the product construction over the union
    of the two alphabets; [f] tells from the acceptance of the two
    components whether a product state accepts. *)
Definition product (f : bool → bool → bool) (A B : automaton) : automaton :=
  {| state := option (state A) * option (state B);
     alphabet := alphabet A ∪ alphabet B;
     step := product_step A B;
     start := (Some (start A), Some (start B));
     accepting := fun pq => f (lift_accepting A pq.1) (lift_accepting B pq.2);
     carrier := product_carrier A B;
     carrier_closed := product_closed A B |}.

(** Modelled from the spec: the words [A] accepts and [B] does
    not. *)
Definition difference (A B : automaton) : automaton :=
  product (fun a b => a && negb b) A B.

(** Modelled from the spec: the words [A] or [B] accepts. *)
Definition union (A B : automaton) : automaton := product orb A B.

(** Modelled from the spec: two automata are equal when they accept
    the same language, which the module decides with its own
    difference and emptiness. *)
Definition equal (A B : automaton) : bool :=
  isempty (difference A B) && isempty (difference B A).

(** Modelled from the spec: the states that occur as a destination in
    a transition table. *)
Definition targets (tbl : gmap string (gmap Z string)) : gset string :=
  ⋃ ((fun row : gmap Z string => list_to_set (map_to_list row).*2)
       <$> (map_to_list tbl).*2).

Lemma targets_closed tbl q s q' :
  DFA.delta tbl q s = Some q' → q' ∈ targets tbl.
Proof.
  unfold DFA.delta, targets. intros Hd.
  destruct (tbl !! q) as [row|] eqn:Hrow; [simpl in Hd|done].
  apply elem_of_union_list. exists (list_to_set (map_to_list row).*2).
  split.
  - apply list_elem_of_fmap. exists row. split; [done|].
    apply list_elem_of_fmap. exists (q, row). split; [done|].
    by apply elem_of_map_to_list.
  - apply elem_of_list_to_set, list_elem_of_fmap. exists (s, q').
    split; [done|]. by apply elem_of_map_to_list.
Qed.

(** Modelled from the spec: the automaton that [DFA(...)] makes of
    the five arguments the builder passes. *)
Definition of_DFA (D : DFA.t) : automaton :=
  {| state := string;
     alphabet := DFA.input_symbols D;
     step := DFA.delta (DFA.transitions D);
     start := DFA.initial_state D;
     accepting := fun q => bool_decide (q ∈ DFA.final_states D);
     carrier := targets (DFA.transitions D);
     carrier_closed := targets_closed (DFA.transitions D) |}.

End Automata.

(** ** Equivalence Engine *)

(** The operations of an automaton that [main] calls. *)
Class AutomatonOps (D : Type) : Type := {
  op_difference : D → D → D;
  op_union : D → D → D;
  op_isempty : D → bool;
  op_successor : D → option (list Z);   (* [successor("", strict=True)] *)
  op_eq : D → D → bool
}.

#[global] Instance automaton_ops : AutomatonOps Automata.automaton := {|
  op_difference := Automata.difference;
  op_union := Automata.union;
  op_isempty := Automata.isempty;
  op_successor := Automata.successor;
  op_eq := Automata.equal
|}.

(** What [main] prints, or the exception that ends it. *)
Inductive event : Type :=
| Echo (msg : string)
| EchoWord (w : option (list Z))
| PrintEquivalent (b : bool)
| Failed (e : exn).

(** The two computations of the verdict. *)
Definition equiv1 `{AutomatonOps D} (a z : D) : bool :=
  op_eq (op_union a z) a && op_eq (op_union z a) z.

Definition equiv2 `{AutomatonOps D} (a z : D) : bool :=
  op_isempty (op_difference a z) && op_isempty (op_difference z a).

Definition header_zad : string :=
  "smallest non-empty string accepted by only first automaton:".
Definition header_adz : string :=
  "smallest non-empty string accepted by only second automaton:".

(** The lines that report one difference. *)
Definition report `{AutomatonOps D} (header : string) (d : D) : list event :=
  if negb (op_isempty d) then [Echo header; EchoWord (op_successor d)]
  else [].

(** The body of [if len(parsed) == 2:] after the two automata were
    built. *)
Definition compare `{AutomatonOps D} (a z : D) : list event :=
  let zad := op_difference z a in
  let out1 := report header_zad zad in
  let adz := op_difference a z in
  let out2 := report header_adz adz in
  out1 ++ out2 ++
  (if Bool.eqb (equiv1 a z) (equiv2 a z) then [PrintEquivalent (equiv1 a z)]
   else [Failed AssertionError]).

(** [main] from the list of parsed graphs on. *)
Definition main_compare (parsed : list ParsedDFA) : res (list event) :=
  match parsed with
  | [pa; pz] =>
      a ← parsed_dfa_to_automaton pa;
      z ← parsed_dfa_to_automaton pz;
      Ok (compare (Automata.of_DFA a) (Automata.of_DFA z))
  | _ => Ok []
  end.

(** ** The command *)

(** The tab. *)
Definition tab : ascii := "009"%char.

(** What a part of [main] prints, and the exception that ends it, if
    any. *)
Definition printed : Type := list event * option exn.

(** [print(line)], where the f-string of the line can raise. *)
Definition print_line (line : res string) : printed :=
  match line with
  | Ok l => ([Echo l], None)
  | Raise e => ([], Some e)
  end.

(** One part after the other: what follows an exception is not run. *)
Definition then_ (p k : printed) : printed :=
  match p.2 with
  | Some e => p
  | None => (p.1 ++ k.1, k.2)
  end.

Definition print_each {A : Type} (f : A → printed) (l : list A) : printed :=
  foldr (fun x k => then_ (f x) k) ([], None) l.

(** One item of the character list of the dump: the code, and for
    [32 <= c <= 126] the text [ ('], the character [chr(c)] and ['] after
    it (the opening parenthesis is not closed). *)
Definition show_code (c : Z) : res string :=
  if bool_decide (32 ≤ c ≤ 126)
  then s ← Str.str c; Ok (s +:+ " ('" +:+ String (ascii_of_N (Z.to_N c)) "'")
  else Str.str c.

(** The two lines that the dump prints for a transition. *)
Definition dump_transition (t : Transition) : printed :=
  then_
    (print_line
       (a ← Str.str (src t);
        b ← Str.str (dst t);
        n ← Str.str (Z.of_nat (size (chars t)));
        Ok (String tab "From " +:+ a +:+ " to " +:+ b
            +:+ ": " +:+ n +:+ " characters")))
    (let char_list := merge_sort Z.le (elements (chars t)) in
     print_line
       (items ← for_each (fun items c => item ← show_code c;
                                         Ok (items ++ [item]))
                         (take 10 char_list) [];
        let chars_str := Str.join ", " items in
        chars_str ←
          (if decide (10 < length char_list)%nat
           then m ← Str.str (Z.of_nat (length char_list) - 10);
                Ok (chars_str +:+ ", ... (" +:+ m +:+ " more)")
           else Ok chars_str);
        Ok (String tab "  Characters: " +:+ chars_str))).

(** The body of [if dump:] for one parsed graph. *)
Definition dump_graph (pdfa : ParsedDFA) : printed :=
  then_ ([Echo "Final Nodes:"], None)
    (then_
       (print_each
          (fun n : Z * string =>
             print_line (node_id ← Str.str n.1;
                         Ok (String tab "Node " +:+ node_id +:+ ": " +:+ n.2)))
          (finalnodes pdfa))
       (then_ ([Echo (String newline "Transitions:")], None)
              (print_each dump_transition (transitions pdfa)))).

(** How a run of the command ends. *)
Inductive ending : Type :=
| Returned
| Raised (e : exn)
| Exited (code : Z).

(** The comparison ends the run with an exception when its last event
    is the failed assertion. *)
Definition ending_of (evs : list event) : ending :=
  match last evs with
  | Some (Failed e) => Raised e
  | _ => Returned
  end.

(** [main], from the text that [obtain_re2c_dot_output] returned
    ([None] when it returned [None]) and the flag [--dump]: what is
    printed, and how the run ends.  The result is [None] when the loop
    of [parse_re2c_graphs] ran out of fuel. *)
Definition main (input_text : option string) (dump : bool)
  : option (list event * ending) :=
  match input_text with
  | None | Some EmptyString => Some ([], Exited 1)
  | Some text =>
      r ← parse_re2c_graphs text;
      match r with
      | Raise e => Some ([], Raised e)
      | Ok parsed =>
          let out :=
            if dump then print_each dump_graph parsed else ([], None) in
          match out.2 with
          | Some e => Some (out.1, Raised e)
          | None =>
              match main_compare parsed with
              | Ok evs => Some (out.1 ++ evs, ending_of evs)
              | Raise e => Some (out.1, Raised e)
              end
          end
      end
  end.

(** ** Vocabulary of the statements *)

(** *** The builder *)

(** The name that [mk_state] gives to the node [x], where it returns. *)
Definition state_name (x : Z) : string := pretty x.

(** A number that [str] converts: one of at most 4300 digits. *)
Definition small (x : Z) : Prop :=
  (String.length (pretty (Z.abs x)) ≤ 4300)%nat.

Definition valid_code (x : Z) : Prop := 0 ≤ x < 1114112.

(** A code that fits a C int. *)
Definition int_code (x : Z) : Prop := -2147483648 ≤ x ≤ 2147483647.

(** What the three sets of the first loop hold at its end. *)
Definition pdfa_states (l : list Transition) : gset string :=
  ⋃ ((fun t => {[ state_name (src t); state_name (dst t) ]}) <$> l).

Definition pdfa_symbols (l : list Transition) : gset Z :=
  ⋃ (chars <$> l).

Definition pdfa_nonstarters (l : list Transition) : gset string :=
  list_to_set ((fun t => state_name (dst t)) <$> l).

Definition pdfa_finals (pdfa : ParsedDFA) : gset string :=
  list_to_set ((fun n => state_name n.1) <$> finalnodes pdfa).

Definition valid_chars (l : list Transition) : Prop :=
  ∀ t x, t ∈ l → x ∈ chars t → valid_code x.

(** The numbers of the graph are all converted by [str], and its
    character codes by [chr]. *)
Definition small_finals (fl : list (Z * string)) : Prop :=
  ∀ n, n ∈ fl → small n.1.

Definition small_edges (l : list Transition) : Prop :=
  ∀ t, t ∈ l → small (src t) ∧ small (dst t).

Definition small_nodes (pdfa : ParsedDFA) : Prop :=
  small_finals (finalnodes pdfa) ∧ small_edges (transitions pdfa).

Definition readable (pdfa : ParsedDFA) : Prop :=
  small_nodes pdfa ∧ valid_chars (transitions pdfa).

(** Transition [t] writes the entry of state [q] and symbol [s]. *)
Definition covers (alphabet : gset Z) (t : Transition) (q : string) (s : Z)
  : Prop :=
  state_name (src t) = q ∧
  if decide (chars t = ∅) then s ∈ alphabet else s ∈ chars t.

#[global] Instance covers_dec alphabet t q s : Decision (covers alphabet t q s).
Proof. unfold covers. destruct (decide (chars t = ∅)); apply _. Defined.

(** The entry of [q] and [s] after the transitions of [l] were applied
    in order to a table that held [d] there. *)
Definition last_write (alphabet : gset Z) (q : string) (s : Z)
    (l : list Transition) (d : option string) : option string :=
  foldl (fun acc t =>
           if decide (covers alphabet t q s) then Some (state_name (dst t))
           else acc) d l.

(** What the completed table holds: a row for every state, and in
    it the destination written last, the self-loop of an accepting
    state being written before every recorded transition. *)
Definition table_spec pdfa (tbl : gmap string (gmap Z string)) : Prop :=
  dom tbl = pdfa_states (transitions pdfa) ∧
  ∀ q s, DFA.delta tbl q s =
         last_write (pdfa_symbols (transitions pdfa)) q s (transitions pdfa)
           (if decide (q ∈ pdfa_finals pdfa ∧
                       s ∈ pdfa_symbols (transitions pdfa))
            then Some q else None).

(** The table that [table_spec] describes is total: a state that does
    not accept has a transition for every symbol.  [incomplete] names
    a state and a symbol without successor. *)
Definition complete (pdfa : ParsedDFA) : Prop :=
  ∀ q s, q ∈ pdfa_states (transitions pdfa) →
         s ∈ pdfa_symbols (transitions pdfa) →
         q ∈ pdfa_finals pdfa ∨
         ∃ t, t ∈ transitions pdfa ∧
              covers (pdfa_symbols (transitions pdfa)) t q s.

Definition incomplete (pdfa : ParsedDFA) : Prop :=
  ∃ q s, q ∈ pdfa_states (transitions pdfa) ∧
         s ∈ pdfa_symbols (transitions pdfa) ∧
         q ∉ pdfa_finals pdfa ∧
         ∀ t, t ∈ transitions pdfa →
              ¬ covers (pdfa_symbols (transitions pdfa)) t q s.

(** *** The decoder *)

(** [chars_of s chars]: every character of [s] is one of [chars];
    [free_of s chars]: none is. *)
Fixpoint chars_of (s chars : string) : bool :=
  match s with
  | EmptyString => true
  | String c s' => Str.mem c chars && chars_of s' chars
  end.

Fixpoint free_of (s chars : string) : bool :=
  match s with
  | EmptyString => true
  | String c s' => negb (Str.mem c chars) && free_of s' chars
  end.

(** The endpoints of the range grammar: a single character, or [0x]
    and two hexadecimal digits. *)
Definition is_hex (c : ascii) : bool :=
  match Str.hex_digit c with
  | Some _ => true
  | None => false
  end.

Inductive endpoint : string → Prop :=
| endpoint_char c : endpoint (String c "")
| endpoint_hex h1 h2 :
    is_hex h1 = true → is_hex h2 = true →
    endpoint (String "0" (String "x" (String h1 (String h2 "")))).

(** The characters with a meaning of their own in a range
    specification. *)
Definition meta : string := "[]-".

#[global] Instance res_eq_dec `{EqDecision A} : EqDecision (res A).
Proof. solve_decision. Defined.

(** A property of all 256 characters, checked one by one. *)
Definition forall_bool (f : bool → bool) : bool := f false && f true.

Definition forall_ascii (f : ascii → bool) : bool :=
  forall_bool (fun b0 => forall_bool (fun b1 => forall_bool (fun b2 =>
  forall_bool (fun b3 => forall_bool (fun b4 => forall_bool (fun b5 =>
  forall_bool (fun b6 => forall_bool (fun b7 =>
    f (Ascii b0 b1 b2 b3 b4 b5 b6 b7))))))))).

(** [decode "[a-b]"] and [decode "[b-a]"] agree. *)
Definition swap_agrees (a b : string) : bool :=
  bool_decide (parse_char_ranges ("[" +:+ b +:+ "-" +:+ a +:+ "]") =
               parse_char_ranges ("[" +:+ a +:+ "-" +:+ b +:+ "]")).

Definition hex_endpoint (h1 h2 : ascii) : string :=
  String "0" (String "x" (String h1 (String h2 ""))).

Definition forall_hex (f : string → bool) : bool :=
  forall_ascii (fun h1 =>
    if is_hex h1
    then forall_ascii (fun h2 =>
           if is_hex h2 then f (hex_endpoint h1 h2) else true)
    else true).

Definition is_Ok {A} (r : res A) : bool :=
  match r with
  | Ok _ => true
  | Raise _ => false
  end.

(** [len(parse_char_ranges(s))] *)
Definition len (r : res (gset Z)) : res nat := cs ← r; Ok (size cs).

(** *** The specification's reading of the builder, and the languages *)

(** The completion of the table as the specification words it: the
    self-loops of the accepting states, then every transition with a
    non-empty character set, then every transition with the empty
    one. *)
Definition three_step_table (pdfa : ParsedDFA) : res (gmap string (gmap Z string)) :=
  let states := pdfa_states (transitions pdfa) in
  let input_symbols := pdfa_symbols (transitions pdfa) in
  let tbl := gset_to_gmap (∅ : gmap Z string) states in
  tbl ← for_each (self_loops input_symbols) (elements (pdfa_finals pdfa)) tbl;
  tbl ← for_each (apply_transition input_symbols)
        (filter (fun t => chars t ≠ ∅) (transitions pdfa)) tbl;
  for_each (apply_transition input_symbols)
    (filter (fun t => chars t = ∅) (transitions pdfa)) tbl.

(** The language of an automaton and the two difference languages. *)
Definition only_in (z a : Automata.automaton) (w : list Z) : Prop :=
  Automata.accepts z w = true ∧ Automata.accepts a w = false.

(** [w] is the first non-empty word of [L]: no non-empty word of [L]
    is shorter, and none of its length comes before it. *)
Definition least_nonempty (L : list Z → Prop) (w : list Z) : Prop :=
  w ≠ [] ∧ L w ∧ ∀ u, u ≠ [] → L u → shortlex_le w u.

(** *** Example inputs *)

(** An unconditional edge from 0 to 1 recorded before the edge from 0
    to 2 on [a]; 1 and 2 accept. *)
Definition catch_all_first : ParsedDFA :=
  mkParsedDFA [mkTransition 0 1 ∅; mkTransition 0 2 {[ 97 ]}]
              [(1, "one"); (2, "two")].

(** An edge from 0 to 1 on [a] and no accepting state. *)
Definition dead_end : ParsedDFA :=
  mkParsedDFA [mkTransition 0 1 {[ 97 ]}] [].

(** Two unconditional edges leave 0, the second to 2. *)
Definition two_catch_alls : ParsedDFA :=
  mkParsedDFA [mkTransition 0 1 ∅; mkTransition 0 2 ∅;
               mkTransition 1 1 {[ 97 ]}; mkTransition 2 2 {[ 97 ]}] [].

(** Two states without incoming edge. *)
Definition two_entries : ParsedDFA :=
  mkParsedDFA [mkTransition 0 2 {[ 97 ]}; mkTransition 1 2 {[ 97 ]}]
              [(2, "two")].

(** An accepting node 5 next to an unconditional edge from 0 to 1. *)
Definition stray_final : ParsedDFA :=
  mkParsedDFA [mkTransition 0 1 ∅] [(5, "five")].

(** An automaton that accepts nothing and one that accepts the empty
    word only, as the builder makes them. *)
Definition accepts_nothing : ParsedDFA :=
  mkParsedDFA [mkTransition 0 1 {[ 97 ]}; mkTransition 1 1 {[ 97 ]}] [].

Definition accepts_empty_word : ParsedDFA :=
  mkParsedDFA [mkTransition 0 1 {[ 97 ]}; mkTransition 1 1 {[ 97 ]}]
              [(0, "zero")].

(** The automaton of the words [a], [aa], ... and one without
    accepting state. *)
Definition dfa_some_a : DFA.t :=
  DFA.mk {[ "0"; "1" ]} {[ 97 ]}
         {[ "0" := {[ 97 := "1" ]}; "1" := {[ 97 := "1" ]} ]} "0" {[ "1" ]}.

Definition dfa_none : DFA.t :=
  DFA.mk {[ "0"; "1" ]} {[ 97 ]}
         {[ "0" := {[ 97 := "1" ]}; "1" := {[ 97 := "1" ]} ]} "0" ∅.

(** An algebra whose two computations of the verdict disagree. *)
Definition broken_ops : AutomatonOps unit := {|
  op_difference := fun _ _ => tt;
  op_union := fun _ _ => tt;
  op_isempty := fun _ => true;
  op_successor := fun _ => None;
  op_eq := fun _ _ => false
|}.

(** *** The graph parser *)

(** The longest prefix of [s] made of characters of [x], and what
    follows it. *)
Fixpoint span (x : ascii → bool) (s : string) : string * string :=
  match s with
  | EmptyString => (EmptyString, EmptyString)
  | String c s' =>
      if x c then (String c (span x s').1, (span x s').2)
      else (EmptyString, s)
  end.

(** Every character of [s] is one of [x]. *)
Fixpoint all_of (x : ascii → bool) (s : string) : bool :=
  match s with
  | EmptyString => true
  | String c s' => x c && all_of x s'
  end.

(** [s] starts with a character of [x]. *)
Definition starts_with (x : ascii → bool) (s : string) : bool :=
  match s with
  | EmptyString => false
  | String c _ => x c
  end.

(** What follows the literal [piece] at the start of [s]. *)
Fixpoint after (piece s : string) : option string :=
  match piece with
  | EmptyString => Some s
  | String c piece' =>
      match s with
      | EmptyString => None
      | String d s' => if Ascii.eqb c d then after piece' s' else None
      end
  end.

(** The two patterns read from left to right in one pass, every
    repetition taking all it can. *)
Definition label_attr_greedy (s : string) : option string :=
  s ← after "[label=" (span Str.isspace s).2;
  s ← after (String Re.quote "") s;
  if decide ((span Re.not_quote s).1 = "") then None
  else
    s' ← after (String Re.quote "") (span Re.not_quote s).2;
    _ ← after "]" s';
    Some (span Re.not_quote s).1.

Definition edge_greedy (line : string)
  : option (string * string * option string) :=
  let src := (span Str.isdigit line).1 in
  if decide (src = "") then None
  else
    s ← after "->" (span Str.isspace (span Str.isdigit line).2).2;
    let dst := (span Str.isdigit (span Str.isspace s).2).1 in
    if decide (dst = "") then None
    else Some (src, dst,
               label_attr_greedy (span Str.isdigit (span Str.isspace s).2).2).

Definition node_greedy (line : string) : option (string * string) :=
  let node_id := (span Str.isdigit line).1 in
  if decide (node_id = "") then None
  else
    label ← label_attr_greedy (span Str.isdigit line).2;
    Some (node_id, label).

(** The text of a line is the closing brace of a graph. *)
Definition closing (l : string) : bool :=
  bool_decide (Str.strip_ws l = "}").

(** The lines up to the first closing line, and the lines after it;
    [None] when no line closes. *)
Fixpoint first_block (lines : list string)
  : option (list string * list string) :=
  match lines with
  | [] => None
  | l :: lines' =>
      if closing l then Some ([], lines')
      else '(block, rest) ← first_block lines'; Some (l :: block, rest)
  end.

(** The graph that the lines of a block describe. *)
Definition graph_of_block (block : list string) : res ParsedDFA :=
  acc ← for_each parse_line (Str.strip_ws <$> block) ([], []);
  Ok (mkParsedDFA acc.1 acc.2).

(** The lines cut after every closing line: the blocks that a closing
    line ends, without that line, and the lines after the last closing
    line. *)
Fixpoint blocks (lines : list string) : list (list string) * list string :=
  match lines with
  | [] => ([], [])
  | l :: lines' =>
      if closing l then ([] :: (blocks lines').1, (blocks lines').2)
      else
        match (blocks lines').1 with
        | b :: bs => ((l :: b) :: bs, (blocks lines').2)
        | [] => ([], l :: (blocks lines').2)
        end
  end.

Definition add_graph (dfas : list ParsedDFA) (block : list string)
  : res (list ParsedDFA) :=
  dfa ← graph_of_block block; Ok (dfas ++ [dfa]).

(** The graphs of the blocks in their order; the lines after the last
    closing line are read as well and what they describe is dropped. *)
Definition graphs_of_lines (lines : list string) : res (list ParsedDFA) :=
  dfas ← for_each add_graph (blocks lines).1 [];
  _ ← graph_of_block (blocks lines).2;
  Ok dfas.

(** The lines of a text, as [parse_re2c_graphs] cuts it. *)
Definition lines_of (text : string) : list string :=
  Str.split (String newline "") (Str.strip_ws text).

(** The text of an edge line and of a node line, as re2c writes them. *)
Definition edge_line (src dst : string) (label : option string) : string :=
  src +:+ " -> " +:+ dst +:+
  match label with
  | Some label =>
      " [label=" +:+ String Re.quote label +:+ String Re.quote "]"
  | None => ""
  end.

Definition node_line (node_id label : string) : string :=
  node_id +:+ " [label=" +:+ String Re.quote label +:+ String Re.quote "]".

(** A non-empty string of at most 4300 decimal digits. *)
Definition number (s : string) : Prop :=
  s ≠ "" ∧ all_of Str.isdigit s = true ∧ (String.length s ≤ 4300)%nat.

(** The number of occurrences of [c] in [s]. *)
Fixpoint count_char (c : ascii) (s : string) : nat :=
  match s with
  | EmptyString => 0
  | String d s' => (if Ascii.eqb c d then 1 else 0) + count_char c s'
  end.

(** A group of a range specification: a non-empty text without
    bracket. *)
Definition group (g : string) : Prop := g ≠ "" ∧ free_of g "[]" = true.

(** The range specification made of the groups [gs], each between
    brackets. *)
Definition spec_of (gs : list string) : string :=
  "[" +:+ Str.join "][" gs +:+ "]".

(** A token that the loop over the label passes over. *)
Definition skipped (tok : string) : Prop :=
  Str.startswith tok "yyacept=" = true ∨ Str.contains "[" tok = false.

(** The start state 0 accepts, and no edge leaves it on [b]; the
    state 1 has an edge for both symbols. *)
Definition start_accepts : ParsedDFA :=
  mkParsedDFA [mkTransition 0 1 {[ 97 ]}; mkTransition 1 1 {[ 97 ]};
               mkTransition 1 1 {[ 98 ]}]
              [(0, "zero")].

(** Two edges with a character code that [chr] refuses: the first for
    its range, the second for its size. *)
Definition refused_codes : ParsedDFA :=
  mkParsedDFA [mkTransition 0 1 {[ -1 ]}; mkTransition 1 2 {[ 2147483648 ]}]
              [].

(** A text of one graph, followed by an edge line that no brace
    closes. *)
Definition one_graph_text : string :=
  "digraph re2c {" +:+ String newline
    ("1 -> 2" +:+ String newline ("}" +:+ String newline "3 -> 4")).

(** * Lemmas *)

(** ** Facts about the loops *)

Section for_each.
Context {A S : Type}.
Implicit Types (body : S → A → res S) (l : list A) (s : S).

Lemma for_each_app body l1 l2 s :
  for_each body (l1 ++ l2) s = s' ← for_each body l1 s; for_each body l2 s'.
Proof.
  revert s. induction l1 as [|x l1 IH]; intros s; simpl.
  - reflexivity.
  - destruct (body s x) as [s'|e]; simpl; [apply IH | reflexivity].
Qed.

(** A loop whose body always succeeds keeps an invariant. *)
Lemma for_each_invariant (I : list A → S → Prop) body l s :
  I [] s →
  (∀ done x s, x ∈ l → I done s →
               ∃ s', body s x = Ok s' ∧ I (done ++ [x]) s') →
  ∃ s', for_each body l s = Ok s' ∧ I l s'.
Proof.
  intros H0 Hstep.
  cut (∀ rest done s, done ++ rest = l → I done s →
         ∃ s', for_each body rest s = Ok s' ∧ I l s').
  { intros Hcut. apply (Hcut l [] s); auto. }
  induction rest as [|x rest IH]; intros done s0 Hl Hs0; simpl.
  - rewrite app_nil_r in Hl. subst. eauto.
  - destruct (Hstep done x s0) as (s1 & -> & Hs1); auto.
    { rewrite <- Hl. set_solver. }
    simpl. apply (IH (done ++ [x])); auto.
    rewrite <- app_assoc. exact Hl.
Qed.

(** A loop in which one turn raises [e] and every other turn either
    succeeds or raises [e] as well, raises [e]. *)
Lemma for_each_raise body l s e x :
  x ∈ l →
  (∀ s, body s x = Raise e) →
  (∀ s y, y ∈ l → body s y = Raise e ∨ ∃ s', body s y = Ok s') →
  for_each body l s = Raise e.
Proof.
  intros Hx Hbad Hother. revert s.
  induction l as [|y l IH]; intros s; [set_solver|].
  simpl. destruct (body s y) as [s'|e'] eqn:E; simpl.
  - apply elem_of_cons in Hx as [->|Hx].
    + rewrite Hbad in E. discriminate.
    + apply IH; auto. intros; apply Hother; set_solver.
  - destruct (Hother s y) as [H|[s' H]]; [set_solver|congruence|congruence].
Qed.

End for_each.

(** ** The builder, step by step *)

Section builder_steps.
Implicit Types (tbl : gmap string (gmap Z string)) (q : string) (s : Z).

Lemma covers_unconditional alphabet t q s :
  chars t = ∅ → covers alphabet t q s ↔ state_name (src t) = q ∧ s ∈ alphabet.
Proof. intros H. unfold covers. by rewrite decide_True. Qed.

Lemma covers_labelled alphabet t q s :
  chars t ≠ ∅ → covers alphabet t q s ↔ state_name (src t) = q ∧ s ∈ chars t.
Proof. intros H. unfold covers. by rewrite decide_False. Qed.

Lemma chr_valid x : valid_code x → chr x = Ok x.
Proof. intros H. unfold chr. by rewrite bool_decide_eq_true_2. Qed.

Lemma chr_invalid x :
  ¬ valid_code x → chr x = Raise ValueError ∨ chr x = Raise OverflowError.
Proof.
  intros H. unfold chr. rewrite bool_decide_eq_false_2 by done.
  case_bool_decide; [by left|by right].
Qed.

Lemma chr_int x : ¬ valid_code x → int_code x → chr x = Raise ValueError.
Proof.
  intros H Hint. unfold chr. rewrite bool_decide_eq_false_2 by done.
  by rewrite bool_decide_eq_true_2.
Qed.

#[global] Instance small_dec x : Decision (small x).
Proof. unfold small. apply _. Defined.

Lemma mk_state_small x : small x → mk_state x = Ok (state_name x).
Proof.
  unfold small, mk_state, Str.str. intros H.
  destruct (Z.ltb_spec 4300 (Z.of_nat (String.length (pretty (Z.abs x)))));
    [lia|done].
Qed.

Lemma mk_state_big x : ¬ small x → mk_state x = Raise ValueError.
Proof.
  unfold small, mk_state, Str.str. intros H.
  destruct (Z.ltb_spec 4300 (Z.of_nat (String.length (pretty (Z.abs x)))));
    [done|lia].
Qed.

Lemma set_item_spec tbl q s v :
  q ∈ dom tbl →
  ∃ tbl', set_item tbl q s v = Ok tbl' ∧ dom tbl' = dom tbl ∧
    ∀ q' s', DFA.delta tbl' q' s' =
             if decide (q' = q ∧ s' = s) then Some v else DFA.delta tbl q' s'.
Proof.
  intros [row Hrow]%elem_of_dom. unfold set_item. rewrite Hrow.
  eexists; split; [reflexivity|]. split.
  - rewrite dom_insert_L. apply elem_of_dom_2 in Hrow. set_solver.
  - intros q' s'. unfold DFA.delta.
    destruct (decide (q' = q)) as [->|Hq].
    + rewrite lookup_insert_eq, Hrow. simpl.
      destruct (decide (s' = s)) as [->|Hs].
      * rewrite lookup_insert_eq. by rewrite decide_True.
      * rewrite lookup_insert_ne by done. case_decide; naive_solver.
    + rewrite lookup_insert_ne by done. case_decide; naive_solver.
Qed.

Lemma set_item_missing tbl q s v :
  q ∉ dom tbl → set_item tbl q s v = Raise KeyError.
Proof.
  intros H%not_elem_of_dom. unfold set_item. by rewrite H.
Qed.

(** [for sym in syms: transitions[q][sym] = v] on a row that exists. *)
Lemma write_row_spec tbl q (syms : list Z) v :
  q ∈ dom tbl →
  ∃ tbl', for_each (fun tbl sym => set_item tbl q sym v) syms tbl = Ok tbl' ∧
    dom tbl' = dom tbl ∧
    ∀ q' s', DFA.delta tbl' q' s' =
             if decide (q' = q ∧ s' ∈ syms) then Some v
             else DFA.delta tbl q' s'.
Proof.
  revert tbl. induction syms as [|s syms IH]; intros tbl Hq; cbn [for_each].
  - eexists; split; [reflexivity|]. split; [done|].
    intros. rewrite decide_False; [done|]. set_solver.
  - destruct (set_item_spec tbl q s v Hq) as (tbl1 & -> & Hdom1 & H1). simpl.
    destruct (IH tbl1) as (tbl2 & -> & Hdom2 & H2); [by rewrite Hdom1|].
    eexists; split; [reflexivity|]. split; [congruence|].
    intros q' s'. rewrite H2, H1.
    repeat case_decide; try done; set_solver.
Qed.

Lemma write_row_missing tbl q (syms : list Z) v :
  q ∉ dom tbl → syms ≠ [] →
  for_each (fun tbl sym => set_item tbl q sym v) syms tbl = Raise KeyError.
Proof.
  intros Hq Hsyms. destruct syms as [|s syms]; [done|].
  simpl. by rewrite set_item_missing.
Qed.

(** The two inner loops of the second loop, once the conversions are
    known to return. *)
Lemma write_row_chr tbl q (syms : list Z) d :
  Forall valid_code syms → small d →
  for_each (fun tbl sym =>
              v ← mk_state d;
              row ← get_row tbl q;
              c ← chr sym;
              Ok (<[q := <[c := v]> row]> tbl)) syms tbl =
  for_each (fun tbl sym => set_item tbl q sym (state_name d)) syms tbl.
Proof.
  intros H Hd. rewrite (mk_state_small d Hd).
  revert tbl. induction H as [|s syms Hs _ IH]; intros tbl.
  - reflexivity.
  - cbn [for_each].
    assert (Hstep : (v ← Ok (state_name d);
                     row ← get_row tbl q;
                     c ← chr s;
                     Ok (<[q := <[c := v]> row]> tbl))
                    = set_item tbl q s (state_name d)).
    { cbn [mbind res_bind]. unfold get_row, set_item.
      destruct (tbl !! q) as [row|]; [|done]. cbn [mbind res_bind].
      by rewrite (chr_valid s Hs). }
    cbv beta. rewrite Hstep.
    destruct (set_item tbl q s (state_name d)); [|done].
    cbn [mbind res_bind]. apply IH.
Qed.

Lemma write_row_all tbl q (syms : list Z) d :
  small d →
  for_each (fun tbl sym => v ← mk_state d; set_item tbl q sym v) syms tbl =
  for_each (fun tbl sym => set_item tbl q sym (state_name d)) syms tbl.
Proof.
  intros Hd. by rewrite (mk_state_small d Hd).
Qed.

(** The loop that gives the accepting states their self-loops. *)
Lemma self_loops_spec (alphabet : gset Z) (fl : list string) tbl :
  (∀ q, q ∈ fl → q ∈ dom tbl) →
  ∃ tbl', for_each (self_loops alphabet) fl tbl = Ok tbl' ∧
    dom tbl' = dom tbl ∧
    ∀ q s, DFA.delta tbl' q s =
           if decide (q ∈ fl ∧ s ∈ alphabet) then Some q
           else DFA.delta tbl q s.
Proof.
  revert tbl. induction fl as [|f fl IH]; intros tbl Hfl; cbn [for_each].
  - eexists; split; [reflexivity|]. split; [done|].
    intros. rewrite decide_False; [done|]. set_solver.
  - destruct (write_row_spec tbl f (elements alphabet) f)
      as (tbl1 & Hw & Hdom1 & H1); [set_solver|].
    change (self_loops alphabet tbl f = Ok tbl1) in Hw. rewrite Hw. simpl.
    destruct (IH tbl1) as (tbl2 & -> & Hdom2 & H2).
    { intros q Hq. rewrite Hdom1. set_solver. }
    eexists; split; [reflexivity|]. split; [congruence|].
    intros q s. rewrite H2, H1.
    repeat case_decide; try done; set_solver.
Qed.

Lemma self_loops_empty (fl : list string) tbl :
  for_each (self_loops ∅) fl tbl = Ok tbl.
Proof.
  induction fl as [|f fl IH]; cbn [for_each]; [done|].
  assert (self_loops ∅ tbl f = Ok tbl) as ->; [|exact IH].
  unfold self_loops. by rewrite elements_empty.
Qed.

Lemma self_loops_missing (alphabet : gset Z) (fl : list string) tbl f :
  alphabet ≠ ∅ → f ∈ fl → f ∉ dom tbl →
  for_each (self_loops alphabet) fl tbl = Raise KeyError.
Proof.
  intros Hne Hf Hdom. revert tbl Hdom.
  induction fl as [|g fl IH]; intros tbl Hdom; [set_solver|]. cbn [for_each].
  destruct (decide (g ∈ dom tbl)) as [Hg|Hg].
  - destruct (write_row_spec tbl g (elements alphabet) g Hg)
      as (tbl1 & Hw & Hdom1 & _).
    change (self_loops alphabet tbl g = Ok tbl1) in Hw. rewrite Hw. simpl.
    apply IH; [set_solver|by rewrite Hdom1].
  - assert (self_loops alphabet tbl g = Raise KeyError) as ->; [|done].
    apply write_row_missing; [done|].
    intros H. apply Hne. by apply elements_empty_inv, leibniz_equiv in H.
Qed.

(** One recorded transition writes exactly the entries it covers. *)
Lemma apply_transition_spec (alphabet : gset Z) (t : Transition) tbl :
  (∀ x, x ∈ chars t → valid_code x) →
  small (src t) → small (dst t) →
  state_name (src t) ∈ dom tbl →
  ∃ tbl', apply_transition alphabet tbl t = Ok tbl' ∧
    dom tbl' = dom tbl ∧
    ∀ q s, DFA.delta tbl' q s =
           if decide (covers alphabet t q s)
           then Some (state_name (dst t)) else DFA.delta tbl q s.
Proof.
  intros Hvalid Hsmall Hd Hsrc. unfold apply_transition.
  rewrite (mk_state_small _ Hsmall). cbn [mbind res_bind].
  destruct (decide (size (chars t) = 0%nat)) as [H0|H0].
  - apply size_empty_inv, leibniz_equiv in H0.
    rewrite (write_row_all _ _ _ _ Hd).
    destruct (write_row_spec tbl (state_name (src t)) (elements alphabet)
                (state_name (dst t)) Hsrc) as (tbl1 & -> & Hdom1 & H1).
    eexists; split; [reflexivity|]. split; [done|].
    intros q s. rewrite H1.
    destruct (covers_unconditional alphabet t q s H0) as [Hc1 Hc2].
    destruct (elem_of_elements alphabet s) as [He1 He2].
    destruct (decide (covers alphabet t q s)) as [Hy|Hn].
    + rewrite decide_True; [done|].
      destruct (Hc1 Hy) as [Hq Hs]. split; [by symmetry|by apply He2].
    + rewrite decide_False; [done|].
      intros [Hq Hs]. apply Hn, Hc2. split; [by symmetry|by apply He1].
  - assert (chars t ≠ ∅) as Hne by (intros E; apply H0; by rewrite E).
    rewrite write_row_chr; [|
      apply Forall_forall; intros x Hx; apply Hvalid;
      by apply elem_of_elements|done].
    destruct (write_row_spec tbl (state_name (src t)) (elements (chars t))
                (state_name (dst t)) Hsrc) as (tbl1 & -> & Hdom1 & H1).
    eexists; split; [reflexivity|]. split; [done|].
    intros q s. rewrite H1.
    destruct (covers_labelled alphabet t q s Hne) as [Hc1 Hc2].
    destruct (elem_of_elements (chars t) s) as [He1 He2].
    destruct (decide (covers alphabet t q s)) as [Hy|Hn].
    + rewrite decide_True; [done|].
      destruct (Hc1 Hy) as [Hq Hs]. split; [by symmetry|by apply He2].
    + rewrite decide_False; [done|].
      intros [Hq Hs]. apply Hn, Hc2. split; [by symmetry|by apply He1].
Qed.

(** The loop that applies the recorded transitions in list order. *)
Lemma apply_transitions_spec (alphabet : gset Z) (l : list Transition) tbl :
  valid_chars l →
  small_edges l →
  (∀ t, t ∈ l → state_name (src t) ∈ dom tbl) →
  ∃ tbl', for_each (apply_transition alphabet) l tbl = Ok tbl' ∧
    dom tbl' = dom tbl ∧
    ∀ q s, DFA.delta tbl' q s = last_write alphabet q s l (DFA.delta tbl q s).
Proof.
  revert tbl. induction l as [|t l IH]; intros tbl Hvalid Hsmall Hsrc;
    cbn [for_each last_write foldl].
  - eexists; split; [reflexivity|]. by split.
  - destruct (apply_transition_spec alphabet t tbl)
      as (tbl1 & -> & Hdom1 & H1).
    { intros x Hx. apply (Hvalid t x); [apply list_elem_of_here|done]. }
    { apply (Hsmall t), list_elem_of_here. }
    { apply (Hsmall t), list_elem_of_here. }
    { apply Hsrc, list_elem_of_here. }
    cbn [mbind res_bind]. destruct (IH tbl1) as (tbl2 & -> & Hdom2 & H2).
    { intros t' x Ht' Hx. apply (Hvalid t' x); [|done].
      by apply list_elem_of_further. }
    { intros t' Ht'. by apply Hsmall, list_elem_of_further. }
    { intros t' Ht'. rewrite Hdom1. by apply Hsrc, list_elem_of_further. }
    eexists; split; [reflexivity|]. split; [congruence|].
    intros q s. rewrite H2, H1. reflexivity.
Qed.

End builder_steps.

Section builder_outcome.
Implicit Types (l : list Transition) (pdfa : ParsedDFA).

Lemma elem_of_pdfa_states l q :
  q ∈ pdfa_states l ↔
  ∃ t, t ∈ l ∧ (q = state_name (src t) ∨ q = state_name (dst t)).
Proof.
  unfold pdfa_states. rewrite elem_of_union_list. split.
  - intros (X & HX & Hq). apply list_elem_of_fmap in HX as (t & -> & Ht).
    exists t. split; [done|]. set_solver.
  - intros (t & Ht & Hq). exists {[state_name (src t); state_name (dst t)]}.
    split; [|set_solver]. apply list_elem_of_fmap. eauto.
Qed.

Lemma elem_of_pdfa_symbols l x :
  x ∈ pdfa_symbols l ↔ ∃ t, t ∈ l ∧ x ∈ chars t.
Proof.
  unfold pdfa_symbols. rewrite elem_of_union_list. split.
  - intros (X & HX & Hq). apply list_elem_of_fmap in HX as (t & -> & Ht). eauto.
  - intros (t & Ht & Hq). exists (chars t). split; [|done].
    apply list_elem_of_fmap. eauto.
Qed.

Lemma elem_of_pdfa_nonstarters l q :
  q ∈ pdfa_nonstarters l ↔ ∃ t, t ∈ l ∧ q = state_name (dst t).
Proof.
  unfold pdfa_nonstarters. rewrite elem_of_list_to_set, list_elem_of_fmap.
  naive_solver.
Qed.

Lemma elem_of_pdfa_finals pdfa q :
  q ∈ pdfa_finals pdfa ↔ ∃ n, n ∈ finalnodes pdfa ∧ q = state_name n.1.
Proof.
  unfold pdfa_finals. rewrite elem_of_list_to_set, list_elem_of_fmap.
  naive_solver.
Qed.

#[global] Instance valid_code_dec x : Decision (valid_code x).
Proof. unfold valid_code. apply _. Defined.

(** The inner loop [for x in t.chars: input_symbols.add(chr(x))]. *)
Lemma add_symbols_Ok (xs : list Z) (syms : gset Z) :
  Forall valid_code xs →
  for_each (fun syms x => c ← chr x; Ok (syms ∪ {[ c ]})) xs syms
  = Ok (syms ∪ list_to_set xs).
Proof.
  intros H. revert syms. induction H as [|x xs Hx _ IH]; intros syms; simpl.
  - f_equal. set_solver.
  - rewrite (chr_valid x Hx). simpl. rewrite IH. f_equal. set_solver.
Qed.

Lemma add_symbols_Raise (xs : list Z) (syms : gset Z) :
  ¬ Forall valid_code xs →
  let r := for_each (fun syms x => c ← chr x; Ok (syms ∪ {[ c ]})) xs syms in
  r = Raise ValueError ∨ r = Raise OverflowError.
Proof.
  revert syms. induction xs as [|x xs IH]; intros syms H; cbn [for_each].
  - destruct H. constructor.
  - destruct (decide (valid_code x)) as [Hx|Hx].
    + rewrite (chr_valid x Hx). cbn [mbind res_bind]. apply IH.
      intros Hxs. apply H. by constructor.
    + destruct (chr_invalid x Hx) as [-> | ->]; [by left|by right].
Qed.

Lemma add_symbols_int (xs : list Z) (syms : gset Z) :
  ¬ Forall valid_code xs → Forall int_code xs →
  for_each (fun syms x => c ← chr x; Ok (syms ∪ {[ c ]})) xs syms
  = Raise ValueError.
Proof.
  revert syms. induction xs as [|x xs IH]; intros syms H Hint; cbn [for_each].
  - destruct H. constructor.
  - apply Forall_cons in Hint as [Hx' Hint].
    destruct (decide (valid_code x)) as [Hx|Hx].
    + rewrite (chr_valid x Hx). cbn [mbind res_bind]. apply IH; [|done].
      intros Hxs. apply H. by constructor.
    + by rewrite (chr_int x Hx Hx').
Qed.

Lemma valid_chars_cons t l :
  valid_chars (t :: l) ↔
  Forall valid_code (elements (chars t)) ∧ valid_chars l.
Proof.
  unfold valid_chars. rewrite Forall_forall. split.
  - intros H. split.
    + intros x Hx%elem_of_elements. apply (H t x); [left|done].
    + intros t' x Ht' Hx. apply (H t' x); [by right|done].
  - intros [H1 H2] t' x Ht' Hx.
    apply elem_of_cons in Ht' as [->|Ht'].
    + by apply H1, elem_of_elements.
    + by apply (H2 t' x).
Qed.

#[global] Instance valid_chars_dec l : Decision (valid_chars l).
Proof.
  induction l as [|t l IH].
  - left. intros t x Ht. by apply elem_of_nil in Ht.
  - destruct (decide (Forall valid_code (elements (chars t)))) as [H1|H1].
    + destruct IH as [H2|H2].
      * left. by apply valid_chars_cons.
      * right. intros H. by apply valid_chars_cons in H as [_ ?].
    + right. intros H. by apply valid_chars_cons in H as [? _].
Defined.

Lemma small_edges_cons t l :
  small_edges (t :: l) ↔ (small (src t) ∧ small (dst t)) ∧ small_edges l.
Proof.
  unfold small_edges. split.
  - intros H. split; [apply H; by left|]. intros t' Ht'. apply H. by right.
  - intros [H1 H2] t' [->|Ht']%elem_of_cons; [done|by apply H2].
Qed.

#[global] Instance small_edges_dec l : Decision (small_edges l).
Proof.
  induction l as [|t l IH].
  - left. by intros t ?%elem_of_nil.
  - destruct (decide (small (src t) ∧ small (dst t))) as [H1|H1].
    + destruct IH as [H2|H2].
      * left. by apply small_edges_cons.
      * right. by intros [_ ?]%small_edges_cons.
    + right. by intros [? _]%small_edges_cons.
Defined.

Lemma small_finals_cons (n : Z * string) fl :
  small_finals (n :: fl) ↔ small n.1 ∧ small_finals fl.
Proof.
  unfold small_finals. split.
  - intros H. split; [apply H; by left|]. intros n' Hn'. apply H. by right.
  - intros [H1 H2] n' [->|Hn']%elem_of_cons; [done|by apply H2].
Qed.

#[global] Instance small_finals_dec fl : Decision (small_finals fl).
Proof.
  induction fl as [|n fl IH].
  - left. by intros n ?%elem_of_nil.
  - destruct (decide (small n.1)) as [H1|H1].
    + destruct IH as [H2|H2].
      * left. by apply small_finals_cons.
      * right. by intros [_ ?]%small_finals_cons.
    + right. by intros [? _]%small_finals_cons.
Defined.

#[global] Instance readable_dec pdfa : Decision (readable pdfa).
Proof. unfold readable, small_nodes. apply _. Defined.

(** The names of the accepting nodes. *)
Lemma final_names_acc fl (acc : gset string) :
  small_finals fl →
  for_each (fun names (n : Z * string) => q ← mk_state n.1; Ok (names ∪ {[ q ]}))
           fl acc
  = Ok (acc ∪ list_to_set ((fun n => state_name n.1) <$> fl)).
Proof.
  revert acc. induction fl as [|n fl IH]; intros acc H.
  - cbn. f_equal. set_solver.
  - apply small_finals_cons in H as [Hn Hfl]. cbn [for_each].
    rewrite (mk_state_small _ Hn). cbn [mbind res_bind].
    rewrite (IH _ Hfl). f_equal. set_solver.
Qed.

Lemma final_names_Ok pdfa :
  small_finals (finalnodes pdfa) →
  final_names (finalnodes pdfa) = Ok (pdfa_finals pdfa).
Proof.
  intros H. unfold final_names, pdfa_finals.
  by rewrite (final_names_acc _ _ H), (left_id_L ∅ (∪)).
Qed.

Lemma final_names_Raise fl :
  ¬ small_finals fl → final_names fl = Raise ValueError.
Proof.
  unfold final_names. generalize (∅ : gset string).
  induction fl as [|n fl IH]; intros acc H.
  - destruct H. by intros n ?%elem_of_nil.
  - cbn [for_each]. destruct (decide (small n.1)) as [Hn|Hn].
    + rewrite (mk_state_small _ Hn). cbn [mbind res_bind]. apply IH.
      intros Hfl. apply H. by apply small_finals_cons.
    + by rewrite (mk_state_big _ Hn).
Qed.

Lemma scan_transition_eq (S N : gset string) (Σ : gset Z) t :
  small (src t) → small (dst t) →
  scan_transition (S, Σ, N) t =
  Σ' ← for_each (fun syms x => c ← chr x; Ok (syms ∪ {[ c ]}))
                (elements (chars t)) Σ;
  Ok (S ∪ {[ state_name (src t) ]} ∪ {[ state_name (dst t) ]}, Σ',
      N ∪ {[ state_name (dst t) ]}).
Proof.
  intros Hs Hd. unfold scan_transition.
  by rewrite (mk_state_small _ Hs), (mk_state_small _ Hd).
Qed.

Lemma scan_transition_big acc t :
  ¬ (small (src t) ∧ small (dst t)) → scan_transition acc t = Raise ValueError.
Proof.
  intros H. destruct acc as [[S Σ] N]. unfold scan_transition.
  destruct (decide (small (src t))) as [Hs|Hs].
  - rewrite (mk_state_small _ Hs). cbn [mbind res_bind].
    rewrite mk_state_big; [done|]. intros Hd. by apply H.
  - by rewrite (mk_state_big _ Hs).
Qed.

(** The first loop of the builder. *)
Lemma scan_Ok l (S N : gset string) (Σ : gset Z) :
  valid_chars l → small_edges l →
  for_each scan_transition l (S, Σ, N)
  = Ok (S ∪ pdfa_states l, Σ ∪ pdfa_symbols l, N ∪ pdfa_nonstarters l).
Proof.
  revert S N Σ. induction l as [|t l IH]; intros S N Σ H Hsmall.
  - simpl. unfold pdfa_states, pdfa_symbols, pdfa_nonstarters. simpl.
    by rewrite !(right_id_L ∅ (∪)).
  - apply valid_chars_cons in H as [Ht Hl].
    apply small_edges_cons in Hsmall as [[Hs Hd] Hsmall].
    cbn [for_each]. rewrite (scan_transition_eq _ _ _ _ Hs Hd).
    rewrite (add_symbols_Ok _ _ Ht). cbn [mbind res_bind].
    rewrite (IH _ _ _ Hl Hsmall). f_equal.
    unfold pdfa_states, pdfa_symbols, pdfa_nonstarters. simpl.
    rewrite list_to_set_elements_L.
    f_equal; [f_equal|]; set_solver.
Qed.

Lemma scan_Raise l acc :
  ¬ (valid_chars l ∧ small_edges l) →
  for_each scan_transition l acc = Raise ValueError ∨
  for_each scan_transition l acc = Raise OverflowError.
Proof.
  revert acc. induction l as [|t l IH]; intros [[S Σ] N] H.
  - destruct H. split; [by intros t x ?%elem_of_nil|by intros t ?%elem_of_nil].
  - cbn [for_each].
    destruct (decide (small (src t) ∧ small (dst t))) as [[Hs Hd]|Hbig].
    2:{ left. by rewrite (scan_transition_big _ _ Hbig). }
    rewrite (scan_transition_eq _ _ _ _ Hs Hd).
    destruct (decide (Forall valid_code (elements (chars t)))) as [Ht|Ht].
    + rewrite (add_symbols_Ok _ _ Ht). cbn [mbind res_bind]. apply IH.
      intros [Hl Hsl]. apply H. split.
      * by apply valid_chars_cons.
      * by apply small_edges_cons.
    + destruct (add_symbols_Raise _ Σ Ht) as [-> | ->]; [by left|by right].
Qed.

Lemma scan_Raise_int l acc :
  ¬ (valid_chars l ∧ small_edges l) →
  (∀ t x, t ∈ l → x ∈ chars t → int_code x) →
  for_each scan_transition l acc = Raise ValueError.
Proof.
  revert acc. induction l as [|t l IH]; intros [[S Σ] N] H Hint.
  - destruct H. split; [by intros t x ?%elem_of_nil|by intros t ?%elem_of_nil].
  - cbn [for_each].
    destruct (decide (small (src t) ∧ small (dst t))) as [[Hs Hd]|Hbig].
    2:{ by rewrite (scan_transition_big _ _ Hbig). }
    rewrite (scan_transition_eq _ _ _ _ Hs Hd).
    destruct (decide (Forall valid_code (elements (chars t)))) as [Ht|Ht].
    + rewrite (add_symbols_Ok _ _ Ht). cbn [mbind res_bind]. apply IH.
      * intros [Hl Hsl]. apply H. split.
        -- by apply valid_chars_cons.
        -- by apply small_edges_cons.
      * intros t' x Ht' Hx. apply (Hint t' x); [by right|done].
    + rewrite add_symbols_int; [done|done|].
      apply Forall_forall. intros x Hx%elem_of_elements.
      apply (Hint t x); [by left|done].
Qed.

(** The choice of the start state. *)
Lemma pick_start_Ok (S N : gset string) q :
  pick_start S N = Ok q ↔ S ∖ N = {[ q ]}.
Proof.
  unfold pick_start. split.
  - intros H. destruct (elements (S ∖ N)) as [|q' [|q'' l']] eqn:E;
      case_decide; try discriminate; cbn [length] in *; try lia.
    injection H as ->. apply set_eq. intros x.
    rewrite <- elem_of_elements, E. set_solver.
  - intros ->. rewrite elements_singleton.
    by rewrite decide_False by (simpl; lia).
Qed.

Lemma pick_start_many (S N : gset string) :
  (1 < size (S ∖ N))%nat → pick_start S N = Raise Exception.
Proof.
  intros H. unfold pick_start. unfold size, set_size in H. simpl in H.
  by rewrite decide_True.
Qed.

Lemma pick_start_none (S N : gset string) :
  size (S ∖ N) = 0%nat → pick_start S N = Raise AssertionError.
Proof.
  intros H%size_empty_inv%leibniz_equiv. unfold pick_start.
  rewrite H, elements_empty. by rewrite decide_False by (simpl; lia).
Qed.

Lemma delta_fresh (S : gset string) q s :
  DFA.delta (gset_to_gmap (∅ : gmap Z string) S) q s = None.
Proof.
  unfold DFA.delta. rewrite lookup_gset_to_gmap.
  destruct (decide (q ∈ S)).
  - by rewrite option_guard_True.
  - by rewrite option_guard_False.
Qed.

Lemma build_table_Ok pdfa :
  valid_chars (transitions pdfa) → small_edges (transitions pdfa) →
  pdfa_symbols (transitions pdfa) = ∅ ∨
    pdfa_finals pdfa ⊆ pdfa_states (transitions pdfa) →
  ∃ tbl, build_table pdfa (pdfa_states (transitions pdfa))
           (pdfa_symbols (transitions pdfa)) (pdfa_finals pdfa) = Ok tbl ∧
         table_spec pdfa tbl.
Proof.
  intros Hvalid Hsmall Hcond. unfold build_table.
  set (tbl0 := gset_to_gmap (∅ : gmap Z string)
                 (pdfa_states (transitions pdfa))).
  assert (Hdom0 : dom tbl0 = pdfa_states (transitions pdfa))
    by apply dom_gset_to_gmap.
  assert (H1 : ∃ tbl1,
    for_each (self_loops (pdfa_symbols (transitions pdfa)))
             (elements (pdfa_finals pdfa)) tbl0 = Ok tbl1 ∧
    dom tbl1 = dom tbl0 ∧
    ∀ q s, DFA.delta tbl1 q s =
           if decide (q ∈ pdfa_finals pdfa ∧
                      s ∈ pdfa_symbols (transitions pdfa))
           then Some q else None).
  { destruct Hcond as [Hempty|Hsub].
    - rewrite Hempty, self_loops_empty. eexists; split; [done|].
      split; [done|]. intros q s. unfold tbl0. rewrite delta_fresh.
      rewrite decide_False; [done|]. set_solver.
    - destruct (self_loops_spec (pdfa_symbols (transitions pdfa))
                  (elements (pdfa_finals pdfa)) tbl0)
        as (tbl1 & Heq & Hdom1 & Hd1).
      { intros q Hq%elem_of_elements. rewrite Hdom0. by apply Hsub. }
      exists tbl1. split; [done|]. split; [done|].
      intros q s. rewrite Hd1. unfold tbl0. rewrite delta_fresh.
      destruct (elem_of_elements (pdfa_finals pdfa) q).
      repeat case_decide; try done; tauto. }
  destruct H1 as (tbl1 & -> & Hdom1 & Hd1). simpl.
  destruct (apply_transitions_spec (pdfa_symbols (transitions pdfa))
              (transitions pdfa) tbl1 Hvalid Hsmall)
    as (tbl2 & -> & Hdom2 & Hd2).
  { intros t Ht. rewrite Hdom1, Hdom0. apply elem_of_pdfa_states. eauto. }
  exists tbl2. split; [done|]. split; [congruence|].
  intros q s. by rewrite Hd2, Hd1.
Qed.

Lemma build_table_KeyError pdfa :
  pdfa_symbols (transitions pdfa) ≠ ∅ →
  ¬ pdfa_finals pdfa ⊆ pdfa_states (transitions pdfa) →
  build_table pdfa (pdfa_states (transitions pdfa))
    (pdfa_symbols (transitions pdfa)) (pdfa_finals pdfa) = Raise KeyError.
Proof.
  intros Hne Hsub. unfold build_table.
  assert (∃ f, f ∈ pdfa_finals pdfa ∧ f ∉ pdfa_states (transitions pdfa))
    as (f & Hf & Hnf).
  { destruct (not_set_Forall_Exists
                (fun f => f ∈ pdfa_states (transitions pdfa))
                (pdfa_finals pdfa)) as (f & Hf & Hnf); [|by eauto].
    intros Hall. apply Hsub. intros f Hf. by apply Hall. }
  rewrite (self_loops_missing _ _ _ f); [done|done| |].
  - by apply elem_of_elements.
  - by rewrite dom_gset_to_gmap.
Qed.

(** The ways in which the builder ends before it calls [DFA(...)]. *)
Lemma builder_unreadable pdfa :
  ¬ readable pdfa →
  parsed_dfa_to_automaton pdfa = Raise ValueError ∨
  parsed_dfa_to_automaton pdfa = Raise OverflowError.
Proof.
  intros H. unfold parsed_dfa_to_automaton.
  destruct (decide (small_finals (finalnodes pdfa))) as [Hf|Hf].
  2:{ left. by rewrite (final_names_Raise _ Hf). }
  rewrite (final_names_Ok _ Hf). cbn [mbind res_bind].
  destruct (scan_Raise (transitions pdfa) (∅, ∅, ∅)) as [-> | ->];
    [|by left|by right].
  intros [Hv Hs]. by apply H.
Qed.

Lemma builder_unreadable_int pdfa :
  ¬ readable pdfa →
  (∀ t x, t ∈ transitions pdfa → x ∈ chars t → int_code x) →
  parsed_dfa_to_automaton pdfa = Raise ValueError.
Proof.
  intros H Hint. unfold parsed_dfa_to_automaton.
  destruct (decide (small_finals (finalnodes pdfa))) as [Hf|Hf].
  2:{ by rewrite (final_names_Raise _ Hf). }
  rewrite (final_names_Ok _ Hf). cbn [mbind res_bind].
  rewrite scan_Raise_int; [done| |done].
  intros [Hv Hs]. by apply H.
Qed.

Lemma builder_KeyError pdfa :
  readable pdfa →
  pdfa_symbols (transitions pdfa) ≠ ∅ →
  ¬ pdfa_finals pdfa ⊆ pdfa_states (transitions pdfa) →
  parsed_dfa_to_automaton pdfa = Raise KeyError.
Proof.
  intros [[Hf Hs] Hvalid] Hne Hsub. unfold parsed_dfa_to_automaton.
  rewrite (final_names_Ok _ Hf). cbn [mbind res_bind].
  rewrite (scan_Ok _ _ _ _ Hvalid Hs), !(left_id_L ∅ (∪)).
  cbn [mbind res_bind]. by rewrite build_table_KeyError.
Qed.

Lemma builder_reaches_start pdfa :
  readable pdfa →
  pdfa_symbols (transitions pdfa) = ∅ ∨
    pdfa_finals pdfa ⊆ pdfa_states (transitions pdfa) →
  ∃ tbl, table_spec pdfa tbl ∧
    parsed_dfa_to_automaton pdfa =
    q0 ← pick_start (pdfa_states (transitions pdfa))
                    (pdfa_nonstarters (transitions pdfa));
    DFA.new (DFA.mk (pdfa_states (transitions pdfa))
               (pdfa_symbols (transitions pdfa)) tbl q0 (pdfa_finals pdfa)).
Proof.
  intros [[Hf Hs] Hvalid] Hcond.
  destruct (build_table_Ok pdfa Hvalid Hs Hcond) as (tbl & Htbl & Hspec).
  exists tbl. split; [done|]. unfold parsed_dfa_to_automaton.
  rewrite (final_names_Ok _ Hf). cbn [mbind res_bind].
  rewrite (scan_Ok _ _ _ _ Hvalid Hs), !(left_id_L ∅ (∪)).
  cbn [mbind res_bind]. by rewrite Htbl.
Qed.

End builder_outcome.

(** ** The entry written last *)

Section last_write.
Context (alphabet : gset Z) (q : string) (s : Z).
Implicit Types (l : list Transition) (d r : option string).

Lemma last_write_app l1 l2 d :
  last_write alphabet q s (l1 ++ l2) d =
  last_write alphabet q s l2 (last_write alphabet q s l1 d).
Proof. unfold last_write. by rewrite foldl_app. Qed.

Lemma last_write_cons t l d :
  last_write alphabet q s (t :: l) d =
  last_write alphabet q s l
    (if decide (covers alphabet t q s) then Some (state_name (dst t)) else d).
Proof. reflexivity. Qed.

Lemma last_write_untouched l d :
  (∀ t, t ∈ l → ¬ covers alphabet t q s) → last_write alphabet q s l d = d.
Proof.
  revert d. induction l as [|t l IH]; intros d H; [done|].
  rewrite last_write_cons, decide_False.
  - apply IH. intros t' Ht'. apply H. by right.
  - apply H. by left.
Qed.

(** Either some transition covers the entry, and the last one that
    does gives its value, or none does and the entry keeps [d]. *)
Lemma last_write_spec l d r :
  last_write alphabet q s l d = r ↔
  (∃ i t, l !! i = Some t ∧ covers alphabet t q s ∧
          r = Some (state_name (dst t)) ∧
          ∀ j t', (i < j)%nat → l !! j = Some t' →
                  ¬ covers alphabet t' q s) ∨
  ((∀ t, t ∈ l → ¬ covers alphabet t q s) ∧ r = d).
Proof.
  revert r. induction l as [|t l IH] using rev_ind; intros r.
  - simpl. split.
    + intros <-. right. split; [|done]. intros t Ht. by apply elem_of_nil in Ht.
    + intros [(i & t & Hi & _)|[_ ->]]; [|done]. by rewrite lookup_nil in Hi.
  - rewrite last_write_app. cbn [last_write foldl].
    destruct (decide (covers alphabet t q s)) as [Hc|Hc].
    + split.
      * intros <-. left. exists (length l), t.
        split; [by rewrite list_lookup_middle|]. split; [done|].
        split; [done|]. intros j t' Hj Hl.
        apply lookup_lt_Some in Hl. rewrite length_app in Hl. simpl in Hl. lia.
      * intros [(i & t0 & Hi & Hc0 & -> & Hlast)|[Hnone _]].
        -- destruct (decide (i = length l)) as [->|Hne].
           ++ rewrite list_lookup_middle in Hi by done. by injection Hi as ->.
           ++ exfalso. apply (Hlast (length l) t); [|by rewrite list_lookup_middle|done].
              apply lookup_lt_Some in Hi. rewrite length_app in Hi.
              simpl in Hi. lia.
        -- exfalso. apply (Hnone t); [|done]. apply elem_of_app. right. by left.
    + fold (last_write alphabet q s l d). rewrite IH. split.
      * intros [(i & t0 & Hi & Hc0 & -> & Hlast)|[Hnone ->]].
        -- left. exists i, t0. split; [by apply lookup_app_l_Some|].
           split; [done|]. split; [done|]. intros j t' Hj Hl.
           destruct (decide (j < length l)%nat) as [Hlt|Hge].
           ++ rewrite lookup_app_l in Hl by done. by apply (Hlast j).
           ++ assert (j = length l) as ->.
              { apply lookup_lt_Some in Hl. rewrite length_app in Hl.
                simpl in Hl. lia. }
              rewrite list_lookup_middle in Hl by done. by injection Hl as <-.
        -- right. split; [|done]. intros t' [Ht'|Ht']%elem_of_app.
           ++ by apply Hnone.
           ++ apply list_elem_of_singleton in Ht' as ->. done.
      * intros [(i & t0 & Hi & Hc0 & -> & Hlast)|[Hnone ->]].
        -- left. exists i, t0.
           assert (i < length l)%nat as Hlt.
           { destruct (decide (i < length l)%nat); [done|].
             assert (i = length l) as ->.
             { apply lookup_lt_Some in Hi. rewrite length_app in Hi.
               simpl in Hi. lia. }
             rewrite list_lookup_middle in Hi by done.
             injection Hi as <-. done. }
           rewrite lookup_app_l in Hi by done.
           split; [done|]. split; [done|]. split; [done|].
           intros j t' Hj Hl. apply (Hlast j); [done|].
           by apply lookup_app_l_Some.
        -- right. split; [|done]. intros t' Ht'. apply Hnone.
           apply elem_of_app. by left.
Qed.

Lemma last_write_is_Some l d :
  is_Some (last_write alphabet q s l d) ↔
  is_Some d ∨ ∃ t, t ∈ l ∧ covers alphabet t q s.
Proof.
  revert d. induction l as [|t l IH]; intros d.
  - simpl. split; [by left|]. intros [?|(t & Ht & _)]; [done|].
    by apply elem_of_nil in Ht.
  - rewrite last_write_cons, IH.
    destruct (decide (covers alphabet t q s)) as [Hc|Hc].
    + split; [|by left; eexists]. intros _. right. exists t. split; [by left|done].
    + split.
      * intros [?|(t' & Ht' & Hc')]; [by left|]. right. exists t'.
        split; [by right|done].
      * intros [?|(t' & [->|Ht']%elem_of_cons & Hc')]; [by left|done|].
        right. by exists t'.
Qed.

End last_write.

(** ** The constructor and the outcomes of the builder *)

Section builder_checked.
Implicit Types (pdfa : ParsedDFA) (A D : DFA.t) (q r : string) (s : Z).

Lemma complete_incomplete pdfa : complete pdfa → ¬ incomplete pdfa.
Proof.
  intros Hc (q & s & Hq & Hs & HF & Hno).
  destruct (Hc q s Hq Hs) as [?|(t & Ht & Hcov)]; [done|]. by apply (Hno t).
Qed.

(** A loop of checks passes when every check does, and raises what
    the first failing check raises. *)
Lemma checks_cases {X : Type} (f : X → res unit) (l : list X) :
  (for_each (fun _ x => f x) l tt = Ok tt ∧ ∀ x, x ∈ l → f x = Ok tt) ∨
  ∃ x e, x ∈ l ∧ f x = Raise e ∧ for_each (fun _ x => f x) l tt = Raise e.
Proof.
  induction l as [|x l IH]; cbn [for_each].
  - left. split; [done|]. by intros x ?%elem_of_nil.
  - destruct (f x) as [[]|e] eqn:Hx; cbn [mbind res_bind].
    + destruct IH as [[-> Hall]|(y & e & Hy & Hfy & ->)].
      * left. split; [done|].
        intros y [->|?]%elem_of_cons; [done|by apply Hall].
      * right. exists y, e. split; [apply elem_of_cons; by right|done].
    + right. exists x, e. split; [apply elem_of_cons; by left|done].
Qed.

(** The entries of a table that [table_spec] describes. *)
Lemma table_entry pdfa tbl q s r :
  table_spec pdfa tbl →
  pdfa_symbols (transitions pdfa) = ∅ ∨
    pdfa_finals pdfa ⊆ pdfa_states (transitions pdfa) →
  DFA.delta tbl q s = Some r →
  q ∈ pdfa_states (transitions pdfa) ∧ s ∈ pdfa_symbols (transitions pdfa) ∧
  r ∈ pdfa_states (transitions pdfa).
Proof.
  intros [Hdom Htbl] Hcond Hr. rewrite Htbl in Hr.
  apply last_write_spec in Hr
    as [(i & t & Hi & [Hsrc Hs] & [= ->] & _)|[_ Hd]].
  - apply list_elem_of_lookup_2 in Hi. split; [|split].
    + apply elem_of_pdfa_states. exists t. split; [done|]. by left.
    + destruct (decide (chars t = ∅)); [done|].
      apply elem_of_pdfa_symbols. by exists t.
    + apply elem_of_pdfa_states. exists t. split; [done|]. by right.
  - case_decide as Hqs; [|done]. injection Hd as Hqr. subst r.
    destruct Hqs as [Hq Hs].
    assert (q ∈ pdfa_states (transitions pdfa)); [|by split; [|split]].
    destruct Hcond as [E|Hsub]; [|by apply Hsub].
    rewrite E in Hs. by apply elem_of_empty in Hs.
Qed.

Lemma table_entry_Some pdfa tbl q s :
  table_spec pdfa tbl →
  is_Some (DFA.delta tbl q s) ↔
  (q ∈ pdfa_finals pdfa ∧ s ∈ pdfa_symbols (transitions pdfa)) ∨
  ∃ t, t ∈ transitions pdfa ∧
       covers (pdfa_symbols (transitions pdfa)) t q s.
Proof.
  intros [Hdom Htbl]. rewrite Htbl, last_write_is_Some.
  case_decide as Hqs.
  - split; [intros _; by left|intros _; left; by eexists].
  - split.
    + intros [[? [=]]|?]; by right.
    + intros [?|?]; [done|by right].
Qed.

(** What [DFA(...)] does with the arguments that the builder passes. *)
Lemma new_built pdfa tbl q0 :
  table_spec pdfa tbl →
  pdfa_symbols (transitions pdfa) = ∅ ∨
    pdfa_finals pdfa ⊆ pdfa_states (transitions pdfa) →
  q0 ∈ pdfa_states (transitions pdfa) →
  let D := DFA.mk (pdfa_states (transitions pdfa))
             (pdfa_symbols (transitions pdfa)) tbl q0 (pdfa_finals pdfa) in
  incomplete pdfa ∧ DFA.new D = Raise MissingSymbolError ∨
  complete pdfa ∧ ¬ pdfa_finals pdfa ⊆ pdfa_states (transitions pdfa) ∧
    DFA.new D = Raise InvalidStateError ∨
  complete pdfa ∧ pdfa_finals pdfa ⊆ pdfa_states (transitions pdfa) ∧
    DFA.new D = Ok D.
Proof.
  intros Hspec Hcond Hq0 D. pose proof Hspec as [Hdom Htbl].
  assert (Hrow : ∀ q row, tbl !! q = Some row →
                 ∀ s, row !! s = DFA.delta tbl q s).
  { intros q row Hq s. unfold DFA.delta. by rewrite Hq. }
  unfold DFA.new. cbn [DFA.states DFA.transitions DFA.initial_state
                       DFA.final_states D].
  rewrite bool_decide_eq_true_2 by (by rewrite Hdom).
  destruct (checks_cases (fun qrow : string * gmap Z string =>
                            DFA.check_row D qrow.2) (map_to_list tbl))
    as [[-> Hall]|(qrow & e & Hin & He & ->)].
  - cbn [mbind res_bind]. rewrite bool_decide_eq_true_2 by done.
    assert (Hc : complete pdfa).
    { intros q s Hq Hs. rewrite <- Hdom in Hq.
      apply elem_of_dom in Hq as [row Hq].
      pose proof (Hall (q, row) (proj2 (elem_of_map_to_list _ _ _) Hq)) as Hck.
      unfold DFA.check_row in Hck. cbn [snd DFA.input_symbols D] in Hck.
      case_bool_decide as Hfull; [|done].
      apply Hfull, elem_of_dom in Hs. rewrite (Hrow q row Hq) in Hs.
      apply (table_entry_Some pdfa tbl q s Hspec) in Hs as [[? _]|?];
        [by left|by right]. }
    case_bool_decide as Hsub.
    + right. right. done.
    + right. left. done.
  - destruct qrow as [q row]. apply elem_of_map_to_list in Hin.
    cbn [snd] in He. unfold DFA.check_row in He.
    cbn [DFA.input_symbols DFA.states D] in He.
    case_bool_decide as Hfull.
    + rewrite bool_decide_eq_true_2 in He.
      2:{ intros s [r Hs]%elem_of_dom. rewrite (Hrow q row Hin) in Hs.
          by apply (table_entry pdfa tbl q s r Hspec Hcond) in Hs as (_ & ? & _). }
      rewrite bool_decide_eq_true_2 in He; [done|].
      intros s r Hs. rewrite (Hrow q row Hin) in Hs.
      by apply (table_entry pdfa tbl q s r Hspec Hcond) in Hs as (_ & _ & ?).
    + injection He as <-. left. split; [|done].
      destruct (not_set_Forall_Exists (fun s => s ∈ dom row)
                  (pdfa_symbols (transitions pdfa))) as (s & Hs & Hns).
      { intros Hall. apply Hfull. intros s Hs. by apply Hall. }
      cbn in Hns. apply not_elem_of_dom in Hns.
      rewrite (Hrow q row Hin) in Hns.
      assert (Hnone : ¬ is_Some (DFA.delta tbl q s)).
      { rewrite Hns. by intros [? [=]]. }
      rewrite (table_entry_Some pdfa tbl q s Hspec) in Hnone.
      exists q, s. split; [|split; [done|split]].
      * rewrite <- Hdom. by apply elem_of_dom_2 in Hin.
      * intros HF. apply Hnone. by left.
      * intros t Ht Hcov. apply Hnone. right. by exists t.
Qed.

(** The outcomes of the builder, each with what decides it. *)
Lemma builder_cases pdfa :
  let S := pdfa_states (transitions pdfa) in
  let N := pdfa_nonstarters (transitions pdfa) in
  let Σ := pdfa_symbols (transitions pdfa) in
  let F := pdfa_finals pdfa in
  let r := parsed_dfa_to_automaton pdfa in
  ¬ readable pdfa ∧ (r = Raise ValueError ∨ r = Raise OverflowError) ∨
  readable pdfa ∧ Σ ≠ ∅ ∧ ¬ F ⊆ S ∧ r = Raise KeyError ∨
  readable pdfa ∧ (Σ = ∅ ∨ F ⊆ S) ∧ (1 < size (S ∖ N))%nat ∧
    r = Raise Exception ∨
  readable pdfa ∧ (Σ = ∅ ∨ F ⊆ S) ∧ size (S ∖ N) = 0%nat ∧
    r = Raise AssertionError ∨
  readable pdfa ∧ (Σ = ∅ ∨ F ⊆ S) ∧ size (S ∖ N) = 1%nat ∧ incomplete pdfa ∧
    r = Raise MissingSymbolError ∨
  readable pdfa ∧ Σ = ∅ ∧ size (S ∖ N) = 1%nat ∧ complete pdfa ∧ ¬ F ⊆ S ∧
    r = Raise InvalidStateError ∨
  readable pdfa ∧ size (S ∖ N) = 1%nat ∧ complete pdfa ∧ F ⊆ S ∧
    ∃ tbl q0, table_spec pdfa tbl ∧ S ∖ N = {[ q0 ]} ∧
              r = Ok (DFA.mk S Σ tbl q0 F).
Proof.
  intros S N Σ F r.
  destruct (decide (readable pdfa)) as [Hread|Hread].
  2:{ left. split; [done|]. by apply builder_unreadable. }
  right. destruct (decide (Σ = ∅ ∨ F ⊆ S)) as [Hkeys|Hkeys].
  2:{ left. assert (HΣ : Σ ≠ ∅) by (intros E; apply Hkeys; by left).
      assert (HF : ¬ F ⊆ S) by (intros E; apply Hkeys; by right).
      split; [done|]. split; [done|]. split; [done|].
      by apply builder_KeyError. }
  right. destruct (builder_reaches_start pdfa Hread Hkeys)
    as (tbl & Hspec & Hr).
  fold S N Σ F r in Hr.
  destruct (decide (size (S ∖ N) = 1%nat)) as [H1|H1].
  2:{ destruct (decide (size (S ∖ N) = 0%nat)) as [H0|H0].
      - right. left. rewrite Hr, (pick_start_none _ _ H0). done.
      - left. rewrite Hr, pick_start_many by lia. split; [done|].
        split; [done|]. split; [lia|done]. }
  right. right.
  destruct (size_1_elem_of _ H1) as (q0 & Hq0%leibniz_equiv).
  pose proof (proj2 (pick_start_Ok S N q0) Hq0) as Hpick.
  rewrite Hpick in Hr. cbn [mbind res_bind] in Hr.
  assert (Hin : q0 ∈ S).
  { assert (q0 ∈ S ∖ N) by (rewrite Hq0; by apply elem_of_singleton).
    set_solver. }
  destruct (new_built pdfa tbl q0 Hspec Hkeys Hin)
    as [[Hinc Hnew]|[(Hc & Hsub & Hnew)|(Hc & Hsub & Hnew)]];
    fold S N Σ F in Hnew; rewrite Hnew in Hr.
  - left. done.
  - right. left. split; [done|]. split; [|done].
    destruct Hkeys as [?|?]; done.
  - right. right. split; [done|]. split; [done|]. split; [done|].
    split; [done|]. by exists tbl, q0.
Qed.

(** What is known of an automaton that the builder returned. *)
Lemma builder_Ok pdfa A :
  parsed_dfa_to_automaton pdfa = Ok A →
  readable pdfa ∧ complete pdfa ∧
  pdfa_finals pdfa ⊆ pdfa_states (transitions pdfa) ∧
  DFA.states A = pdfa_states (transitions pdfa) ∧
  DFA.input_symbols A = pdfa_symbols (transitions pdfa) ∧
  DFA.final_states A = pdfa_finals pdfa ∧
  table_spec pdfa (DFA.transitions A) ∧
  pdfa_states (transitions pdfa) ∖ pdfa_nonstarters (transitions pdfa)
    = {[ DFA.initial_state A ]}.
Proof.
  intros H.
  destruct (builder_cases pdfa)
    as [(_ & [E|E])|[(_ & _ & _ & E)|[(_ & _ & _ & E)|[(_ & _ & _ & E)|
        [(_ & _ & _ & _ & E)|[(_ & _ & _ & _ & _ & E)|
        (Hread & _ & Hc & Hsub & tbl & q0 & Hspec & Hq0 & E)]]]]]];
    rewrite E in H; try discriminate.
  injection H as <-. done.
Qed.

Lemma builder_inv pdfa A :
  parsed_dfa_to_automaton pdfa = Ok A →
  valid_chars (transitions pdfa) ∧
  (pdfa_symbols (transitions pdfa) = ∅ ∨
     pdfa_finals pdfa ⊆ pdfa_states (transitions pdfa)) ∧
  DFA.states A = pdfa_states (transitions pdfa) ∧
  DFA.input_symbols A = pdfa_symbols (transitions pdfa) ∧
  DFA.final_states A = pdfa_finals pdfa ∧
  table_spec pdfa (DFA.transitions A) ∧
  pdfa_states (transitions pdfa) ∖ pdfa_nonstarters (transitions pdfa)
    = {[ DFA.initial_state A ]}.
Proof.
  intros ([_ Hvalid] & _ & Hsub & HS & HΣ & HF & Hspec & Hq0)%builder_Ok.
  split; [done|]. split; [by right|done].
Qed.

End builder_checked.

(** ** Facts about the word orders *)

Section word_order.
Implicit Types (u v w : list Z).

Lemma lex_lt_irrefl u : ¬ lex_lt u u.
Proof. induction u as [|x u IH]; inversion 1; subst; [lia|auto]. Qed.

Lemma lex_lt_trans u v w : lex_lt u v → lex_lt v w → lex_lt u w.
Proof.
  intros Huv. revert w. induction Huv as [x v|x y u v Hxy|x u v Huv IH];
    intros w Hvw; inversion Hvw; subst.
  - constructor.
  - constructor.
  - apply lex_lt_head. lia.
  - by apply lex_lt_head.
  - by apply lex_lt_head.
  - apply lex_lt_tail. by apply IH.
Qed.

Lemma lex_le_refl u : lex_le u u.
Proof. by left. Qed.

Lemma lex_le_trans u v w : lex_le u v → lex_le v w → lex_le u w.
Proof.
  intros [->|Huv] [->|Hvw]; [by left|by right|by right|].
  right. by apply (lex_lt_trans u v w).
Qed.

(** Words of one length stay in order when each gets one more
    symbol. *)
Lemma lex_lt_snoc u v a b :
  length u = length v → lex_lt u v → lex_lt (u ++ [a]) (v ++ [b]).
Proof.
  intros Hlen Huv. induction Huv as [x v|x y u v Hxy|x u v Huv IH]; simpl in *.
  - discriminate.
  - by apply lex_lt_head.
  - apply lex_lt_tail, IH. lia.
Qed.

Lemma lex_lt_last u a b : a < b → lex_lt (u ++ [a]) (u ++ [b]).
Proof.
  intros Hab. induction u as [|x u IH]; simpl.
  - by apply lex_lt_head.
  - by apply lex_lt_tail.
Qed.

Lemma lex_le_snoc u v a :
  length u = length v → lex_le u v → lex_le (u ++ [a]) (v ++ [a]).
Proof.
  intros Hlen [->|Huv]; [by left|]. right. by apply lex_lt_snoc.
Qed.

Lemma shortlex_le_refl u : shortlex_le u u.
Proof. right. split; [done|apply lex_le_refl]. Qed.

Lemma snoc_inv u : u = [] ∨ ∃ u' a, u = u' ++ [a].
Proof.
  induction u as [|a u _] using rev_ind; [by left|]. right. eauto.
Qed.

End word_order.

(** ** Correctness of the search *)

Section search_facts.
Context `{Countable Q}.
Context (alphabet : gset Z) (step : Q → Z → option Q).

Local Abbreviation delta := (Search.delta alphabet step).
Local Abbreviation run := (Search.run alphabet step).
Local Abbreviation symbols := (Search.symbols alphabet).
Local Abbreviation successors := (Search.successors alphabet step).
Local Abbreviation discover := Search.discover.
Local Abbreviation next_level := (Search.next_level alphabet step).

Implicit Types (q : Q) (u v w : list Z) (e : list Z * Q)
  (seen : gset Q) (fr : list (list Z * Q)).

(** Entries are ordered by their words. *)
Definition entry_lt (e1 e2 : list Z * Q) : Prop := lex_lt e1.1 e2.1.

Lemma run_app q u v : run q (u ++ v) = q' ← run q u; run q' v.
Proof.
  revert q. induction u as [|s u IH]; intros q; simpl; [done|].
  destruct (delta q s) as [q'|]; simpl; [apply IH|done].
Qed.

Lemma run_snoc q u s : run q (u ++ [s]) = q' ← run q u; delta q' s.
Proof.
  rewrite run_app. destruct (run q u) as [q'|]; simpl; [|done].
  by destruct (delta q' s).
Qed.

Lemma run_snoc_Some q u s q2 :
  run q (u ++ [s]) = Some q2 ↔ ∃ q1, run q u = Some q1 ∧ delta q1 s = Some q2.
Proof.
  rewrite run_snoc. destruct (run q u) as [q1|]; simpl; naive_solver.
Qed.

Lemma delta_Some q s q' :
  delta q s = Some q' ↔ s ∈ alphabet ∧ step q s = Some q'.
Proof. unfold Search.delta. case_decide; naive_solver. Qed.

Lemma elem_of_symbols s : s ∈ symbols ↔ s ∈ alphabet.
Proof.
  unfold Search.symbols. rewrite merge_sort_Permutation.
  apply elem_of_elements.
Qed.

Lemma symbols_sorted : StronglySorted Z.lt symbols.
Proof.
  unfold Search.symbols.
  assert (Hnd : NoDup (merge_sort Z.le (elements alphabet))).
  { rewrite merge_sort_Permutation. apply NoDup_elements. }
  assert (Hs : StronglySorted Z.le (merge_sort Z.le (elements alphabet))).
  { apply (StronglySorted_merge_sort Z.le). }
  induction Hs as [|x l Hs IH Hall]; [constructor|].
  apply NoDup_cons in Hnd as [Hx Hnd]. constructor; [by apply IH|].
  apply Forall_forall. intros y Hy.
  rewrite Forall_forall in Hall. specialize (Hall y Hy).
  assert (x ≠ y) by (intros ->; done). lia.
Qed.

Lemma elem_of_successors e e' :
  e' ∈ successors e ↔
  ∃ s, delta e.2 s = Some e'.2 ∧ e'.1 = e.1 ++ [s].
Proof.
  unfold Search.successors. rewrite list_elem_of_omap. split.
  - intros (s & Hs & Hstep). exists s.
    destruct (step e.2 s) as [q'|] eqn:E; simpl in Hstep; [|done].
    injection Hstep as <-. simpl. split; [|done].
    apply delta_Some. split; [by apply elem_of_symbols|done].
  - intros (s & [Hs Hstep]%delta_Some & Hw). exists s.
    split; [by apply elem_of_symbols|]. rewrite Hstep. simpl.
    destruct e' as [w' q']. simpl in *. by subst.
Qed.

Lemma successors_sorted e : StronglySorted entry_lt (successors e).
Proof.
  unfold Search.successors. pose proof symbols_sorted as Hs.
  induction Hs as [|s l Hs IH Hall]; [constructor|]. simpl.
  destruct (step e.2 s) as [q'|]; simpl; [|exact IH].
  constructor; [exact IH|]. apply Forall_forall. intros e' He'.
  apply list_elem_of_omap in He' as (s' & Hs' & He').
  destruct (step e.2 s') as [q''|]; simpl in He'; [|done].
  injection He' as <-. unfold entry_lt. simpl. apply lex_lt_last.
  rewrite Forall_forall in Hall. by apply Hall.
Qed.

(** The successors of a sorted level of words of one length are
    sorted. *)
Lemma candidates_sorted fr k :
  StronglySorted entry_lt fr →
  (∀ e, e ∈ fr → length e.1 = k) →
  StronglySorted entry_lt (fr ≫= successors).
Proof.
  intros Hs Hlen. induction Hs as [|e fr Hs IH Hall]; [constructor|].
  cbn [mbind list_bind]. change (successors e ++ fr ≫= successors) with
    (successors e ++ (fr ≫= successors)).
  apply StronglySorted_app. split; [|split].
  - intros e1 e2 He1 He2.
    apply elem_of_successors in He1 as (s1 & _ & Hw1).
    apply list_elem_of_bind in He2 as (e0 & He2 & He0).
    apply elem_of_successors in He2 as (s2 & _ & Hw2).
    unfold entry_lt. rewrite Hw1, Hw2. apply lex_lt_snoc.
    + rewrite (Hlen e), (Hlen e0); [done|by right|by left].
    + rewrite Forall_forall in Hall. by apply Hall.
  - apply successors_sorted.
  - apply IH. intros e0 He0. apply Hlen. by right.
Qed.

End search_facts.

Section discover_facts.
Context `{Countable Q}.
Implicit Types (q : Q) (e : list Z * Q) (seen : gset Q).
Local Abbreviation discover := Search.discover.

(** What [discover] keeps. *)
Lemma discover_seen seen cands q :
  q ∈ (discover seen cands).1 ↔ q ∈ seen ∨ ∃ e, e ∈ cands ∧ e.2 = q.
Proof.
  revert seen. induction cands as [|e cands IH]; intros seen; simpl.
  - split; [by left|]. intros [?|(e & He & _)]; [done|].
    by apply elem_of_nil in He.
  - destruct (decide (e.2 ∈ seen)) as [Hin|Hnin]; simpl; rewrite IH.
    + split.
      * intros [?|(e' & He' & Hq)]; [by left|]. right. exists e'.
        split; [by right|done].
      * intros [?|(e' & [->|He']%elem_of_cons & Hq)];
          [by left|left; by subst|]. right. by exists e'.
    + split.
      * intros [[->%elem_of_singleton|?]%elem_of_union|(e' & He' & Hq)].
        -- right. exists e. split; [by left|done].
        -- by left.
        -- right. exists e'. split; [by right|done].
      * intros [?|(e' & [->|He']%elem_of_cons & Hq)].
        -- left. set_solver.
        -- left. set_solver.
        -- right. by exists e'.
Qed.

Lemma discover_frontier seen cands e :
  e ∈ (discover seen cands).2 → e ∈ cands ∧ e.2 ∉ seen.
Proof.
  revert seen. induction cands as [|e0 cands IH]; intros seen; simpl.
  - intros He. by apply elem_of_nil in He.
  - destruct (decide (e0.2 ∈ seen)) as [Hin|Hnin]; simpl.
    + intros [??]%IH. split; [by right|done].
    + intros [->|[? Hn]%IH]%elem_of_cons; [split; [by left|done]|].
      split; [by right|]. set_solver.
Qed.

Lemma discover_sorted seen cands :
  StronglySorted entry_lt cands →
  StronglySorted entry_lt (discover seen cands).2.
Proof.
  intros Hs. revert seen. induction Hs as [|e0 cands Hs IH Hall];
    intros seen; simpl; [constructor|].
  destruct (decide (e0.2 ∈ seen)); simpl; [apply IH|].
  constructor; [apply IH|]. apply Forall_forall. intros e He.
  apply discover_frontier in He as [He _].
  rewrite Forall_forall in Hall. by apply Hall.
Qed.

(** Of the candidates that lead to a new state, the first one is
    kept. *)
Lemma discover_first seen cands e :
  StronglySorted entry_lt cands →
  e ∈ cands → e.2 ∉ seen →
  ∃ e', e' ∈ (discover seen cands).2 ∧ e'.2 = e.2 ∧
        (e'.1 = e.1 ∨ entry_lt e' e).
Proof.
  intros Hs. revert seen. induction Hs as [|e0 cands Hs IH Hall];
    intros seen He Hnew; [by apply elem_of_nil in He|]. simpl.
  destruct (decide (e0.2 ∈ seen)) as [Hin|Hnin]; simpl.
  - apply elem_of_cons in He as [->|He]; [done|]. by apply IH.
  - apply elem_of_cons in He as [->|He].
    + exists e0. split; [by left|]. split; [done|by left].
    + destruct (decide (e.2 = e0.2)) as [Heq|Hne].
      * exists e0. split; [by left|]. split; [done|]. right.
        rewrite Forall_forall in Hall. by apply Hall.
      * destruct (IH ({[e0.2]} ∪ seen) He) as (e' & He' & Hq & Hlt);
          [set_solver|].
        exists e'. split; [by right|done].
Qed.

Lemma discover_size seen cands :
  size (discover seen cands).1 =
  (size seen + length (discover seen cands).2)%nat.
Proof.
  revert seen. induction cands as [|e cands IH]; intros seen; simpl.
  - lia.
  - destruct (decide (e.2 ∈ seen)) as [Hin|Hnin]; simpl; [apply IH|].
    rewrite IH, size_union, size_singleton; [lia|set_solver].
Qed.

Lemma discover_nil seen cands e :
  (discover seen cands).2 = [] → e ∈ cands → e.2 ∈ seen.
Proof.
  revert seen. induction cands as [|e0 cands IH]; intros seen; simpl.
  - intros _ He. by apply elem_of_nil in He.
  - destruct (decide (e0.2 ∈ seen)) as [Hin|Hnin]; simpl; [|done].
    intros Hnil [->|He]%elem_of_cons; [done|]. by apply IH.
Qed.

End discover_facts.

Section search_correct.
Context `{Countable Q}.
Context (alphabet : gset Z) (step : Q → Z → option Q) (accepting : Q → bool).
Context (start : Q).
Context (carrier : gset Q).
Hypothesis carrier_closed : ∀ q s q', step q s = Some q' → q' ∈ carrier.

(** The shortest length of the words that the search is after: 0 for
    all words, 1 for the non-empty ones. *)
Context (k0 : nat).
Hypothesis k0_le_1 : (k0 ≤ 1)%nat.

Local Abbreviation delta := (Search.delta alphabet step).
Local Abbreviation run := (Search.run alphabet step).
Local Abbreviation accepts_from := (Search.accepts_from alphabet step accepting).
Local Abbreviation successors := (Search.successors alphabet step).
Local Abbreviation discover := Search.discover.
Local Abbreviation next_level := (Search.next_level alphabet step).
Local Abbreviation search := (Search.search alphabet step accepting).

Implicit Types (q : Q) (u v w : list Z) (e : list Z * Q)
  (seen : gset Q) (fr : list (list Z * Q)).

(** [q] is reached by a word whose length lies between [lo] and [hi]. *)
Definition reached (lo hi : nat) (q : Q) : Prop :=
  ∃ w, (lo ≤ length w ≤ hi)%nat ∧ run start w = Some q.

(** The state of the search at level [k]: [seen] holds the states
    reached by words of at most [k] symbols, and the frontier holds,
    in lexicographic order, the least word of length [k] for every
    state that no shorter word reaches. *)
Record level_inv (k : nat) seen fr : Prop := {
  inv_seen : ∀ q, q ∈ seen ↔ reached k0 k q;
  inv_word : ∀ e, e ∈ fr → length e.1 = k ∧ run start e.1 = Some e.2;
  inv_least : ∀ u q,
    length u = k → run start u = Some q →
    (∃ e, e ∈ fr ∧ e.2 = q ∧ lex_le e.1 u) ∨
    (∃ w, (k0 ≤ length w < k)%nat ∧ run start w = Some q);
  inv_sorted : StronglySorted entry_lt fr
}.

(** No word shorter than [k] is accepted. *)
Definition none_below (k : nat) : Prop :=
  ∀ w, (k0 ≤ length w < k)%nat → accepts_from start w = false.

Lemma level_inv_step k seen fr :
  level_inv k seen fr →
  level_inv (S k) (next_level seen fr).1 (next_level seen fr).2.
Proof.
  intros [Hseen Hword Hleast Hsorted]. unfold Search.next_level.
  assert (Hcands : StronglySorted entry_lt (fr ≫= successors)).
  { apply candidates_sorted with (k := k); [done|]. intros e He.
    by apply Hword. }
  assert (Hcand : ∀ e', e' ∈ fr ≫= successors →
            length e'.1 = S k ∧ run start e'.1 = Some e'.2).
  { intros e' (e & (s & Hd & Hw)%elem_of_successors & He)%list_elem_of_bind.
    destruct (Hword e He) as [Hlen Hrun]. rewrite Hw. split.
    - rewrite length_app. simpl. lia.
    - apply run_snoc_Some. eauto. }
  (* a word of length [S k] reaches a state that was seen or is the
     state of a candidate *)
  assert (Hnext : ∀ u q, length u = S k → run start u = Some q →
            q ∈ seen ∨ ∃ e', e' ∈ fr ≫= successors ∧ e'.2 = q ∧ lex_le e'.1 u).
  { intros u q Hlen Hrun. destruct (snoc_inv u) as [->|(u0 & s & ->)];
      [discriminate|].
    rewrite length_app in Hlen. simpl in Hlen.
    apply run_snoc_Some in Hrun as (q0 & Hrun0 & Hd).
    destruct (Hleast u0 q0) as [(e & He & Hq & Hle)|(w' & Hlen' & Hrun')];
      [lia|done| |].
    - right. exists (e.1 ++ [s], q). split; [|split; [done|]].
      + apply list_elem_of_bind. exists e. split; [|done].
        apply elem_of_successors. exists s. simpl. by rewrite Hq.
      + simpl. apply lex_le_snoc; [|done].
        destruct (Hword e He) as [-> _]. lia.
    - left. apply Hseen. exists (w' ++ [s]). split.
      + rewrite length_app. simpl. lia.
      + apply run_snoc_Some. eauto. }
  constructor.
  - intros q. rewrite discover_seen, Hseen. split.
    + intros [(w & Hlen & Hrun)|(e' & He' & <-)].
      * exists w. split; [lia|done].
      * destruct (Hcand e' He') as [Hlen Hrun]. exists e'.1.
        split; [lia|done].
    + intros (w & Hlen & Hrun).
      destruct (decide (length w = S k)) as [Hk|Hk].
      * destruct (Hnext w q Hk Hrun) as [Hin|(e' & He' & Hq & _)].
        -- left. by apply Hseen.
        -- right. eauto.
      * left. exists w. split; [lia|done].
  - intros e' [He' _]%discover_frontier. by apply Hcand.
  - intros u q Hlen Hrun.
    assert (Hold : q ∈ seen →
              ∃ w, (k0 ≤ length w < S k)%nat ∧ run start w = Some q).
    { intros (w & Hlenw & Hrunw)%Hseen. exists w. split; [lia|done]. }
    destruct (Hnext u q Hlen Hrun) as [Hin|(e' & He' & Hq & Hle)];
      [right; by apply Hold|].
    destruct (decide (q ∈ seen)) as [Hin|Hnin]; [right; by apply Hold|].
    left.
    destruct (discover_first seen (fr ≫= successors) e' Hcands He')
      as (e'' & He'' & Hq'' & Hlt); [by rewrite Hq|].
    exists e''. split; [done|]. split; [congruence|].
    apply (lex_le_trans _ e'.1); [|done].
    destruct Hlt as [->|Hlt]; [by left|by right].
  - by apply discover_sorted.
Qed.

(** A level without accepting state extends [none_below]. *)
Lemma none_below_step k seen fr :
  level_inv k seen fr → none_below k →
  (∀ e, e ∈ fr → accepting e.2 = false) →
  none_below (S k).
Proof.
  intros [Hseen Hword Hleast Hsorted] Hbelow Hfr w Hlen.
  destruct (decide (length w = k)) as [Hk|Hk]; [|apply Hbelow; lia].
  unfold Search.accepts_from.
  destruct (run start w) as [q|] eqn:Hrun; [|done].
  destruct (Hleast w q Hk Hrun) as [(e & He & <- & _)|(w' & Hlen' & Hrun')].
  - by apply Hfr.
  - specialize (Hbelow w'). unfold Search.accepts_from in Hbelow.
    rewrite Hrun' in Hbelow. apply Hbelow. lia.
Qed.

(** The first accepting entry of a sorted frontier. *)
Lemma find_first fr e :
  StronglySorted entry_lt fr →
  find (fun e => accepting e.2) fr = Some e →
  e ∈ fr ∧ accepting e.2 = true ∧
  ∀ e', e' ∈ fr → accepting e'.2 = true → e' = e ∨ entry_lt e e'.
Proof.
  intros Hs. induction Hs as [|e0 fr Hs IH Hall]; simpl; [done|].
  destruct (accepting e0.2) eqn:Hacc.
  - intros [= <-]. split; [by left|]. split; [done|].
    intros e' [->|He']%elem_of_cons _; [by left|]. right.
    rewrite Forall_forall in Hall. by apply Hall.
  - intros Hfind. destruct (IH Hfind) as (He & Hacce & Hmin).
    split; [by right|]. split; [done|].
    intros e' [->|He']%elem_of_cons Hacc'; [congruence|]. by apply Hmin.
Qed.

Lemma find_none fr :
  find (fun e => accepting e.2) fr = None →
  ∀ e, e ∈ fr → accepting e.2 = false.
Proof.
  intros Hfind e He. apply list_elem_of_In in He.
  apply (find_none _ _ Hfind e He).
Qed.

(** The first accepting entry of a level is the least accepted word. *)
Lemma search_found k seen fr e :
  level_inv k seen fr → none_below k →
  find (fun e => accepting e.2) fr = Some e →
  accepts_from start e.1 = true ∧ length e.1 = k ∧
  ∀ u, (k0 ≤ length u)%nat → accepts_from start u = true →
       shortlex_le e.1 u.
Proof.
  intros Hinv Hbelow Hfind.
  apply find_first in Hfind as (He & Hacc & Hmin); [|apply Hinv].
  destruct (inv_word _ _ _ Hinv e He) as [Hlen Hrun].
  split; [|split; [done|]].
  { unfold Search.accepts_from. by rewrite Hrun. }
  intros u Hu Haccu.
  destruct (decide (length u < k)%nat) as [Hlt|Hge].
  { rewrite Hbelow in Haccu by lia. done. }
  destruct (decide (length u = k)) as [Heq|Hne]; [|left; lia].
  right. split; [lia|]. unfold Search.accepts_from in Haccu.
  destruct (run start u) as [q|] eqn:Hrunu; [|done].
  destruct (inv_least _ _ _ Hinv u q Heq Hrunu)
    as [(e' & He' & Hq & Hle)|(w' & Hlen' & Hrun')].
  2:{ specialize (Hbelow w' Hlen').
      unfold Search.accepts_from in Hbelow. rewrite Hrun' in Hbelow.
      congruence. }
  apply (lex_le_trans _ e'.1); [|done].
  destruct (Hmin e' He') as [->|Hlt]; [congruence|by left|by right].
Qed.

(** What the search returns is accepted and is the least accepted
    word. *)
Lemma search_Some fuel k seen fr w :
  (k0 ≤ k)%nat →
  level_inv k seen fr → none_below k →
  search fuel seen fr = Some w →
  accepts_from start w = true ∧ (k0 ≤ length w)%nat ∧
  ∀ u, (k0 ≤ length u)%nat → accepts_from start u = true → shortlex_le w u.
Proof.
  revert k seen fr.
  induction fuel as [|fuel IH]; intros k seen fr Hk Hinv Hbelow Hsearch;
    destruct (find (fun e => accepting e.2) fr) as [e|] eqn:Hfind;
    cbn [Search.search] in Hsearch; rewrite Hfind in Hsearch;
    try discriminate.
  1,2: injection Hsearch as <-;
    destruct (search_found k seen fr e Hinv Hbelow Hfind) as (? & -> & ?);
    done.
  apply (IH (S k) _ _ (ltac:(lia)) (level_inv_step k seen fr Hinv));
    [|done].
  apply (none_below_step k seen fr); [done|done|by apply find_none].
Qed.

End search_correct.

Section search_complete.
Context `{Countable Q}.
Context (alphabet : gset Z) (step : Q → Z → option Q) (accepting : Q → bool).
Context (start : Q).
Context (carrier : gset Q).
Hypothesis carrier_closed : ∀ q s q', step q s = Some q' → q' ∈ carrier.
Context (k0 : nat).
Hypothesis k0_le_1 : (k0 ≤ 1)%nat.

Local Abbreviation delta := (Search.delta alphabet step).
Local Abbreviation run := (Search.run alphabet step).
Local Abbreviation accepts_from := (Search.accepts_from alphabet step accepting).
Local Abbreviation successors := (Search.successors alphabet step).
Local Abbreviation next_level := (Search.next_level alphabet step).
Local Abbreviation search := (Search.search alphabet step accepting).
Local Abbreviation level_inv := (level_inv alphabet step start k0).
Local Abbreviation none_below := (none_below alphabet step accepting start k0).
Local Abbreviation reached := (reached alphabet step start).

Implicit Types (q : Q) (u v w : list Z) (e : list Z * Q)
  (seen : gset Q) (fr : list (list Z * Q)).

Lemma run_in_carrier w q :
  run start w = Some q → q = start ∨ q ∈ carrier.
Proof.
  destruct (snoc_inv w) as [->|(u & s & ->)].
  - intros [= <-]. by left.
  - intros (q0 & _ & [_ Hstep]%delta_Some)%run_snoc_Some. right.
    by apply (carrier_closed q0 s).
Qed.

Lemma seen_bound k seen fr :
  level_inv k seen fr → seen ⊆ {[ start ]} ∪ carrier.
Proof.
  intros [Hseen _ _ _] q (w & _ & Hrun)%Hseen.
  apply run_in_carrier in Hrun. set_solver.
Qed.

(** Once a level brings no new state, every state that a word reaches
    has been seen. *)
Lemma level_closed k seen fr :
  level_inv k seen fr → (next_level seen fr).2 = [] →
  ∀ w q, (k0 ≤ length w)%nat → run start w = Some q → reached k0 k q.
Proof.
  intros Hinv Hnil.
  pose proof (level_inv_step _ _ _ _ k0_le_1 _ _ _ Hinv) as Hinv'.
  assert (Hback : ∀ q, reached k0 (S k) q → reached k0 k q).
  { destruct Hinv as [Hseen _ _ _], Hinv' as [Hseen' _ _ _].
    intros q Hq%Hseen'. apply Hseen. unfold Search.next_level in Hq.
    apply discover_seen in Hq as [Hq|(e & He & <-)]; [done|].
    by apply (discover_nil seen (fr ≫= successors)). }
  intros w. induction w as [|s u IH] using rev_ind; intros q Hlen Hrun.
  - apply Hback. exists []. split; [simpl in *; lia|done].
  - apply Hback. apply run_snoc_Some in Hrun as (q0 & Hrun0 & Hd).
    destruct (decide (k0 ≤ length u)%nat) as [Hu|Hu].
    + destruct (IH q0 Hu Hrun0) as (w' & Hlen' & Hrun').
      exists (w' ++ [s]). split.
      * rewrite length_app. simpl. lia.
      * apply run_snoc_Some. eauto.
    + exists (u ++ [s]). split.
      * rewrite length_app. simpl. lia.
      * apply run_snoc_Some. eauto.
Qed.

(** With enough fuel, the search fails only when no word is
    accepted. *)
Lemma search_None fuel k seen fr :
  (k0 ≤ k)%nat →
  level_inv k seen fr → none_below k →
  (size ({[ start ]} ∪ carrier) < fuel + size seen)%nat →
  search fuel seen fr = None →
  ∀ u, (k0 ≤ length u)%nat → accepts_from start u = false.
Proof.
  revert k seen fr.
  induction fuel as [|fuel IH]; intros k seen fr Hk Hinv Hbelow Hfuel.
  - pose proof (subseteq_size _ _ (seen_bound _ _ _ Hinv)). lia.
  - simpl. destruct (find _ fr) as [e|] eqn:Hfind; [done|]. intros Hnone.
    pose proof (level_inv_step _ _ _ _ k0_le_1 _ _ _ Hinv) as Hinv'.
    assert (Hbelow' : none_below (S k)).
    { eapply none_below_step; [exact k0_le_1|exact Hinv|exact Hbelow|].
      by apply find_none. }
    destruct (decide ((next_level seen fr).2 = [])) as [Hnext|Hnext].
    + intros u Hu. unfold Search.accepts_from.
      destruct (run start u) as [q|] eqn:Hrun; [|done].
      destruct (level_closed k seen fr Hinv Hnext u q Hu Hrun)
        as (w' & Hlen' & Hrun').
      specialize (Hbelow' w'). unfold Search.accepts_from in Hbelow'.
      rewrite Hrun' in Hbelow'. apply Hbelow'. lia.
    + apply (IH (S k) _ _ (ltac:(lia)) Hinv' Hbelow'); [|done].
      unfold Search.next_level in *. rewrite discover_size.
      destruct (Search.discover seen (fr ≫= successors)).2; [done|].
      simpl. lia.
Qed.

End search_complete.

(** ** The operations of the algebra and the languages *)

Section algebra_facts.
Import Automata.
Implicit Types (X A B : automaton) (w u : list Z).

(** [isempty] tells whether any word is accepted. *)
Lemma isempty_spec X : isempty X = true ↔ ∀ w, accepts X w = false.
Proof.
  unfold isempty, accepts.
  assert (Hinv : level_inv (alphabet X) (step X) (start X) 0 0
                   {[ start X ]} [([], start X)]).
  { constructor.
    - intros q. rewrite elem_of_singleton. split.
      + intros ->. exists []. split; [simpl; lia|done].
      + intros (w & Hlen & Hrun). destruct w; [|simpl in Hlen; lia].
        simpl in Hrun. congruence.
    - intros e ->%list_elem_of_singleton. done.
    - intros u q Hu Hrun. destruct u; [|done]. simpl in Hrun.
      injection Hrun as <-. left. exists ([], start X).
      split; [by left|]. split; [done|apply lex_le_refl].
    - repeat constructor. }
  assert (Hbelow : none_below (alphabet X) (step X) (accepting X) (start X) 0 0).
  { intros w Hw. lia. }
  destruct (Search.search _ _ _ _ _ _) as [w|] eqn:Hsearch.
  - split; [done|]. intros Hnone.
    destruct (search_Some (alphabet X) (step X) (accepting X) (start X) 0
                (Nat.le_0_l 1) _ 0 _ _ w (le_n 0) Hinv Hbelow Hsearch)
      as (Hacc & _).
    rewrite Hnone in Hacc. done.
  - split; [|done]. intros _ w.
    apply (search_None (alphabet X) (step X) (accepting X) (start X)
             (carrier X) (carrier_closed X) 0 (Nat.le_0_l 1) (fuel X) 0 _ _
             (le_n 0) Hinv Hbelow); [|exact Hsearch|lia].
    rewrite size_singleton. unfold fuel.
    pose proof (size_union_alt {[ start X ]} (carrier X)) as Hsz.
    pose proof (subseteq_size (carrier X ∖ {[ start X ]}) (carrier X)
                  ltac:(set_solver)).
    rewrite size_singleton in Hsz. lia.
Qed.

(** [successor] is the least non-empty accepted word, shorter words
    first and words of one length in lexicographic order. *)
Lemma successor_spec X :
  match successor X with
  | Some w =>
      accepts X w = true ∧ w ≠ [] ∧
      ∀ u, u ≠ [] → accepts X u = true → shortlex_le w u
  | None => ∀ u, u ≠ [] → accepts X u = false
  end.
Proof.
  unfold successor, accepts.
  assert (Hinv0 : level_inv (alphabet X) (step X) (start X) 1 0
                    ∅ [([], start X)]).
  { constructor.
    - intros q. split; [set_solver|]. intros (w & Hlen & _). lia.
    - intros e ->%list_elem_of_singleton. done.
    - intros u q Hu Hrun. destruct u; [|done]. simpl in Hrun.
      injection Hrun as <-. left. exists ([], start X).
      split; [by left|]. split; [done|apply lex_le_refl].
    - repeat constructor. }
  pose proof (level_inv_step (alphabet X) (step X) (start X) 1 (le_n 1)
                _ _ _ Hinv0) as Hinv.
  assert (Hbelow : none_below (alphabet X) (step X) (accepting X) (start X) 1 1).
  { intros w Hw. lia. }
  assert (Hne : ∀ u, u ≠ [] ↔ (1 ≤ length u)%nat).
  { intros [|x u]; simpl; split; try done; lia. }
  destruct (Search.search _ _ _ _ _ _) as [w|] eqn:Hsearch.
  - destruct (search_Some (alphabet X) (step X) (accepting X) (start X) 1
                (le_n 1) _ 1 _ _ w (le_n 1) Hinv Hbelow Hsearch)
      as (Hacc & Hlen & Hmin).
    split; [done|]. split; [by apply Hne|].
    intros u Hu. apply Hmin. by apply Hne.
  - intros u Hu%Hne.
    apply (search_None (alphabet X) (step X) (accepting X) (start X)
             (carrier X) (carrier_closed X) 1 (le_n 1) (fuel X) 1 _ _
             (le_n 1) Hinv Hbelow); [|exact Hsearch|done].
    unfold fuel.
    pose proof (size_union_alt {[ start X ]} (carrier X)) as Hsz.
    pose proof (subseteq_size (carrier X ∖ {[ start X ]}) (carrier X)
                  ltac:(set_solver)).
    rewrite size_singleton in Hsz. lia.
Qed.

(** The run of a product follows the runs of its components. *)
Fixpoint lift_run X (o : option (state X)) (w : list Z) : option (state X) :=
  match w with
  | [] => o
  | s :: w' => lift_run X (lift X o s) w'
  end.

Lemma lift_run_None X w : lift_run X None w = None.
Proof. induction w as [|s w IH]; [done|exact IH]. Qed.

Lemma lift_run_Some X q w :
  lift_run X (Some q) w = Search.run (alphabet X) (step X) q w.
Proof.
  revert q. induction w as [|s w IH]; intros q; simpl; [done|].
  destruct (Search.delta (alphabet X) (step X) q s) as [q'|]; simpl.
  - apply IH.
  - apply lift_run_None.
Qed.

Lemma accepts_lift X w :
  accepts X w = lift_accepting X (lift_run X (Some (start X)) w).
Proof.
  unfold accepts, Search.accepts_from. rewrite lift_run_Some.
  by destruct (Search.run _ _ _ _).
Qed.

Lemma run_outside X q w s :
  s ∈ w → s ∉ alphabet X → Search.run (alphabet X) (step X) q w = None.
Proof.
  revert q. induction w as [|s' w IH]; intros q Hs Hout; [by apply elem_of_nil in Hs|].
  simpl. unfold Search.delta at 1. case_decide as Hin.
  - destruct (step X q s') as [q'|]; simpl; [|done].
    apply IH; [|done]. apply elem_of_cons in Hs as [->|Hs]; done.
  - done.
Qed.

Lemma product_run f A B p q w :
  Forall (fun s => s ∈ alphabet A ∪ alphabet B) w →
  Search.run (alphabet (product f A B)) (step (product f A B)) (p, q) w
  = Some (lift_run A p w, lift_run B q w).
Proof.
  intros Hw. revert p q. induction Hw as [|s w Hs Hw IH]; intros p q; [done|].
  cbn [Search.run lift_run]. unfold Search.delta at 1. simpl.
  rewrite decide_True by done. simpl. apply IH.
Qed.

Lemma accepts_product f A B w :
  f false false = false →
  accepts (product f A B) w = f (accepts A w) (accepts B w).
Proof.
  intros Hf.
  destruct (decide (Forall (fun s => s ∈ alphabet A ∪ alphabet B) w)) as [Hw|Hw].
  - unfold accepts at 1. unfold Search.accepts_from.
    change (start (product f A B)) with (Some (start A), Some (start B)).
    rewrite (product_run f A B _ _ w Hw). simpl.
    by rewrite <- !accepts_lift.
  - apply not_Forall_Exists in Hw; [|apply _].
    apply Exists_exists in Hw as (s & Hs & Hout).
    unfold accepts, Search.accepts_from.
    rewrite (run_outside (product f A B) _ w s Hs Hout).
    rewrite (run_outside A _ w s Hs), (run_outside B _ w s Hs);
      [by rewrite Hf|set_solver|set_solver].
Qed.

Lemma accepts_difference A B w :
  accepts (difference A B) w = accepts A w && negb (accepts B w).
Proof. by apply (accepts_product (fun a b => a && negb b)). Qed.

Lemma accepts_union A B w :
  accepts (union A B) w = accepts A w || accepts B w.
Proof. by apply (accepts_product orb). Qed.

Lemma isempty_difference A B :
  isempty (difference A B) = true ↔
  ∀ w, accepts A w = true → accepts B w = true.
Proof.
  rewrite isempty_spec. split; intros Hall w.
  - specialize (Hall w). rewrite accepts_difference in Hall.
    destruct (accepts A w), (accepts B w); done.
  - rewrite accepts_difference. specialize (Hall w).
    destruct (accepts A w), (accepts B w); simpl; try done.
    by specialize (Hall eq_refl).
Qed.

Lemma equal_spec A B :
  equal A B = true ↔ ∀ w, accepts A w = accepts B w.
Proof.
  unfold equal. rewrite andb_true_iff, !isempty_difference. split.
  - intros [H1 H2] w. specialize (H1 w). specialize (H2 w).
    destruct (accepts A w), (accepts B w); try done.
    + by specialize (H1 eq_refl).
    + by specialize (H2 eq_refl).
  - intros Heq. split; intros w; rewrite (Heq w); auto.
Qed.

End algebra_facts.

(** ** Facts about the string methods *)

Section string_facts.
Implicit Types (s t u cur : string) (c d : ascii).

Lemma append_nil_l t : "" +:+ t = t.
Proof. reflexivity. Qed.

Lemma append_cons c s t : String c s +:+ t = String c (s +:+ t).
Proof. reflexivity. Qed.

Lemma append_nil_r s : s +:+ "" = s.
Proof.
  induction s as [|c s IH]; [done|]. by rewrite append_cons, IH.
Qed.

Lemma append_assoc s t u : (s +:+ t) +:+ u = s +:+ (t +:+ u).
Proof.
  induction s as [|c s IH]; [done|]. by rewrite !append_cons, IH.
Qed.

Lemma free_of_append s t chars :
  free_of (s +:+ t) chars = free_of s chars && free_of t chars.
Proof.
  induction s as [|c s IH]; [done|]. rewrite append_cons. simpl.
  rewrite IH. by destruct (Str.mem c chars).
Qed.

(** A string free of the characters [chars] does not hold the first
    of them. *)
Lemma free_of_mem s c chars :
  free_of s (String c chars) = true → Str.mem c s = false.
Proof.
  induction s as [|e s IH]; simpl; [done|].
  rewrite (Ascii.eqb_sym e c). destruct (Ascii.eqb c e); simpl; [done|].
  destruct (Str.mem e chars); simpl; [done|]. exact IH.
Qed.

Lemma lstrip_free_head c s chars :
  Str.mem c chars = false → Str.lstrip chars (String c s) = String c s.
Proof. intros Hc. simpl. by rewrite Hc. Qed.

Lemma rstrip_free s chars :
  free_of s chars = true → Str.rstrip chars s = s.
Proof.
  induction s as [|c s IH]; simpl; [done|].
  destruct (Str.mem c chars) eqn:Hc; simpl; [done|]. intros Hs.
  rewrite (IH Hs). by destruct s.
Qed.

Lemma rstrip_chars_of s chars :
  chars_of s chars = true → Str.rstrip chars s = "".
Proof.
  induction s as [|c s IH]; simpl; [done|].
  destruct (Str.mem c chars) eqn:Hc; simpl; [|done]. intros Hs.
  by rewrite (IH Hs).
Qed.

Lemma rstrip_append s t chars :
  chars_of t chars = true →
  Str.rstrip chars (s +:+ t) = Str.rstrip chars s.
Proof.
  intros Ht. induction s as [|c s IH].
  - rewrite append_nil_l. by apply rstrip_chars_of.
  - rewrite append_cons. simpl. by rewrite IH.
Qed.

(** The brackets around a group that holds no bracket are stripped. *)
Lemma strip_brackets t :
  free_of t "[]" = true → t ≠ "" →
  Str.strip "[]" ("[" +:+ t +:+ "]") = t.
Proof.
  intros Hfree Hne. unfold Str.strip.
  destruct t as [|c t]; [done|].
  assert (Hc : Str.mem c "[]" = false).
  { cbn [free_of] in Hfree. by destruct (Str.mem c "[]"). }
  change ("[" +:+ String c t +:+ "]") with (String "[" (String c (t +:+ "]"))).
  change (Str.lstrip "[]" (String "[" (String c (t +:+ "]"))))
    with (Str.lstrip "[]" (String c (t +:+ "]"))).
  rewrite (lstrip_free_head c _ _ Hc), <- append_cons.
  rewrite rstrip_append by done. by apply rstrip_free.
Qed.

Lemma split_go_free c sep cur s :
  Str.mem c s = false →
  Str.split_go (String c sep) 0 cur s = [cur +:+ s].
Proof.
  revert cur. induction s as [|d s IH]; intros cur; simpl.
  - by rewrite append_nil_r.
  - destruct (Ascii.eqb_spec c d) as [->|Hne]; simpl; [done|]. intros Hs.
    destruct (ascii_dec c d) as [?|_]; [done|].
    rewrite (IH _ Hs), append_assoc. done.
Qed.

Lemma split_go_at c cur s t :
  Str.mem c s = false →
  Str.split_go (String c "") 0 cur (s +:+ String c t) =
  (cur +:+ s) :: Str.split_go (String c "") 0 "" t.
Proof.
  revert cur. induction s as [|d s IH]; intros cur.
  - intros _. rewrite append_nil_l, append_nil_r. simpl.
    destruct (ascii_dec c c) as [_|?]; [|done]. by destruct t.
  - rewrite append_cons. simpl.
    destruct (Ascii.eqb_spec c d) as [->|Hne]; simpl; [done|]. intros Hs.
    destruct (ascii_dec c d) as [?|_]; [done|].
    rewrite (IH _ Hs), append_assoc. done.
Qed.

Lemma contains_at c s t : Str.contains (String c "") (s +:+ String c t) = true.
Proof.
  induction s as [|d s IH].
  - rewrite append_nil_l. simpl.
    destruct (ascii_dec c c) as [_|?]; [|done]. by destruct t.
  - rewrite append_cons. simpl. rewrite IH. apply orb_true_r.
Qed.

End string_facts.

(** ** Facts about the decoder *)

Section decoder_facts.
Implicit Types (a b s t : string) (c d : ascii).

Lemma forall_bool_spec f : forall_bool f = true → ∀ x : bool, f x = true.
Proof.
  unfold forall_bool. intros [H0 H1]%andb_true_iff [|]; done.
Qed.

Lemma forall_ascii_spec f : forall_ascii f = true → ∀ c, f c = true.
Proof.
  intros Hall [b0 b1 b2 b3 b4 b5 b6 b7]. unfold forall_ascii in Hall.
  apply forall_bool_spec with (x := b0) in Hall.
  apply forall_bool_spec with (x := b1) in Hall.
  apply forall_bool_spec with (x := b2) in Hall.
  apply forall_bool_spec with (x := b3) in Hall.
  apply forall_bool_spec with (x := b4) in Hall.
  apply forall_bool_spec with (x := b5) in Hall.
  apply forall_bool_spec with (x := b6) in Hall.
  by apply forall_bool_spec with (x := b7) in Hall.
Qed.

Lemma forall_hex_spec f :
  forall_hex f = true →
  ∀ h1 h2, is_hex h1 = true → is_hex h2 = true → f (hex_endpoint h1 h2) = true.
Proof.
  intros Hall h1 h2 Hh1 Hh2. unfold forall_hex in Hall.
  apply forall_ascii_spec with (c := h1) in Hall. rewrite Hh1 in Hall.
  simpl in Hall. apply forall_ascii_spec with (c := h2) in Hall.
  by rewrite Hh2 in Hall.
Qed.

Lemma free_of_not_mem s c chars :
  free_of s chars = true → Str.mem c chars = true → Str.mem c s = false.
Proof.
  intros Hfree Hc. induction s as [|e s IH]; [done|].
  cbn [free_of] in Hfree. apply andb_true_iff in Hfree as [He Hs].
  cbn [Str.mem]. rewrite (IH Hs), orb_false_r.
  destruct (Ascii.eqb_spec c e) as [->|_]; [|done].
  by rewrite Hc in He.
Qed.

Lemma free_of_weaken s chars chars' :
  (∀ c, Str.mem c chars' = true → Str.mem c chars = true) →
  free_of s chars = true → free_of s chars' = true.
Proof.
  intros Hsub. induction s as [|e s IH]; [done|]. cbn [free_of].
  intros [He Hs]%andb_true_iff. rewrite (IH Hs), andb_true_r.
  destruct (Str.mem e chars') eqn:E; [|done].
  by rewrite (Hsub e E) in He.
Qed.

Lemma elem_of_range_set (start stop x : Z) :
  x ∈ range_set start stop ↔ start ≤ x ≤ stop.
Proof.
  unfold range_set. rewrite elem_of_list_to_set, elem_of_seqZ. lia.
Qed.

(** A group [a-b] whose endpoints hold no bracket and no hyphen. *)
Lemma decode_range a b :
  free_of a meta = true → free_of b meta = true →
  parse_char_ranges ("[" +:+ a +:+ "-" +:+ b +:+ "]") =
  x ← p a; y ← p b; Ok (range_set (Z.min x y) (Z.max x y)).
Proof.
  intros Ha Hb. unfold parse_char_ranges.
  assert (Hdash : ∀ s, free_of s meta = true → Str.mem "-" s = false).
  { intros s Hs. by apply (free_of_not_mem s "-" meta). }
  assert (Hbr : ∀ s, free_of s meta = true → free_of s "[]" = true).
  { intros s. apply free_of_weaken. intros c. unfold meta. cbn [Str.mem].
    destruct (Ascii.eqb c "["), (Ascii.eqb c "]"); done. }
  replace ("[" +:+ a +:+ "-" +:+ b +:+ "]")
    with ("[" +:+ (a +:+ "-" +:+ b) +:+ "]")
    by (by rewrite !append_assoc).
  rewrite strip_brackets.
  2:{ rewrite !free_of_append, (Hbr a Ha), (Hbr b Hb). done. }
  2:{ by destruct a. }
  unfold Str.split. rewrite (split_go_free "]" "[").
  2:{ apply (free_of_not_mem _ "]" "[]"); [|done].
      rewrite !free_of_append, (Hbr a Ha), (Hbr b Hb). done. }
  rewrite append_nil_l. cbn [for_each]. unfold parse_part.
  change (a +:+ "-" +:+ b) with (a +:+ String "-" b).
  rewrite contains_at. unfold Str.split.
  rewrite (split_go_at "-" "" a b (Hdash a Ha)).
  rewrite (split_go_free "-" "" "" b (Hdash b Hb)), !append_nil_l.
  destruct (p a) as [x|e]; [|done]. destruct (p b) as [y|e]; [|done].
  simpl. by rewrite (left_id_L ∅ (∪)).
Qed.

Lemma p_char c : p (String c "") = Ok (Str.ord1 c).
Proof.
  unfold p, Str.startswith. cbn [String.prefix].
  by destruct (ascii_dec "0" c).
Qed.

Lemma hex_is_free : forall_hex (fun s => free_of s meta) = true.
Proof. vm_compute. reflexivity. Qed.

Lemma hex_is_Ok : forall_hex (fun s => is_Ok (p s)) = true.
Proof. vm_compute. reflexivity. Qed.

(** An endpoint is one of the three characters of [meta] or is free of
    them, and then it has a code. *)
Lemma endpoint_cases a :
  endpoint a →
  (a = "[" ∨ a = "]" ∨ a = "-") ∨
  (free_of a meta = true ∧ ∃ x, p a = Ok x).
Proof.
  intros [c|h1 h2 Hh1 Hh2].
  - destruct (Str.mem c meta) eqn:Hc.
    + left. unfold meta in Hc. cbn [Str.mem] in Hc.
      destruct (Ascii.eqb_spec c "[") as [E|_]; [rewrite E; by left|].
      destruct (Ascii.eqb_spec c "]") as [E|_]; [rewrite E; by right; left|].
      destruct (Ascii.eqb_spec c "-") as [E|_]; [rewrite E; by right; right|done].
    + right. split; [cbn [free_of]; by rewrite Hc|].
      exists (Str.ord1 c). apply p_char.
  - right. split.
    + by apply (forall_hex_spec _ hex_is_free h1 h2).
    + pose proof (forall_hex_spec _ hex_is_Ok h1 h2 Hh1 Hh2) as Hok.
      change (String "0" (String "x" (String h1 (String h2 ""))))
        with (hex_endpoint h1 h2).
      simpl in Hok. destruct (p (hex_endpoint h1 h2)); [eauto|done].
Qed.

Lemma swap_meta_char :
  forall_ascii (fun c =>
    swap_agrees "[" (String c "") && swap_agrees "]" (String c "")
    && swap_agrees "-" (String c "")) = true.
Proof. vm_compute. reflexivity. Qed.

Lemma swap_meta_hex :
  forall_hex (fun s =>
    swap_agrees "[" s && swap_agrees "]" s && swap_agrees "-" s) = true.
Proof. vm_compute. reflexivity. Qed.

(** With one of the three characters as an endpoint, both orders fail
    in the same way. *)
Lemma swap_meta a b :
  a = "[" ∨ a = "]" ∨ a = "-" → endpoint b →
  parse_char_ranges ("[" +:+ b +:+ "-" +:+ a +:+ "]") =
  parse_char_ranges ("[" +:+ a +:+ "-" +:+ b +:+ "]").
Proof.
  intros Ha Hb.
  assert (Hall : swap_agrees "[" b && swap_agrees "]" b && swap_agrees "-" b
                 = true).
  { destruct Hb as [c|h1 h2 Hh1 Hh2].
    - apply (forall_ascii_spec _ swap_meta_char c).
    - apply (forall_hex_spec _ swap_meta_hex h1 h2 Hh1 Hh2). }
  apply andb_true_iff in Hall as [[H1 H2]%andb_true_iff H3].
  unfold swap_agrees in *.
  apply bool_decide_eq_true in H1, H2, H3.
  by destruct Ha as [->|[->| ->]].
Qed.

End decoder_facts.

(** * The claims *)

(** The automaton built from a concrete graph. *)
Ltac built pdfa A HA :=
  destruct (parsed_dfa_to_automaton pdfa) as [A|?] eqn:HA;
  [|vm_compute in HA; discriminate].

(** ** Character Range Decoder *)

(** C8: the decoder returns {98} for "[b]", 7 codes for
    "[0x00-0x03][0x05-0x07]", 6 codes for "[a-c][e-g]", 256 codes for
    "[0x00-0xFF]" and 255 codes for "[0x00-a][c-0xFF]". *)
Theorem parse_char_ranges_examples :
  parse_char_ranges "[b]" = Ok {[ 98 ]} ∧
  len (parse_char_ranges "[0x00-0x03][0x05-0x07]") = Ok 7%nat ∧
  len (parse_char_ranges "[a-c][e-g]") = Ok 6%nat ∧
  len (parse_char_ranges "[0x00-0xFF]") = Ok 256%nat ∧
  len (parse_char_ranges "[0x00-a][c-0xFF]") = Ok 255%nat.
Proof. repeat split; vm_compute; reflexivity. Qed.

(** C9: for all endpoints [a] and [b] of the range grammar, each a
    single character or [0x] with two hexadecimal digits, the group
    [b-a] decodes as the group [a-b] does; when neither endpoint is a
    bracket or a hyphen, both are the codes from the smaller to the
    larger endpoint. *)
Theorem parse_char_ranges_reversed (a b : string) :
  endpoint a → endpoint b →
  parse_char_ranges ("[" +:+ b +:+ "-" +:+ a +:+ "]") =
  parse_char_ranges ("[" +:+ a +:+ "-" +:+ b +:+ "]") ∧
  (free_of a meta = true → free_of b meta = true →
   ∃ x y cs, p a = Ok x ∧ p b = Ok y ∧
     parse_char_ranges ("[" +:+ a +:+ "-" +:+ b +:+ "]") = Ok cs ∧
     ∀ c, c ∈ cs ↔ Z.min x y ≤ c ≤ Z.max x y).
Proof.
  intros Ha Hb.
  destruct (endpoint_cases a Ha) as [Hma|[Hfa (x & Hx)]].
  { split; [by apply swap_meta|]. intros Hfa. by destruct Hma as [->|[->| ->]]. }
  destruct (endpoint_cases b Hb) as [Hmb|[Hfb (y & Hy)]].
  { split; [symmetry; by apply swap_meta|].
    intros _ Hfb. by destruct Hmb as [->|[->| ->]]. }
  rewrite !decode_range by done. rewrite Hx, Hy. simpl. split.
  - by rewrite Z.min_comm, Z.max_comm.
  - intros _ _. exists x, y, (range_set (Z.min x y) (Z.max x y)).
    split; [done|]. split; [done|]. split; [done|].
    intros c. apply elem_of_range_set.
Qed.

Lemma parse_char_ranges_reversed_witness :
  endpoint "a" ∧ endpoint "0x7A" ∧
  parse_char_ranges ("[" +:+ "0x7A" +:+ "-" +:+ "a" +:+ "]") =
  parse_char_ranges ("[" +:+ "a" +:+ "-" +:+ "0x7A" +:+ "]").
Proof.
  assert (Ha : endpoint "a") by constructor.
  assert (Hb : endpoint "0x7A") by (by constructor).
  split; [exact Ha|]. split; [exact Hb|].
  exact (proj1 (parse_char_ranges_reversed "a" "0x7A" Ha Hb)).
Defined.

(** ** Graph Parser *)

(** C7: the source tests the prefix [yyacept=]; a token that begins
    with [yyaccept=] and holds a bracket is handed to the decoder,
    which raises, while a token that begins with [yyacept=] is
    skipped whatever it holds. *)
Theorem label_accept_marker :
  edge_transition 1 2 (Some "yyaccept=[a]") = Raise TypeError ∧
  edge_transition 1 2 (Some "[b] yyaccept=[a]") = Raise TypeError ∧
  edge_transition 1 2 (Some "yyacept=[a]") = Ok (mkTransition 1 2 ∅) ∧
  edge_transition 1 2 (Some "[b] yyaccept=1") = Ok (mkTransition 1 2 {[ 98 ]}).
Proof. repeat split; vm_compute; reflexivity. Qed.

(** ** Automaton Builder *)

(** C2, as stated, fails: on [catch_all_first] the builder leaves the
    edge to 2 at (0, a), and the three steps in the stated order leave
    the edge to 1. *)
Lemma three_steps_counterexample :
  (A ← parsed_dfa_to_automaton catch_all_first;
   Ok (DFA.delta (DFA.transitions A) "0" 97)) = Ok (Some "2") ∧
  (tbl ← three_step_table catch_all_first;
   Ok (DFA.delta tbl "0" 97)) = Ok (Some "1").
Proof. split; vm_compute; reflexivity. Qed.

(** C2, amended: the self-loops of the accepting states are written
    first and the recorded transitions are applied after them in one
    pass in list order, so the entry at a state and a symbol is the
    destination of the last transition in the list that covers it (with
    a non-empty set that holds the symbol, or with the empty set), and
    the self-loop of an accepting state where no transition does. *)
Theorem table_last_write pdfa A q s r :
  parsed_dfa_to_automaton pdfa = Ok A →
  DFA.delta (DFA.transitions A) q s = Some r ↔
  (∃ i t, transitions pdfa !! i = Some t ∧
          covers (DFA.input_symbols A) t q s ∧ r = state_name (dst t) ∧
          ∀ j t', (i < j)%nat → transitions pdfa !! j = Some t' →
                  ¬ covers (DFA.input_symbols A) t' q s) ∨
  ((∀ t, t ∈ transitions pdfa → ¬ covers (DFA.input_symbols A) t q s) ∧
   q ∈ DFA.final_states A ∧ s ∈ DFA.input_symbols A ∧ r = q).
Proof.
  intros (_ & _ & _ & -> & -> & [_ Htbl] & _)%builder_inv.
  rewrite Htbl, last_write_spec. split.
  - intros [(i & t & Hi & Hc & [= ->] & Hlast)|[Hnone Hd]].
    + left. by exists i, t.
    + right. case_decide as Hq; [|done]. injection Hd as <-. tauto.
  - intros [(i & t & Hi & Hc & -> & Hlast)|(Hnone & Hq & Hs & ->)].
    + left. by exists i, t.
    + right. split; [done|]. by rewrite decide_True.
Qed.

Lemma table_last_write_witness :
  ∃ A, parsed_dfa_to_automaton catch_all_first = Ok A ∧
       DFA.delta (DFA.transitions A) "0" 97 = Some "2".
Proof.
  built catch_all_first A HA.
  exists A. split; [reflexivity|].
  apply (table_last_write catch_all_first A "0" 97 "2" HA).
  left. exists 1%nat, (mkTransition 0 2 {[ 97 ]}).
  split; [reflexivity|]. split; [|split; [reflexivity|]].
  - apply covers_labelled; [|split; [reflexivity|]]; simpl; set_solver.
  - intros j t' Hj Ht'. destruct j as [|[|j]]; [lia|lia|discriminate].
Defined.

(** The graph [dead_end] leaves the state 1 without successor on [a]:
    [DFA(...)] refuses its table, and no automaton is built. *)
Lemma dead_end_refused :
  parsed_dfa_to_automaton dead_end = Raise MissingSymbolError.
Proof. vm_compute. reflexivity. Qed.

(** C3: the transition function of every automaton that the builder
    returns is total: every state has a successor for every symbol of
    the alphabet, the successor is a state, and nothing is defined
    outside the state set and the alphabet.  The loops of the builder
    complete the rows of the accepting states only; a graph that
    leaves a state without successor for a symbol is refused by
    [DFA(...)], so that no automaton is built from it. *)
Theorem table_total pdfa A :
  parsed_dfa_to_automaton pdfa = Ok A →
  (∀ q s, q ∈ DFA.states A → s ∈ DFA.input_symbols A →
     ∃ r, DFA.delta (DFA.transitions A) q s = Some r ∧ r ∈ DFA.states A) ∧
  (∀ q s, is_Some (DFA.delta (DFA.transitions A) q s) →
     q ∈ DFA.states A ∧ s ∈ DFA.input_symbols A).
Proof.
  intros (_ & Hc & Hsub & HS & HΣ & HF & Hspec & _)%builder_Ok.
  rewrite HS, HΣ. split.
  - intros q s Hq Hs.
    assert (Hsome : is_Some (DFA.delta (DFA.transitions A) q s)).
    { apply (table_entry_Some pdfa _ q s Hspec).
      destruct (Hc q s Hq Hs) as [?|?]; [by left|by right]. }
    destruct Hsome as [r Hr]. exists r. split; [done|].
    by apply (table_entry pdfa _ q s r Hspec (or_intror Hsub)) in Hr
      as (_ & _ & ?).
  - intros q s [r Hr].
    by apply (table_entry pdfa _ q s r Hspec (or_intror Hsub)) in Hr
      as (? & ? & _).
Qed.

Lemma table_total_witness :
  ∃ A, parsed_dfa_to_automaton accepts_nothing = Ok A ∧
       ∀ q s, q ∈ DFA.states A → s ∈ DFA.input_symbols A →
         ∃ r, DFA.delta (DFA.transitions A) q s = Some r ∧ r ∈ DFA.states A.
Proof.
  built accepts_nothing A HA.
  exists A. split; [reflexivity|].
  exact (proj1 (table_total accepts_nothing A HA)).
Defined.

(** C6, as stated, fails: the first transition of [two_catch_alls] has
    the empty character set and destination 1, and the built automaton
    maps (0, a) to 2. *)
Lemma unconditional_counterexample :
  (chars <$> transitions two_catch_alls !! 0%nat) = Some ∅ ∧
  (A ← parsed_dfa_to_automaton two_catch_alls;
   Ok (bool_decide (97 ∈ DFA.input_symbols A),
       DFA.delta (DFA.transitions A) "0" 97)) = Ok (true, Some "2").
Proof. split; vm_compute; reflexivity. Qed.

(** C6, amended: a recorded transition with the empty character set
    gives its destination to (source, symbol) for every symbol of the
    alphabet that no later transition in the list covers from the same
    source. *)
Theorem unconditional_covers_alphabet pdfa A i t s :
  parsed_dfa_to_automaton pdfa = Ok A →
  transitions pdfa !! i = Some t →
  chars t = ∅ →
  s ∈ DFA.input_symbols A →
  (∀ j t', (i < j)%nat → transitions pdfa !! j = Some t' →
           ¬ covers (DFA.input_symbols A) t' (state_name (src t)) s) →
  DFA.delta (DFA.transitions A) (state_name (src t)) s = Some (state_name (dst t)).
Proof.
  intros (_ & _ & _ & HΣ & _ & [_ Htbl] & _)%builder_inv Hi Hempty Hs Hlater.
  rewrite HΣ in *. rewrite Htbl. apply last_write_spec. left.
  exists i, t. split; [done|]. split; [|done].
  apply covers_unconditional; done.
Qed.

Lemma unconditional_covers_alphabet_witness :
  ∃ A, parsed_dfa_to_automaton two_catch_alls = Ok A ∧
       DFA.delta (DFA.transitions A) "0" 97 = Some "2".
Proof.
  built two_catch_alls A HA.
  exists A. split; [reflexivity|].
  assert (HΣ : 97 ∈ DFA.input_symbols A).
  { apply builder_inv in HA as (_ & _ & _ & -> & _).
    apply elem_of_pdfa_symbols. exists (mkTransition 1 1 {[ 97 ]}).
    split; [|simpl; set_solver]. simpl. set_solver. }
  apply (unconditional_covers_alphabet two_catch_alls A 1
           (mkTransition 0 2 ∅) 97 HA); [reflexivity|reflexivity|exact HΣ|].
  intros j t' Hj Ht' [Hsrc _].
  destruct j as [|[|[|[|j]]]]; try lia; try discriminate;
    injection Ht' as <-; vm_compute in Hsrc; discriminate.
Defined.

(** ** Start state *)

(** C4: the states that are the destination of no transition decide
    the outcome.  When their number is not one the builder raises (the
    plain exception for more than one, the failed assertion for none,
    where the earlier steps have not raised already); an automaton is
    only ever returned with the single such state as its start
    state; and when there is exactly one and the earlier steps
    succeed, it is that state that the builder hands to [DFA(...)] as
    the initial state, with the completed table. *)
Theorem start_state_unique pdfa :
  let S := pdfa_states (transitions pdfa) in
  let N := pdfa_nonstarters (transitions pdfa) in
  let Σ := pdfa_symbols (transitions pdfa) in
  let F := pdfa_finals pdfa in
  let reaches_start := readable pdfa ∧ (Σ = ∅ ∨ F ⊆ S) in
  (∀ q, q ∈ S ∖ N ↔
        (∃ t, t ∈ transitions pdfa ∧ q = state_name (src t)) ∧
        ∀ t, t ∈ transitions pdfa → q ≠ state_name (dst t)) ∧
  (size (S ∖ N) ≠ 1%nat → ∃ e, parsed_dfa_to_automaton pdfa = Raise e) ∧
  (reaches_start → (1 < size (S ∖ N))%nat →
   parsed_dfa_to_automaton pdfa = Raise Exception) ∧
  (reaches_start → size (S ∖ N) = 0%nat →
   parsed_dfa_to_automaton pdfa = Raise AssertionError) ∧
  (∀ A, parsed_dfa_to_automaton pdfa = Ok A →
        S ∖ N = {[ DFA.initial_state A ]}) ∧
  (reaches_start → ∀ q, S ∖ N = {[ q ]} →
   ∃ tbl, table_spec pdfa tbl ∧
          parsed_dfa_to_automaton pdfa = DFA.new (DFA.mk S Σ tbl q F)).
Proof.
  intros S N Σ F reaches_start.
  split; [|split; [|split; [|split; [|split]]]].
  - intros q. unfold S, N.
    rewrite elem_of_difference, elem_of_pdfa_states, elem_of_pdfa_nonstarters.
    split.
    + intros [(t & Ht & [Hq|Hq]) Hnd].
      * split; [eauto|]. intros t' Ht' Hq'. apply Hnd. eauto.
      * destruct Hnd. eauto.
    + intros [(t & Ht & Hq) Hnd]. split; [eauto|].
      intros (t' & Ht' & Hq'). by apply (Hnd t').
  - intros Hsize.
    destruct (parsed_dfa_to_automaton pdfa) as [A|e] eqn:HA; [|eauto].
    apply builder_inv in HA as (_ & _ & _ & _ & _ & _ & Hstart).
    fold S N in Hstart. rewrite Hstart, size_singleton in Hsize. done.
  - intros [Hread Hcond] Hsize.
    destruct (builder_reaches_start pdfa Hread Hcond) as (tbl & _ & ->).
    by rewrite pick_start_many.
  - intros [Hread Hcond] Hsize.
    destruct (builder_reaches_start pdfa Hread Hcond) as (tbl & _ & ->).
    by rewrite pick_start_none.
  - intros A HA. by apply builder_inv in HA as (_ & _ & _ & _ & _ & _ & Hstart).
  - intros [Hread Hcond] q Hq.
    destruct (builder_reaches_start pdfa Hread Hcond) as (tbl & Hspec & ->).
    apply pick_start_Ok in Hq. fold S N. rewrite Hq. by exists tbl.
Qed.

Lemma start_state_unique_witness :
  parsed_dfa_to_automaton two_entries = Raise Exception.
Proof.
  destruct (start_state_unique two_entries) as (_ & _ & Hmany & _).
  apply Hmany.
  - split; [|right]; apply (bool_decide_unpack _); vm_compute; exact I.
  - apply (bool_decide_unpack _). vm_compute. exact I.
Defined.

(** ** State set and final-state set *)

(** C10, as stated, fails: the accepting node 5 of [stray_final]
    occurs in no transition, and no automaton is built from it:
    [DFA(...)] refuses a final state that is not a state. *)
Lemma stray_final_counterexample :
  (finalnodes stray_final,
   (fun t => (src t, dst t)) <$> transitions stray_final,
   parsed_dfa_to_automaton stray_final)
  = ([(5, "five")], [(0, 1)], Raise InvalidStateError).
Proof. vm_compute. reflexivity. Qed.

(** C10, amended: the state set of a built automaton holds exactly the
    sources and destinations of the transitions, its final-state set
    holds exactly the accepting nodes, and the final states are among
    the states: an accepting node that occurs in no transition makes
    the builder raise, [KeyError] in the self-loop step when the
    alphabet is not empty and [InvalidStateError] in [DFA(...)] when
    the alphabet is empty and the start state is found. *)
Theorem states_and_finals :
  (∀ pdfa A, parsed_dfa_to_automaton pdfa = Ok A →
     (∀ q, q ∈ DFA.states A ↔
           ∃ t, t ∈ transitions pdfa ∧
                (q = state_name (src t) ∨ q = state_name (dst t))) ∧
     (∀ q, q ∈ DFA.final_states A ↔
           ∃ n, n ∈ finalnodes pdfa ∧ q = state_name n.1) ∧
     DFA.final_states A ⊆ DFA.states A) ∧
  (∀ pdfa (n : Z * string),
     n ∈ finalnodes pdfa →
     (∀ t, t ∈ transitions pdfa → n.1 ≠ src t ∧ n.1 ≠ dst t) →
     (∃ e, parsed_dfa_to_automaton pdfa = Raise e) ∧
     (readable pdfa → pdfa_symbols (transitions pdfa) ≠ ∅ →
      parsed_dfa_to_automaton pdfa = Raise KeyError) ∧
     (readable pdfa → pdfa_symbols (transitions pdfa) = ∅ →
      size (pdfa_states (transitions pdfa)
              ∖ pdfa_nonstarters (transitions pdfa)) = 1%nat →
      parsed_dfa_to_automaton pdfa = Raise InvalidStateError)).
Proof.
  assert (Hstray : ∀ pdfa (n : Z * string),
            n ∈ finalnodes pdfa →
            (∀ t, t ∈ transitions pdfa → n.1 ≠ src t ∧ n.1 ≠ dst t) →
            ¬ pdfa_finals pdfa ⊆ pdfa_states (transitions pdfa)).
  { intros pdfa n Hin Hn Hsub.
    assert (Hq : state_name n.1 ∈ pdfa_states (transitions pdfa)).
    { apply Hsub, elem_of_pdfa_finals. eauto. }
    apply elem_of_pdfa_states in Hq as (t & Ht & Hq).
    destruct (Hn t Ht) as [Hs Hd].
    destruct Hq as [Hq|Hq]; apply (inj pretty) in Hq; done. }
  split.
  - intros pdfa A (_ & _ & Hsub & -> & _ & -> & _)%builder_Ok.
    split; [|split; [|done]].
    + intros q. apply elem_of_pdfa_states.
    + intros q. apply elem_of_pdfa_finals.
  - intros pdfa n Hin Hn. pose proof (Hstray pdfa n Hin Hn) as Hnsub.
    split; [|split].
    + destruct (parsed_dfa_to_automaton pdfa) as [A|e] eqn:HA; [|eauto].
      by apply builder_Ok in HA as (_ & _ & ? & _).
    + intros Hread Hne. by apply builder_KeyError.
    + intros Hread He H1.
      destruct (builder_cases pdfa)
        as [(? & _)|[(_ & ? & _)|[(_ & _ & ? & _)|[(_ & _ & ? & _)|
            [(_ & _ & _ & Hinc & _)|[(_ & _ & _ & _ & _ & E)|
            (_ & _ & _ & ? & _)]]]]]]; try done; try lia.
      destruct Hinc as (q & s & _ & Hs & _). rewrite He in Hs.
      by apply elem_of_empty in Hs.
Qed.

Lemma states_and_finals_witness :
  ∃ A, parsed_dfa_to_automaton catch_all_first = Ok A ∧
       DFA.final_states A ⊆ DFA.states A.
Proof.
  built catch_all_first A HA.
  exists A. split; [reflexivity|].
  destruct states_and_finals as (Hall & _).
  by destruct (Hall catch_all_first A HA) as (_ & _ & ?).
Defined.

(** ** Equivalence Engine *)

Section compare_facts.
Context {D : Type} {ops : AutomatonOps D}.
Implicit Types (a z d : D).

Lemma report_cases header d :
  op_isempty d = true ∧ report header d = [] ∨
  op_isempty d = false ∧
  report header d = [Echo header; EchoWord (op_successor d)].
Proof. unfold report. destruct (op_isempty d); [by left|by right]. Qed.

Lemma report_no_verdict header d b : PrintEquivalent b ∉ report header d.
Proof.
  destruct (report_cases header d) as [[_ ->]|[_ ->]].
  - apply not_elem_of_nil.
  - intros [?|[?|[]%elem_of_nil]%elem_of_cons]%elem_of_cons; done.
Qed.

Lemma compare_verdict a z b :
  PrintEquivalent b ∈ compare a z → equiv1 a z = b ∧ equiv2 a z = b.
Proof.
  unfold compare. intros [Hin|[Hin|Hin]%elem_of_app]%elem_of_app.
  - by apply report_no_verdict in Hin.
  - by apply report_no_verdict in Hin.
  - destruct (Bool.eqb (equiv1 a z) (equiv2 a z)) eqn:E.
    + apply list_elem_of_singleton in Hin as [= ->].
      split; [done|]. symmetry. by apply Bool.eqb_prop.
    + by apply list_elem_of_singleton in Hin.
Qed.

Lemma report_no_failure header d e : Failed e ∉ report header d.
Proof.
  destruct (report_cases header d) as [[_ ->]|[_ ->]].
  - apply not_elem_of_nil.
  - intros [?|[?|[]%elem_of_nil]%elem_of_cons]%elem_of_cons; done.
Qed.

Lemma compare_cases a z :
  compare a z =
  report header_zad (op_difference z a) ++
  report header_adz (op_difference a z) ++
  [if Bool.eqb (equiv1 a z) (equiv2 a z) then PrintEquivalent (equiv1 a z)
   else Failed AssertionError].
Proof. unfold compare. by destruct (Bool.eqb _ _). Qed.

Lemma compare_ending a z :
  ending_of (compare a z) =
  if Bool.eqb (equiv1 a z) (equiv2 a z) then Returned
  else Raised AssertionError.
Proof.
  rewrite compare_cases. unfold ending_of.
  rewrite app_assoc, last_snoc. by destruct (Bool.eqb _ _).
Qed.

Lemma compare_failure a z e :
  Failed e ∈ compare a z → equiv1 a z ≠ equiv2 a z.
Proof.
  unfold compare. intros [Hin|[Hin|Hin]%elem_of_app]%elem_of_app.
  - by apply report_no_failure in Hin.
  - by apply report_no_failure in Hin.
  - destruct (Bool.eqb (equiv1 a z) (equiv2 a z)) eqn:E.
    + by apply list_elem_of_singleton in Hin.
    + by apply Bool.eqb_false_iff.
Qed.

End compare_facts.

Section engine_facts.
Import Automata.
Implicit Types (a z : automaton) (w u : list Z).

Lemma only_in_difference z a w :
  only_in z a w ↔ accepts (difference z a) w = true.
Proof.
  unfold only_in. rewrite accepts_difference.
  destruct (accepts z w), (accepts a w); naive_solver.
Qed.

(** What [main] reports of a difference. *)
Lemma report_difference header z a :
  report header (difference z a) =
  if isempty (difference z a) then []
  else [Echo header; EchoWord (successor (difference z a))].
Proof. unfold report. simpl. by destruct (isempty _). Qed.

Lemma report_least header z a u :
  u ≠ [] → only_in z a u →
  ∃ w, report header (difference z a) = [Echo header; EchoWord (Some w)] ∧
       least_nonempty (only_in z a) w.
Proof.
  intros Hu Hin%only_in_difference. rewrite report_difference.
  destruct (isempty (difference z a)) eqn:Hempty.
  { rewrite isempty_spec in Hempty. by rewrite Hempty in Hin. }
  pose proof (successor_spec (difference z a)) as Hsucc.
  destruct (successor (difference z a)) as [w|].
  - destruct Hsucc as (Hw & Hne & Hmin). exists w. split; [done|].
    split; [done|]. split; [by apply only_in_difference|].
    intros u' Hu' Hin'%only_in_difference. by apply Hmin.
  - by rewrite (Hsucc u Hu) in Hin.
Qed.

Lemma report_only_empty header z a :
  only_in z a [] → (∀ u, u ≠ [] → ¬ only_in z a u) →
  report header (difference z a) = [Echo header; EchoWord None].
Proof.
  intros Hin%only_in_difference Hnone. rewrite report_difference.
  destruct (isempty (difference z a)) eqn:Hempty.
  { rewrite isempty_spec in Hempty. by rewrite Hempty in Hin. }
  pose proof (successor_spec (difference z a)) as Hsucc.
  destruct (successor (difference z a)) as [w|]; [|done].
  destruct Hsucc as (Hw & Hne & _).
  destruct (Hnone w Hne). by apply only_in_difference.
Qed.

Lemma equiv2_spec a z :
  equiv2 a z = true ↔ ∀ w, accepts a w = accepts z w.
Proof.
  unfold equiv2. simpl. fold (equal a z). apply equal_spec.
Qed.

Lemma equiv1_spec a z :
  equiv1 a z = true ↔ ∀ w, accepts a w = accepts z w.
Proof.
  unfold equiv1. simpl. rewrite andb_true_iff, !equal_spec. split.
  - intros [H1 H2] w. specialize (H1 w). specialize (H2 w).
    rewrite accepts_union in H1, H2.
    destruct (accepts a w), (accepts z w); done.
  - intros Heq. split; intros w; rewrite accepts_union, (Heq w);
      by destruct (accepts z w).
Qed.

End engine_facts.

(** C1, as stated, fails: the second automaton accepts the empty word
    and the first does not, so that the difference is not empty, and
    no word is reported with the header. *)
Lemma shortest_witness_counterexample :
  (a ← parsed_dfa_to_automaton accepts_nothing;
   z ← parsed_dfa_to_automaton accepts_empty_word;
   Ok (Automata.accepts (Automata.of_DFA z) []
       && negb (Automata.accepts (Automata.of_DFA a) []),
       compare (Automata.of_DFA a) (Automata.of_DFA z)))
  = Ok (true, [Echo header_zad; EchoWord None; PrintEquivalent false]).
Proof. vm_compute. reflexivity. Qed.

(** C1, amended: [main] prints the report of the words only [z]
    accepts, the report of the words only [a] accepts and the verdict.
    When some non-empty word is accepted by [z] only, the first report
    is the header and the first such word, shorter words first and
    words of one length in lexicographic order; the same holds of the
    second report and the words accepted by [a] only.  When the empty
    word is the only word accepted by [z] only, the header is printed
    with no word. *)
Theorem witness_is_least (a z : Automata.automaton) :
  (∃ verdict,
     compare a z =
     report header_zad (Automata.difference z a) ++
     report header_adz (Automata.difference a z) ++ [verdict]) ∧
  (∀ u, u ≠ [] → only_in z a u →
     ∃ w, report header_zad (Automata.difference z a)
          = [Echo header_zad; EchoWord (Some w)] ∧
          least_nonempty (only_in z a) w) ∧
  (∀ u, u ≠ [] → only_in a z u →
     ∃ w, report header_adz (Automata.difference a z)
          = [Echo header_adz; EchoWord (Some w)] ∧
          least_nonempty (only_in a z) w) ∧
  (only_in z a [] → (∀ u, u ≠ [] → ¬ only_in z a u) →
     report header_zad (Automata.difference z a)
     = [Echo header_zad; EchoWord None]).
Proof.
  split; [|split; [|split]].
  - unfold compare. simpl. by destruct (Bool.eqb _ _); eexists.
  - intros u. apply report_least.
  - intros u. apply report_least.
  - apply report_only_empty.
Qed.

Lemma witness_is_least_witness :
  ∃ w, report header_zad
         (Automata.difference (Automata.of_DFA dfa_some_a)
                              (Automata.of_DFA dfa_none))
       = [Echo header_zad; EchoWord (Some w)] ∧
       least_nonempty (only_in (Automata.of_DFA dfa_some_a)
                               (Automata.of_DFA dfa_none)) w.
Proof.
  destruct (witness_is_least (Automata.of_DFA dfa_none)
              (Automata.of_DFA dfa_some_a)) as (_ & Hzad & _).
  apply (Hzad [97]); [discriminate|].
  split; vm_compute; reflexivity.
Defined.

(** C5: for all automata the verdict from the emptiness of the two
    differences is the verdict from the two unions, and [main] ends by
    printing it after the two reports, also for the automata the
    builder returns.  With any algebra at all: when the two verdicts
    differ, [main] prints the two reports and ends with the failed
    assertion, without a verdict; when they agree, it prints the two
    reports and the verdict and returns. *)
Theorem equivalence_cross_check :
  (∀ a z : Automata.automaton,
     equiv1 a z = equiv2 a z ∧
     compare a z =
     report header_zad (Automata.difference z a) ++
     report header_adz (Automata.difference a z) ++
     [PrintEquivalent (equiv2 a z)]) ∧
  (∀ pa pz evs, main_compare [pa; pz] = Ok evs →
     ∃ A B,
       parsed_dfa_to_automaton pa = Ok A ∧
       parsed_dfa_to_automaton pz = Ok B ∧
       evs = compare (Automata.of_DFA A) (Automata.of_DFA B) ∧
       last evs = Some (PrintEquivalent
                          (equiv2 (Automata.of_DFA A) (Automata.of_DFA B))) ∧
       ending_of evs = Returned) ∧
  (∀ D (ops : AutomatonOps D) (a z : D),
     equiv1 a z ≠ equiv2 a z →
     compare a z =
     report header_zad (op_difference z a) ++
     report header_adz (op_difference a z) ++ [Failed AssertionError] ∧
     (∀ b, PrintEquivalent b ∉ compare a z) ∧
     ending_of (compare a z) = Raised AssertionError) ∧
  (∀ D (ops : AutomatonOps D) (a z : D),
     equiv1 a z = equiv2 a z →
     compare a z =
     report header_zad (op_difference z a) ++
     report header_adz (op_difference a z) ++
     [PrintEquivalent (equiv1 a z)] ∧
     (∀ e, Failed e ∉ compare a z) ∧
     ending_of (compare a z) = Returned).
Proof.
  assert (Hagree : ∀ a z : Automata.automaton, equiv1 a z = equiv2 a z).
  { intros a z. apply eq_true_iff_eq.
    by rewrite equiv1_spec, equiv2_spec. }
  assert (Hsame : ∀ D (ops : AutomatonOps D) (a z : D),
            equiv1 a z = equiv2 a z →
            compare a z =
            report header_zad (op_difference z a) ++
            report header_adz (op_difference a z) ++
            [PrintEquivalent (equiv1 a z)] ∧
            (∀ e, Failed e ∉ compare a z) ∧
            ending_of (compare a z) = Returned).
  { intros D ops a z Heq. split; [|split].
    - rewrite compare_cases.
      by rewrite (proj2 (Bool.eqb_true_iff _ _) Heq).
    - intros e He. by apply compare_failure in He.
    - rewrite compare_ending.
      by rewrite (proj2 (Bool.eqb_true_iff _ _) Heq). }
  split; [|split; [|split]].
  - intros a z. split; [done|]. rewrite <- Hagree.
    by destruct (Hsame _ _ a z (Hagree a z)) as (? & _).
  - intros pa pz evs Hmain. unfold main_compare in Hmain.
    destruct (parsed_dfa_to_automaton pa) as [A|]; [|done].
    destruct (parsed_dfa_to_automaton pz) as [B|]; [|done].
    simpl in Hmain. injection Hmain as <-.
    destruct (Hsame _ _ (Automata.of_DFA A) (Automata.of_DFA B)
                (Hagree _ _)) as (Hc & _ & Hend).
    exists A, B. split; [done|]. split; [done|]. split; [done|].
    split; [|done].
    rewrite Hc, app_assoc, last_snoc. by rewrite Hagree.
  - intros D ops a z Hne. split; [|split].
    + rewrite compare_cases.
      by rewrite (proj2 (Bool.eqb_false_iff _ _) Hne).
    + intros b [H1 H2]%compare_verdict. congruence.
    + rewrite compare_ending.
      by rewrite (proj2 (Bool.eqb_false_iff _ _) Hne).
  - exact Hsame.
Qed.

Lemma equivalence_cross_check_witness :
  @compare unit broken_ops tt tt = [Failed AssertionError] ∧
  ending_of (@compare unit broken_ops tt tt) = Raised AssertionError.
Proof.
  destruct equivalence_cross_check as (_ & _ & Hfail & _).
  destruct (Hfail unit broken_ops tt tt) as (Hc & _ & Hend).
  - discriminate.
  - split; [exact Hc|exact Hend].
Defined.

(** * Further properties *)

(** ** The two patterns *)

Section pattern_facts.
Implicit Types (s r piece : string) (c : ascii) (x : ascii → bool).

Lemma bind_all_nil {A B} (k : A → list B) (l : list A) :
  (∀ y, y ∈ l → k y = []) → l ≫= k = [].
Proof.
  induction l as [|y l IH]; intros Hk; [done|].
  rewrite bind_cons, (Hk y), IH; [done| |apply elem_of_cons; by left].
  intros y' Hy'. apply Hk, elem_of_cons. by right.
Qed.

(** Only the first way of a piece counts when the others lead
    nowhere. *)
Lemma bind_first {A B} (k : A → list B) (y : A) (l : list A) :
  (∀ y', y' ∈ l → k y' = []) → (y :: l) ≫= k = k y.
Proof.
  intros Hk. by rewrite bind_cons, (bind_all_nil k l Hk), (right_id_L [] (++)).
Qed.

Lemma lit_after piece s : Re.lit piece s = option_list (after piece s).
Proof.
  revert s. induction piece as [|c piece IH]; intros s; [done|].
  destruct s as [|d s]; [done|]. simpl. by destruct (Ascii.eqb c d).
Qed.

Lemma after_starts c piece s x :
  starts_with x s = true → (∀ d, x d = true → Ascii.eqb c d = false) →
  after (String c piece) s = None.
Proof.
  destruct s as [|d s]; [done|]. simpl. intros Hd Hx. by rewrite (Hx d Hd).
Qed.

(** The ways of [x*]: the longest first, and every other way stops
    before a character of [x]. *)
Lemma star_span x s :
  ∃ l, Re.star x s = span x s :: l ∧
       ∀ m, m ∈ l → starts_with x m.2 = true.
Proof.
  induction s as [|c s (l & IH & Hl)]; simpl.
  - exists []. split; [done|]. by intros m ?%elem_of_nil.
  - destruct (x c) eqn:Hc.
    + exists ((prod_map (String c) id <$> l) ++ [("", String c s)]).
      rewrite IH. split; [by destruct (span x s)|].
      intros m [Hm|Hm]%elem_of_app.
      * apply list_elem_of_fmap in Hm as ([m1 m2] & -> & Hm). simpl.
        apply (Hl _ Hm).
      * apply list_elem_of_singleton in Hm as ->. done.
    + exists []. split; [done|]. by intros m ?%elem_of_nil.
Qed.

Lemma plus_span x s :
  (span x s).1 = "" ∧ Re.plus x s = [] ∨
  (span x s).1 ≠ "" ∧
  ∃ l, Re.plus x s = span x s :: l ∧ ∀ m, m ∈ l → starts_with x m.2 = true.
Proof.
  destruct s as [|c s]; simpl; [by left|].
  destruct (x c) eqn:Hc; [right|by left]. split; [done|].
  destruct (star_span x s) as (l & -> & Hl).
  exists (prod_map (String c) id <$> l). split; [by destruct (span x s)|].
  intros m ([m1 m2] & -> & Hm)%list_elem_of_fmap. simpl. apply (Hl _ Hm).
Qed.

Lemma span_stops x s : starts_with x (span x s).2 = false.
Proof.
  induction s as [|c s IH]; simpl; [done|].
  destruct (x c) eqn:Hc; simpl; [done|]. exact Hc.
Qed.

Lemma span_all x s : all_of x (span x s).1 = true.
Proof.
  induction s as [|c s IH]; simpl; [done|].
  destruct (x c) eqn:Hc; simpl; [|done]. by rewrite Hc.
Qed.

Lemma span_append x s : (span x s).1 +:+ (span x s).2 = s.
Proof.
  induction s as [|c s IH]; simpl; [done|].
  destruct (x c); simpl; [|done]. by rewrite append_cons, IH.
Qed.

(** A run of characters of [x] before a text that does not start with
    one is what [span] takes. *)
Lemma span_run x s r :
  all_of x s = true → starts_with x r = false → span x (s +:+ r) = (s, r).
Proof.
  intros Hs Hr. induction s as [|c s IH].
  - rewrite append_nil_l. destruct r as [|d r]; [done|].
    simpl in *. by rewrite Hr.
  - rewrite append_cons. simpl in *.
    apply andb_true_iff in Hs as [-> Hs]. by rewrite (IH Hs).
Qed.

Lemma digit_chars :
  forall_ascii (fun c =>
    if Str.isdigit c
    then negb (Str.isspace c) && negb (Ascii.eqb "-" c)
    else true) = true.
Proof. vm_compute. reflexivity. Qed.

Lemma space_chars :
  forall_ascii (fun c =>
    if Str.isspace c
    then negb (Str.isdigit c) && negb (Ascii.eqb "-" c)
         && negb (Ascii.eqb "[" c) && negb (Ascii.eqb "}" c)
    else true) = true.
Proof. vm_compute. reflexivity. Qed.

Lemma digit_not_space c : Str.isdigit c = true → Str.isspace c = false.
Proof.
  intros Hc. pose proof (forall_ascii_spec _ digit_chars c) as H.
  cbv beta in H. rewrite Hc in H. by destruct (Str.isspace c).
Qed.

Lemma digit_not_dash c : Str.isdigit c = true → Ascii.eqb "-" c = false.
Proof.
  intros Hc. pose proof (forall_ascii_spec _ digit_chars c) as H.
  cbv beta in H. rewrite Hc in H.
  by destruct (Str.isspace c), (Ascii.eqb "-" c).
Qed.

Lemma space_not c :
  Str.isspace c = true →
  Str.isdigit c = false ∧ Ascii.eqb "-" c = false ∧
  Ascii.eqb "[" c = false ∧ Ascii.eqb "}" c = false.
Proof.
  intros Hc. pose proof (forall_ascii_spec _ space_chars c) as H.
  cbv beta in H. rewrite Hc in H.
  by destruct (Str.isdigit c), (Ascii.eqb "-" c), (Ascii.eqb "[" c),
       (Ascii.eqb "}" c).
Qed.

End pattern_facts.
Section pattern_greedy.
Implicit Types (s r piece : string) (c : ascii) (x : ascii → bool).

Lemma bind_option_list {A B} (k : A → list B) (o : option A) :
  option_list o ≫= k = match o with Some y => k y | None => [] end.
Proof.
  destruct o as [y|]; [|done]. simpl. apply (right_id_L [] (++)).
Qed.

Lemma not_quote_not c : Re.not_quote c = true → Ascii.eqb Re.quote c = false.
Proof.
  unfold Re.not_quote. rewrite (Ascii.eqb_sym c). by destruct (Ascii.eqb Re.quote c).
Qed.

Lemma label_attr_one s : Re.label_attr s = option_list (label_attr_greedy s).
Proof.
  unfold Re.label_attr, label_attr_greedy.
  destruct (star_span Str.isspace s) as (l & -> & Hl).
  rewrite bind_first.
  2:{ intros [m r] Hm. rewrite lit_after.
      rewrite (after_starts _ _ _ Str.isspace (Hl _ Hm)); [done|].
      intros d Hd. by apply space_not in Hd as (_ & _ & ? & _). }
  destruct (span Str.isspace s) as [m r]. cbn [snd].
  rewrite lit_after, bind_option_list.
  destruct (after "[label=" r) as [r1|]; [|done]. cbn [mbind option_bind].
  rewrite lit_after, bind_option_list.
  destruct (after (String Re.quote "") r1) as [r2|]; [|done].
  cbn [mbind option_bind].
  destruct (plus_span Re.not_quote r2) as [[E ->]|[NE (l' & -> & Hl')]].
  - by rewrite decide_True.
  - rewrite decide_False by done. rewrite bind_first.
    2:{ intros [m' r'] Hm. rewrite lit_after.
        rewrite (after_starts _ _ _ Re.not_quote (Hl' _ Hm)); [done|].
        apply not_quote_not. }
    destruct (span Re.not_quote r2) as [label r3]. cbn [fst snd].
    rewrite lit_after, bind_option_list.
    destruct (after (String Re.quote "") r3) as [r4|]; [|done].
    cbn [mbind option_bind].
    rewrite lit_after, bind_option_list.
    by destruct (after "]" r4).
Qed.

Lemma star_stops x s : starts_with x s = false → Re.star x s = [("", s)].
Proof. destruct s as [|c s]; [done|]. simpl. by intros ->. Qed.

Lemma bind_one {A B} (k : A → list B) (y : A) : [y] ≫= k = k y.
Proof. apply bind_first. by intros ? ?%elem_of_nil. Qed.

Lemma starts_with_digit_not_space s :
  starts_with Str.isdigit s = true → starts_with Str.isspace s = false.
Proof. destruct s as [|c s]; [done|]. apply digit_not_space. Qed.

Lemma starts_with_space_not_digit s :
  starts_with Str.isspace s = true → starts_with Str.isdigit s = false.
Proof.
  destruct s as [|c s]; [done|]. simpl. by intros (? & _)%space_not.
Qed.

Lemma plus_stops x s : starts_with x s = false → Re.plus x s = [].
Proof. destruct s as [|c s]; [done|]. simpl. by intros ->. Qed.

Lemma edge_pattern_greedy line : Re.edge_pattern line = edge_greedy line.
Proof.
  unfold Re.edge_pattern, Re.edge_matches, edge_greedy.
  destruct (plus_span Str.isdigit line) as [[E ->]|[NE (l & -> & Hl)]].
  { by rewrite decide_True. }
  rewrite decide_False by done. rewrite bind_first.
  2:{ intros [m r] Hm. pose proof (Hl _ Hm) as Hr. cbn [snd] in Hr.
      rewrite (star_stops _ _ (starts_with_digit_not_space _ Hr)), bind_one.
      rewrite lit_after, (after_starts _ _ _ Str.isdigit Hr); [done|].
      apply digit_not_dash. }
  destruct (span Str.isdigit line) as [src r]. cbn [fst snd].
  destruct (star_span Str.isspace r) as (l1 & -> & Hl1).
  rewrite bind_first.
  2:{ intros [m r'] Hm. rewrite lit_after.
      rewrite (after_starts _ _ _ Str.isspace (Hl1 _ Hm)); [done|].
      intros d Hd. by apply space_not in Hd as (_ & ? & _). }
  destruct (span Str.isspace r) as [m1 r1]. cbn [snd].
  rewrite lit_after, bind_option_list.
  destruct (after "->" r1) as [r2|]; [|done]. cbn [mbind option_bind].
  destruct (star_span Str.isspace r2) as (l2 & -> & Hl2).
  rewrite bind_first.
  2:{ intros [m r'] Hm. pose proof (Hl2 _ Hm) as Hr. cbn [snd] in Hr.
      by rewrite (plus_stops _ _ (starts_with_space_not_digit _ Hr)). }
  destruct (span Str.isspace r2) as [m2 r3]. cbn [snd].
  destruct (plus_span Str.isdigit r3) as [[E ->]|[NE' (l3 & -> & Hl3)]].
  { by rewrite decide_True. }
  rewrite decide_False by done. rewrite bind_cons.
  destruct (span Str.isdigit r3) as [dst r4]. cbn [fst snd].
  unfold Re.opt. rewrite label_attr_one.
  by destruct (label_attr_greedy r4).
Qed.

Lemma node_pattern_greedy line : Re.node_pattern line = node_greedy line.
Proof.
  unfold Re.node_pattern, Re.node_matches, node_greedy.
  destruct (plus_span Str.isdigit line) as [[E ->]|[NE (l & -> & Hl)]].
  { by rewrite decide_True. }
  rewrite decide_False by done. rewrite bind_first.
  2:{ intros [m r] Hm. pose proof (Hl _ Hm) as Hr. cbn [snd] in Hr.
      rewrite label_attr_one. unfold label_attr_greedy.
      destruct r as [|d r]; [done|]. cbn [starts_with] in Hr.
      cbn [span]. rewrite (digit_not_space d Hr). cbn [snd after].
      destruct (Ascii.eqb_spec "[" d) as [<-|_]; [done|done]. }
  destruct (span Str.isdigit line) as [node_id r]. cbn [fst snd].
  rewrite label_attr_one. by destruct (label_attr_greedy r).
Qed.

End pattern_greedy.

(** ** The lines of a graph *)

Section parser_facts.
Implicit Types (lines block rest : list string) (l line s t : string).
Implicit Types (acc : list Transition * list (Z * string)).
Implicit Types (x y : ascii → bool).

Lemma first_block_None lines acc :
  first_block lines = None →
  parse_re2c_graph_loop lines acc =
  (_ ← for_each parse_line (Str.strip_ws <$> lines) acc; Ok (None, [])).
Proof.
  revert acc. induction lines as [|l lines IH]; intros acc; [done|].
  cbn [first_block parse_re2c_graph_loop fmap list_fmap for_each].
  unfold closing. case_bool_decide as Hl; [done|].
  rewrite decide_False by done.
  destruct (first_block lines) as [[b r]|]; [done|]. intros _.
  destruct (parse_line acc (Str.strip_ws l)) as [acc'|e]; [|done].
  apply (IH acc' eq_refl).
Qed.

Lemma first_block_Some lines block rest acc :
  first_block lines = Some (block, rest) →
  parse_re2c_graph_loop lines acc =
  (acc' ← for_each parse_line (Str.strip_ws <$> block) acc;
   Ok (Some (mkParsedDFA acc'.1 acc'.2), rest)).
Proof.
  revert acc block. induction lines as [|l lines IH]; intros acc block; [done|].
  cbn [first_block parse_re2c_graph_loop].
  unfold closing. case_bool_decide as Hl.
  - rewrite decide_True by done. by intros [= <- <-].
  - rewrite decide_False by done.
    destruct (first_block lines) as [[b r]|]; [|done]. intros [= <- <-].
    cbn [fmap list_fmap for_each].
    destruct (parse_line acc (Str.strip_ws l)) as [acc'|e]; [|done].
    apply (IH acc' b eq_refl).
Qed.

Lemma first_block_shorter lines block rest :
  first_block lines = Some (block, rest) → (length rest < length lines)%nat.
Proof.
  revert block. induction lines as [|l lines IH]; intros block; [done|].
  cbn [first_block]. destruct (closing l).
  - intros [= <- <-]. simpl. lia.
  - destruct (first_block lines) as [[b r]|]; [|done]. intros [= <- <-].
    specialize (IH b eq_refl). simpl. lia.
Qed.

Lemma blocks_first_None lines :
  first_block lines = None → blocks lines = ([], lines).
Proof.
  induction lines as [|l lines IH]; [done|]. cbn [first_block blocks].
  destruct (closing l); [done|].
  destruct (first_block lines) as [[b r]|]; [done|]. intros _.
  by rewrite (IH eq_refl).
Qed.

Lemma blocks_first_Some lines block rest :
  first_block lines = Some (block, rest) →
  blocks lines = (block :: (blocks rest).1, (blocks rest).2).
Proof.
  revert block. induction lines as [|l lines IH]; intros block; [done|].
  cbn [first_block blocks]. destruct (closing l).
  - by intros [= <- <-].
  - destruct (first_block lines) as [[b r]|]; [|done]. intros [= <- <-].
    by rewrite (IH b eq_refl).
Qed.

(** The loop over the graphs ends before the fuel does, with the
    graphs of the blocks. *)
Lemma graphs_loop fuel lines dfas :
  (length lines < fuel)%nat →
  parse_re2c_graphs_loop fuel lines dfas =
  Some (ds ← for_each add_graph (blocks lines).1 dfas;
        _ ← graph_of_block (blocks lines).2;
        Ok ds).
Proof.
  revert lines dfas. induction fuel as [|fuel IH]; intros lines dfas Hlen; [lia|].
  cbn [parse_re2c_graphs_loop]. unfold parse_re2c_graph.
  destruct (first_block lines) as [[block rest]|] eqn:Hfb.
  - rewrite (first_block_Some _ _ _ _ Hfb), (blocks_first_Some _ _ _ Hfb).
    cbn [fst snd for_each].
    destruct (for_each parse_line (Str.strip_ws <$> block) ([], []))
      as [acc'|e] eqn:Hb.
    + assert (add_graph dfas block
              = Ok (dfas ++ [mkParsedDFA acc'.1 acc'.2])) as ->.
      { unfold add_graph, graph_of_block. by rewrite Hb. }
      cbn [mbind res_bind]. apply IH.
      apply first_block_shorter in Hfb. lia.
    + assert (add_graph dfas block = Raise e) as ->.
      { unfold add_graph, graph_of_block. by rewrite Hb. }
      done.
  - rewrite (first_block_None _ _ Hfb), (blocks_first_None _ Hfb).
    cbn [fst snd for_each]. unfold graph_of_block.
    by destruct (for_each parse_line (Str.strip_ws <$> lines) ([], [])).
Qed.

Lemma add_graphs_length (bs : list (list string)) (dfas ds : list ParsedDFA) :
  for_each add_graph bs dfas = Ok ds →
  length ds = (length dfas + length bs)%nat.
Proof.
  revert dfas. induction bs as [|b bs IH]; intros dfas.
  - intros [= <-]. simpl. lia.
  - cbn [for_each].
    destruct (add_graph dfas b) as [dfas'|e] eqn:Hb; [|done].
    cbn [mbind res_bind]. intros ->%IH.
    unfold add_graph in Hb. destruct (graph_of_block b) as [d|e]; [|done].
    injection Hb as <-. rewrite length_app. simpl. lia.
Qed.

Lemma blocks_length lines :
  length (blocks lines).1 = length (filter (fun l => closing l = true) lines).
Proof.
  induction lines as [|l lines IH]; [done|]. cbn [blocks].
  rewrite filter_cons. destruct (closing l) eqn:Hl.
  - rewrite decide_True by done. simpl. by rewrite IH.
  - rewrite decide_False by done. rewrite <- IH.
    by destruct (blocks lines).1.
Qed.

End parser_facts.

(** ** The lines that are read *)

Section line_facts.
Implicit Types (line s t r w a b label : string) (c d : ascii).
Implicit Types (acc : list Transition * list (Z * string)).
Implicit Types (x y : ascii → bool).

Lemma span_none x s : starts_with x s = false → span x s = ("", s).
Proof. destruct s as [|c s]; [done|]. simpl. by intros ->. Qed.

Lemma after_append piece s : after piece (piece +:+ s) = Some s.
Proof.
  induction piece as [|c piece IH]; [done|]. rewrite append_cons. simpl.
  by rewrite Ascii.eqb_refl.
Qed.

Lemma starts_with_append x y s t :
  all_of y s = true → (∀ c, y c = true → x c = false) →
  starts_with x t = false → starts_with x (s +:+ t) = false.
Proof.
  intros Hs Hy Ht. destruct s as [|c s]; [done|]. rewrite append_cons.
  simpl in *. apply andb_true_iff in Hs as [Hc _]. by apply Hy.
Qed.

Lemma starts_with_all x s t :
  all_of x s = true → s ≠ "" → starts_with x (s +:+ t) = true.
Proof.
  destruct s as [|c s]; [done|]. rewrite append_cons. simpl.
  by intros [Hc _]%andb_true_iff _.
Qed.

Lemma digit_skip_chars :
  forall_ascii (fun c =>
    if Str.isdigit c
    then negb (Ascii.eqb "d" c) && negb (Ascii.eqb "/" c)
         && negb (Ascii.eqb "}" c)
    else true) = true.
Proof. vm_compute. reflexivity. Qed.

(** A line that starts with a digit is not skipped. *)
Lemma digit_line_read line :
  starts_with Str.isdigit line = true →
  Str.startswith line "digraph" || Str.startswith line "//"
  || Str.startswith line "/*" || bool_decide (line = "") = false.
Proof.
  destruct line as [|c line]; [done|]. cbn [starts_with]. intros Hc.
  pose proof (forall_ascii_spec _ digit_skip_chars c) as H.
  cbv beta in H. rewrite Hc in H.
  unfold Str.startswith. cbn [String.prefix].
  destruct (ascii_dec "d" c) as [<-|_]; [done|].
  destruct (ascii_dec "/" c) as [<-|_]; [done|].
  by rewrite bool_decide_eq_false_2.
Qed.

(** The pattern of an edge on the text of an edge line, whatever the
    white space and whatever follows the label. *)
Lemma edge_greedy_text a w1 w2 b w3 label r :
  a ≠ "" → all_of Str.isdigit a = true →
  b ≠ "" → all_of Str.isdigit b = true →
  all_of Str.isspace w1 = true → all_of Str.isspace w2 = true →
  all_of Str.isspace w3 = true →
  label ≠ "" → all_of Re.not_quote label = true →
  edge_greedy
    (a +:+ w1 +:+ "->" +:+ w2 +:+ b +:+ w3 +:+ "[label="
       +:+ String Re.quote label +:+ String Re.quote "]" +:+ r)
  = Some (a, b, Some label).
Proof.
  intros Ha Hda Hb Hdb Hw1 Hw2 Hw3 Hl Hql. unfold edge_greedy.
  rewrite (span_run Str.isdigit a).
  2: done.
  2:{ apply (starts_with_append _ Str.isspace); [done| |done].
      by intros c (? & _)%space_not. }
  cbn [fst snd]. rewrite decide_False by done.
  rewrite (span_run Str.isspace w1); [|done|done]. cbn [snd].
  rewrite after_append. cbn [mbind option_bind].
  rewrite (span_run Str.isspace w2).
  2: done.
  2:{ destruct b as [|c b]; [done|]. rewrite append_cons. simpl in *.
      apply andb_true_iff in Hdb as [Hc _]. by apply digit_not_space. }
  cbn [snd].
  rewrite (span_run Str.isdigit b).
  2: done.
  2:{ apply (starts_with_append _ Str.isspace); [done| |done].
      by intros c (? & _)%space_not. }
  cbn [fst snd]. rewrite decide_False by done.
  unfold label_attr_greedy.
  rewrite (span_run Str.isspace w3); [|done|done]. cbn [snd].
  rewrite after_append. cbn [mbind option_bind].
  rewrite !append_cons. cbn [after]. rewrite Ascii.eqb_refl.
  cbn [mbind option_bind].
  rewrite (span_run Re.not_quote label); [|done|done].
  cbn [fst snd]. rewrite decide_False by done.
  rewrite Ascii.eqb_refl. cbn [mbind option_bind].
  done.
Qed.

(** The pattern of an edge on a line without attribute. *)
Lemma edge_greedy_bare a w1 w2 b :
  a ≠ "" → all_of Str.isdigit a = true →
  b ≠ "" → all_of Str.isdigit b = true →
  all_of Str.isspace w1 = true → all_of Str.isspace w2 = true →
  edge_greedy (a +:+ w1 +:+ "->" +:+ w2 +:+ b) = Some (a, b, None).
Proof.
  intros Ha Hda Hb Hdb Hw1 Hw2.
  rewrite <- (append_nil_r b). unfold edge_greedy.
  rewrite (span_run Str.isdigit a).
  2: done.
  2:{ apply (starts_with_append _ Str.isspace); [done| |done].
      by intros c (? & _)%space_not. }
  cbn [fst snd]. rewrite decide_False by done.
  rewrite (span_run Str.isspace w1); [|done|done]. cbn [snd].
  rewrite after_append. cbn [mbind option_bind].
  rewrite (span_run Str.isspace w2).
  2: done.
  2:{ destruct b as [|c b]; [done|]. rewrite append_cons. simpl in *.
      apply andb_true_iff in Hdb as [Hc _]. by apply digit_not_space. }
  cbn [snd]. rewrite (span_run Str.isdigit b); [|done|done].
  cbn [fst snd]. rewrite decide_False by done.
  by rewrite append_nil_r.
Qed.

Lemma node_greedy_text a w label r :
  a ≠ "" → all_of Str.isdigit a = true → all_of Str.isspace w = true →
  label ≠ "" → all_of Re.not_quote label = true →
  node_greedy
    (a +:+ w +:+ "[label=" +:+ String Re.quote label
       +:+ String Re.quote "]" +:+ r)
  = Some (a, label).
Proof.
  intros Ha Hda Hw Hl Hql. unfold node_greedy.
  rewrite (span_run Str.isdigit a).
  2: done.
  2:{ apply (starts_with_append _ Str.isspace); [done| |done].
      by intros c (? & _)%space_not. }
  cbn [fst snd]. rewrite decide_False by done.
  unfold label_attr_greedy.
  rewrite (span_run Str.isspace w); [|done|done]. cbn [snd].
  rewrite after_append. cbn [mbind option_bind].
  rewrite !append_cons. cbn [after]. rewrite Ascii.eqb_refl.
  cbn [mbind option_bind].
  rewrite (span_run Re.not_quote label); [|done|done].
  cbn [fst snd]. rewrite decide_False by done.
  rewrite Ascii.eqb_refl. cbn [mbind option_bind].
  done.
Qed.

(** The text of a node line does not match the pattern of an edge. *)
Lemma node_text_no_edge a w r :
  all_of Str.isdigit a = true → all_of Str.isspace w = true →
  edge_greedy (a +:+ w +:+ String "[" r) = None.
Proof.
  intros Hda Hw. unfold edge_greedy.
  rewrite (span_run Str.isdigit a).
  2: done.
  2:{ apply (starts_with_append _ Str.isspace); [done| |done].
      by intros c (? & _)%space_not. }
  cbn [fst snd]. destruct (decide (a = "")); [done|].
  by rewrite (span_run Str.isspace w).
Qed.

Lemma int10_number s : number s → Str.int10 s = Ok (Str.dec_digits 0 s).
Proof.
  intros (_ & _ & Hlen). unfold Str.int10.
  destruct (Z.ltb_spec 4300 (Z.of_nat (String.length s))); [lia|done].
Qed.

End line_facts.

(** ** Graph Parser: what a line adds *)

(** X1: matching either pattern never goes back on a choice: the
    first match of the backtracking matcher is the one found by
    reading the line once from left to right, every run of digits, of
    white space and of label characters taken whole, and the label
    attribute of an edge taken only when all of it is there. *)
Theorem patterns_one_pass (line : string) :
  Re.edge_pattern line = edge_greedy line ∧
  Re.node_pattern line = node_greedy line.
Proof.
  split; [apply edge_pattern_greedy|apply node_pattern_greedy].
Qed.

(** X2: an edge line is read back as it was written: the two numbers
    with any white space around the arrow give the source and the
    destination, a label attribute with a non-empty label free of
    double quotes gives the character set of the label whatever
    follows the attribute, and the line without attribute gives the
    empty set. *)
Theorem edge_line_read ts fs (a w1 w2 b w3 label r : string) :
  number a → number b →
  all_of Str.isspace w1 = true → all_of Str.isspace w2 = true →
  all_of Str.isspace w3 = true →
  label ≠ "" → all_of Re.not_quote label = true →
  parse_line (ts, fs)
    (a +:+ w1 +:+ "->" +:+ w2 +:+ b +:+ w3 +:+ "[label="
       +:+ String Re.quote label +:+ String Re.quote "]" +:+ r)
  = (t ← edge_transition (Str.dec_digits 0 a) (Str.dec_digits 0 b) (Some label);
     Ok (ts ++ [t], fs)) ∧
  parse_line (ts, fs) (a +:+ w1 +:+ "->" +:+ w2 +:+ b)
  = Ok (ts ++ [mkTransition (Str.dec_digits 0 a) (Str.dec_digits 0 b) ∅], fs).
Proof.
  intros Ha Hb Hw1 Hw2 Hw3 Hl Hql.
  pose proof Ha as (Hna & Hda & _). pose proof Hb as (Hnb & Hdb & _).
  unfold parse_line. split.
  - rewrite digit_line_read by (by apply starts_with_all).
    rewrite edge_pattern_greedy, edge_greedy_text by done.
    rewrite (int10_number a Ha), (int10_number b Hb). done.
  - rewrite digit_line_read by (by apply starts_with_all).
    rewrite edge_pattern_greedy, edge_greedy_bare by done.
    rewrite (int10_number a Ha), (int10_number b Hb). done.
Qed.

Lemma edge_line_read_witness :
  parse_line ([], [])
    ("12" +:+ " " +:+ "->" +:+ " " +:+ "7" +:+ " " +:+ "[label="
       +:+ String Re.quote "[a-c]" +:+ String Re.quote "]" +:+ ";")
  = (t ← edge_transition (Str.dec_digits 0 "12") (Str.dec_digits 0 "7")
           (Some "[a-c]");
     Ok ([] ++ [t], [])).
Proof.
  refine (proj1 (edge_line_read [] [] "12" " " " " "7" " " "[a-c]" ";"
                   _ _ _ _ _ _ _)).
  - unfold number. split; [done|]. split; [reflexivity|]. simpl. lia.
  - unfold number. split; [done|]. split; [reflexivity|]. simpl. lia.
  - reflexivity.
  - reflexivity.
  - reflexivity.
  - done.
  - reflexivity.
Defined.

(** X3: a node line adds the number and the label to the accepting
    nodes and no transition, whatever follows the attribute. *)
Theorem node_line_read ts fs (a w label r : string) :
  number a → all_of Str.isspace w = true →
  label ≠ "" → all_of Re.not_quote label = true →
  parse_line (ts, fs)
    (a +:+ w +:+ "[label=" +:+ String Re.quote label
       +:+ String Re.quote "]" +:+ r)
  = Ok (ts, fs ++ [(Str.dec_digits 0 a, label)]).
Proof.
  intros Ha Hw Hl Hql. pose proof Ha as (Hna & Hda & _).
  unfold parse_line.
  rewrite digit_line_read by (by apply starts_with_all).
  rewrite edge_pattern_greedy.
  change ("[label=" +:+ String Re.quote label +:+ String Re.quote "]" +:+ r)
    with (String "[" ("label=" +:+ String Re.quote label
                        +:+ String Re.quote "]" +:+ r)).
  rewrite node_text_no_edge by done.
  change (String "[" ("label=" +:+ String Re.quote label
                        +:+ String Re.quote "]" +:+ r))
    with ("[label=" +:+ String Re.quote label +:+ String Re.quote "]" +:+ r).
  rewrite node_pattern_greedy, node_greedy_text by done.
  by rewrite (int10_number a Ha).
Qed.

Lemma node_line_read_witness :
  parse_line ([], [])
    ("3" +:+ " " +:+ "[label=" +:+ String Re.quote "lexer.re:12"
       +:+ String Re.quote "]" +:+ "")
  = Ok ([], [] ++ [(Str.dec_digits 0 "3", "lexer.re:12")]).
Proof.
  refine (node_line_read [] [] "3" " " "lexer.re:12" "" _ _ _ _).
  - unfold number. split; [done|]. split; [reflexivity|]. simpl. lia.
  - reflexivity.
  - done.
  - reflexivity.
Defined.

(** X4: a line that does not start with a digit adds nothing and
    raises nothing, whether it is a comment, a declaration or any
    other text. *)
Theorem other_line_ignored acc (line : string) :
  starts_with Str.isdigit line = false → parse_line acc line = Ok acc.
Proof.
  intros Hline. destruct acc as [ts fs]. unfold parse_line.
  destruct (_ || _); [done|].
  rewrite edge_pattern_greedy, node_pattern_greedy.
  unfold edge_greedy, node_greedy. rewrite (span_none _ _ Hline).
  cbn [fst]. by rewrite decide_True.
Qed.

Lemma other_line_ignored_witness :
  parse_line ([], []) "rankdir=LR" = Ok ([], []).
Proof. apply (other_line_ignored ([], []) "rankdir=LR"). reflexivity. Defined.

(** ** Graph Parser: the graphs of a text *)

Section block_facts.
Implicit Types (lines block rest : list string) (l c : string).

Lemma first_block_app block c rest :
  (∀ l, l ∈ block → closing l = false) → closing c = true →
  first_block (block ++ c :: rest) = Some (block, rest).
Proof.
  intros Hblock Hc. induction block as [|l block IH]; simpl.
  - by rewrite Hc.
  - rewrite (Hblock l) by (apply elem_of_cons; by left).
    rewrite IH; [done|]. intros l' Hl'. apply Hblock, elem_of_cons. by right.
Qed.

Lemma first_block_open lines :
  (∀ l, l ∈ lines → closing l = false) → first_block lines = None.
Proof.
  intros Hlines. induction lines as [|l lines IH]; simpl; [done|].
  rewrite (Hlines l) by (apply elem_of_cons; by left).
  rewrite IH; [done|]. intros l' Hl'. apply Hlines, elem_of_cons. by right.
Qed.

End block_facts.

(** X5: [parse_re2c_graph] reads the deque up to the first line that
    is a closing brace once stripped: it returns the graph of the
    lines before it and leaves the lines after it in the deque.  When
    no line closes, it reads the whole deque and returns [None]: the
    edges and nodes that were read are dropped, and a line that raises
    still raises. *)
Theorem graph_ends_at_brace :
  (∀ block c rest,
     (∀ l, l ∈ block → closing l = false) → closing c = true →
     parse_re2c_graph (block ++ c :: rest) =
     (dfa ← graph_of_block block; Ok (Some dfa, rest))) ∧
  (∀ lines,
     (∀ l, l ∈ lines → closing l = false) →
     parse_re2c_graph lines = (_ ← graph_of_block lines; Ok (None, []))).
Proof.
  split.
  - intros block c rest Hblock Hc. unfold parse_re2c_graph, graph_of_block.
    rewrite (first_block_Some _ block rest); [|by apply first_block_app].
    by destruct (for_each parse_line (Str.strip_ws <$> block) ([], [])).
  - intros lines Hlines. unfold parse_re2c_graph, graph_of_block.
    rewrite first_block_None; [|by apply first_block_open].
    by destruct (for_each parse_line (Str.strip_ws <$> lines) ([], [])).
Qed.

Lemma graph_ends_at_brace_witness :
  parse_re2c_graph (["digraph re2c {"; "1 -> 2"] ++ " } " :: ["3 -> 4"]) =
  (dfa ← graph_of_block ["digraph re2c {"; "1 -> 2"];
   Ok (Some dfa, ["3 -> 4"])).
Proof.
  apply (proj1 graph_ends_at_brace).
  - intros l [->|[->|[]%elem_of_nil]%elem_of_cons]%elem_of_cons; reflexivity.
  - reflexivity.
Defined.

(** X6: the loop of [parse_re2c_graphs] ends for every text, and its
    result is that of reading the text block by block: the stripped
    text is cut into lines, every closing line ends a block, the
    graphs of the blocks are returned in the order of the text, the
    first block that raises ends the run, and the lines after the last
    closing line are read without adding a graph. *)
Theorem graphs_block_by_block (text : string) :
  parse_re2c_graphs text = Some (graphs_of_lines (lines_of text)).
Proof.
  unfold parse_re2c_graphs, graphs_of_lines, lines_of.
  apply graphs_loop. lia.
Qed.

Lemma graphs_of_lines_length (lines : list string) (dfas : list ParsedDFA) :
  graphs_of_lines lines = Ok dfas →
  length dfas = length (filter (fun l => closing l = true) lines).
Proof.
  unfold graphs_of_lines.
  destruct (for_each add_graph (blocks lines).1 []) as [ds|e] eqn:Hds; [|done].
  cbn [mbind res_bind]. destruct (graph_of_block (blocks lines).2); [|done].
  intros [= <-]. apply add_graphs_length in Hds.
  by rewrite Hds, blocks_length.
Qed.

Lemma graphs_of_text (text : string) :
  parse_re2c_graphs text = Some (graphs_of_lines (lines_of text)).
Proof.
  unfold parse_re2c_graphs, graphs_of_lines, lines_of.
  apply graphs_loop. lia.
Qed.

(** X7: when [parse_re2c_graphs] returns, it returns as many graphs as
    the text has closing lines. *)
Theorem graphs_count (text : string) (dfas : list ParsedDFA) :
  parse_re2c_graphs text = Some (Ok dfas) →
  length dfas = length (filter (fun l => closing l = true) (lines_of text)).
Proof.
  rewrite graphs_of_text. intros [= H]. by apply graphs_of_lines_length.
Qed.

Lemma graphs_count_witness :
  length [mkParsedDFA [mkTransition 1 2 ∅] []] =
  length (filter (fun l => closing l = true) (lines_of one_graph_text)).
Proof.
  apply (graphs_count one_graph_text). vm_compute. reflexivity.
Defined.

(** ** The command *)

(** X8: when the text does not hold exactly two closing lines, [main]
    compares nothing: it prints the dump, if asked for, and returns,
    or ends with the exception of the line that raised, or with that
    of the dump, which has then printed the lines before the number
    that it could not print. *)
Theorem main_needs_two_graphs (text : string) (dump : bool) :
  text ≠ "" →
  length (filter (fun l => closing l = true) (lines_of text)) ≠ 2%nat →
  main (Some text) dump =
  Some match graphs_of_lines (lines_of text) with
       | Ok parsed =>
           let out :=
             if dump then print_each dump_graph parsed else ([], None) in
           (out.1, match out.2 with Some e => Raised e | None => Returned end)
       | Raise e => ([], Raised e)
       end.
Proof.
  intros Htext Hcount. unfold main. destruct text as [|c text]; [done|].
  rewrite graphs_of_text. cbn [mbind option_bind].
  destruct (graphs_of_lines (lines_of (String c text)))
    as [parsed|e] eqn:Hparsed; [|done].
  apply graphs_of_lines_length in Hparsed. rewrite <- Hparsed in Hcount.
  assert (main_compare parsed = Ok []) as ->.
  { by destruct parsed as [|pa [|pz [|? ?]]]. }
  cbv zeta. destruct (if dump then _ else _) as [evs [e|]]; [done|].
  cbn [fst snd]. by rewrite (right_id_L [] (++)).
Qed.

Lemma main_needs_two_graphs_witness :
  main (Some one_graph_text) true =
  Some ([Echo "Final Nodes:"; Echo (String newline "Transitions:");
         Echo (String tab "From 1 to 2: 0 characters");
         Echo (String tab "  Characters: ")], Returned).
Proof.
  rewrite (main_needs_two_graphs one_graph_text true).
  - vm_compute. reflexivity.
  - done.
  - vm_compute. lia.
Defined.

(** ** Equivalence Engine: the verdict and the reports *)


(** X9: whatever the automaton library computes, the verdict [True]
    is printed alone: when [main] prints that the two automata are
    equivalent, it has printed no header and no word before. *)
Theorem verdict_true_alone {D : Type} {ops : AutomatonOps D} (a z : D) :
  PrintEquivalent true ∈ compare a z → compare a z = [PrintEquivalent true].
Proof.
  intros [H1 H2]%compare_verdict. unfold compare. rewrite H1, H2.
  unfold equiv2 in H2. apply andb_true_iff in H2 as [Hadz Hzad].
  unfold report. by rewrite Hadz, Hzad.
Qed.

Lemma verdict_true_alone_witness :
  compare (Automata.of_DFA dfa_some_a) (Automata.of_DFA dfa_some_a)
  = [PrintEquivalent true].
Proof.
  apply (verdict_true_alone (Automata.of_DFA dfa_some_a)
           (Automata.of_DFA dfa_some_a)).
  replace (compare (Automata.of_DFA dfa_some_a) (Automata.of_DFA dfa_some_a))
    with [PrintEquivalent true] by (vm_compute; reflexivity).
  apply list_elem_of_singleton. reflexivity.
Defined.

(** X10: whatever the automaton library computes, the verdict [False]
    never comes alone: when [main] prints that the two automata are
    not equivalent, it has printed the header of at least one of the
    two differences before. *)
Theorem verdict_false_reported {D : Type} {ops : AutomatonOps D} (a z : D) :
  PrintEquivalent false ∈ compare a z →
  Echo header_zad ∈ compare a z ∨ Echo header_adz ∈ compare a z.
Proof.
  intros [_ H2]%compare_verdict. unfold equiv2 in H2.
  apply andb_false_iff in H2 as [Hadz|Hzad].
  - right. unfold compare. apply elem_of_app. right. apply elem_of_app. left.
    unfold report. rewrite Hadz. apply elem_of_cons. by left.
  - left. unfold compare. apply elem_of_app. left.
    unfold report. rewrite Hzad. apply elem_of_cons. by left.
Qed.

Lemma verdict_false_reported_witness :
  Echo header_zad ∈ compare (Automata.of_DFA dfa_none)
                            (Automata.of_DFA dfa_some_a) ∨
  Echo header_adz ∈ compare (Automata.of_DFA dfa_none)
                            (Automata.of_DFA dfa_some_a).
Proof.
  apply (verdict_false_reported (Automata.of_DFA dfa_none)
           (Automata.of_DFA dfa_some_a)).
  replace (compare (Automata.of_DFA dfa_none) (Automata.of_DFA dfa_some_a))
    with [Echo header_zad; EchoWord (Some [97]); PrintEquivalent false]
    by (vm_compute; reflexivity).
  apply elem_of_cons. right. apply elem_of_cons. right.
  apply list_elem_of_singleton. reflexivity.
Defined.

(** ** Character Range Decoder: brackets, groups and hyphens *)

Section decoder_more.
Implicit Types (s t l r g a b cur : string) (c d : ascii).
Implicit Types (gs : list string) (acc cs : gset Z).

Lemma lstrip_chars_of s chars :
  chars_of s chars = true → Str.lstrip chars s = "".
Proof.
  induction s as [|c s IH]; simpl; [done|].
  destruct (Str.mem c chars); simpl; [exact IH|done].
Qed.

Lemma lstrip_append s t chars :
  Str.lstrip chars (s +:+ t) =
  if decide (Str.lstrip chars s = "") then Str.lstrip chars t
  else Str.lstrip chars s +:+ t.
Proof.
  induction s as [|c s IH]; [done|]. rewrite append_cons. simpl.
  destruct (Str.mem c chars); [exact IH|done].
Qed.

Lemma strip_between l s r chars :
  chars_of l chars = true → chars_of r chars = true →
  Str.strip chars (l +:+ s +:+ r) = Str.strip chars s.
Proof.
  intros Hl Hr. unfold Str.strip.
  rewrite lstrip_append, (lstrip_chars_of l chars Hl), decide_True by done.
  rewrite lstrip_append. destruct (decide (Str.lstrip chars s = "")) as [E|_].
  - by rewrite E, (lstrip_chars_of r chars Hr).
  - by apply rstrip_append.
Qed.

End decoder_more.

(** X11: the brackets at the two ends of a range specification are
    not counted: any run of brackets before it and any run after it
    leave the result as it is, so that [a-c], [[a-c]] and a-c decode
    alike. *)
Theorem brackets_at_ends (l s r : string) :
  chars_of l "[]" = true → chars_of r "[]" = true →
  parse_char_ranges (l +:+ s +:+ r) = parse_char_ranges s.
Proof.
  intros Hl Hr. unfold parse_char_ranges. by rewrite strip_between.
Qed.

Lemma brackets_at_ends_witness :
  parse_char_ranges ("[[" +:+ "a-c" +:+ "]") = parse_char_ranges "a-c".
Proof.
  apply (brackets_at_ends "[[" "a-c" "]"); reflexivity.
Defined.

Section decoder_groups.
Implicit Types (s t l r g a b cur : string) (c d : ascii).
Implicit Types (gs : list string) (acc cs : gset Z).

Lemma join_cons sep g g' gs :
  Str.join sep (g :: g' :: gs) = g +:+ sep +:+ Str.join sep (g' :: gs).
Proof.
  unfold Str.join. cbn [foldl]. revert g g'.
  induction gs as [|g'' gs IH]; intros g g'; [done|].
  cbn [foldl]. rewrite (IH (g +:+ sep +:+ g') g''), (IH g' g'').
  by rewrite !append_assoc.
Qed.

Lemma group_no_close g : group g → Str.mem "]" g = false.
Proof. intros [_ Hg]. by apply (free_of_not_mem g "]" "[]"). Qed.

(** The pieces between the separators [][]. *)
Lemma split_go_groups cur g t :
  Str.mem "]" g = false →
  Str.split_go "][" 0 cur (g +:+ "][" +:+ t) =
  (cur +:+ g) :: Str.split_go "][" 0 "" t.
Proof.
  revert cur. induction g as [|d g IH]; intros cur.
  - intros _. rewrite append_nil_l, append_nil_r.
    change ("][" +:+ t) with (String "]" (String "[" t)).
    cbn [Str.split_go String.prefix String.length Nat.sub].
    destruct (ascii_dec "]" "]") as [_|?]; [|done].
    destruct (ascii_dec "[" "[") as [_|?]; [|done].
    by destruct t.
  - rewrite append_cons. cbn [Str.mem Str.split_go String.prefix].
    destruct (Ascii.eqb_spec "]" d) as [->|Hne]; [done|]. cbn [orb].
    intros Hg. destruct (ascii_dec "]" d) as [?|_]; [done|].
    rewrite (IH _ Hg), append_assoc. done.
Qed.

Lemma split_groups g gs :
  (∀ g', g' ∈ g :: gs → group g') →
  Str.split "][" (Str.join "][" (g :: gs)) = g :: gs.
Proof.
  unfold Str.split. revert g. induction gs as [|g' gs IH]; intros g Hgs.
  - cbn [Str.join foldl].
    rewrite (split_go_free "]" "[" "" g), append_nil_l; [done|].
    apply group_no_close, Hgs, elem_of_cons. by left.
  - rewrite join_cons, split_go_groups, append_nil_l.
    + rewrite IH; [done|]. intros g'' Hg''. apply Hgs, elem_of_cons. by right.
    + apply group_no_close, Hgs, elem_of_cons. by left.
Qed.

Lemma join_free g gs chars :
  (∀ g', g' ∈ g :: gs → free_of g' chars = true) →
  free_of "][" chars = true → free_of (Str.join "][" (g :: gs)) chars = true.
Proof.
  intros Hgs Hsep. revert g Hgs. induction gs as [|g' gs IH]; intros g Hgs.
  - apply Hgs, elem_of_cons. by left.
  - rewrite join_cons, !free_of_append, Hsep, IH.
    + rewrite (Hgs g); [done|]. apply elem_of_cons. by left.
    + intros g'' Hg''. apply Hgs, elem_of_cons. by right.
Qed.

Lemma rstrip_append_free s t chars :
  t ≠ "" → free_of t chars = true → Str.rstrip chars (s +:+ t) = s +:+ t.
Proof.
  intros Hne Hfree. induction s as [|c s IH].
  - rewrite append_nil_l. by apply rstrip_free.
  - rewrite append_cons. cbn [Str.rstrip]. rewrite IH.
    destruct (s +:+ t) eqn:E; [|done].
    destruct s; [by rewrite append_nil_l in E|by rewrite append_cons in E].
Qed.

(** The text of the groups ends with the last of them. *)
Lemma join_last g gs :
  ∃ s g', g' ∈ g :: gs ∧ Str.join "][" (g :: gs) = s +:+ g'.
Proof.
  revert g. induction gs as [|g1 gs IH]; intros g.
  - exists "", g. split; [apply elem_of_cons; by left|done].
  - destruct (IH g1) as (s & g' & Hg' & E).
    exists (g +:+ "][" +:+ s), g'. split; [apply elem_of_cons; by right|].
    by rewrite join_cons, E, !append_assoc.
Qed.

Lemma join_head g gs :
  g ≠ "" → ∃ c g0 t, g = String c g0 ∧
                     Str.join "][" (g :: gs) = String c t.
Proof.
  intros Hne. destruct g as [|c g]; [done|].
  destruct gs as [|g' gs].
  - by exists c, g, g.
  - rewrite join_cons, append_cons. by eexists c, g, _.
Qed.

Lemma strip_spec g gs :
  (∀ g', g' ∈ g :: gs → group g') →
  Str.strip "[]" (spec_of (g :: gs)) = Str.join "][" (g :: gs).
Proof.
  intros Hgs. unfold spec_of.
  rewrite (strip_between "[" _ "]" "[]") by done.
  assert (Hg : group g) by (apply Hgs, elem_of_cons; by left).
  destruct Hg as [Hne Hfree]. unfold Str.strip.
  destruct (join_head g gs Hne) as (c & g0 & t & Eg & E).
  assert (Hc : Str.mem c "[]" = false).
  { rewrite Eg in Hfree. cbn [free_of] in Hfree.
    by destruct (Str.mem c "[]"). }
  rewrite E, (lstrip_free_head c t _ Hc), <- E.
  destruct (join_last g gs) as (s & g' & Hg' & ->).
  destruct (Hgs g' Hg') as [Hne' Hfree'].
  by apply rstrip_append_free.
Qed.

(** The loop of the decoder over a list of groups that starts from
    [acc] adds what it finds from the empty set. *)
Lemma parse_parts_acc gs acc :
  for_each parse_part gs acc = (cs ← for_each parse_part gs ∅; Ok (acc ∪ cs)).
Proof.
  revert acc. induction gs as [|g gs IH]; intros acc.
  - cbn [for_each mbind res_bind]. by rewrite (right_id_L ∅ (∪)).
  - cbn [for_each].
    assert (Hpart : parse_part acc g = (cs ← parse_part ∅ g; Ok (acc ∪ cs))).
    { unfold parse_part. destruct (Str.contains "-" g).
      - destruct (Str.split "-" g) as [|a [|b [|? ?]]]; try done.
        destruct (p a) as [x|e]; [|done]. destruct (p b) as [y|e]; [|done].
        cbn [mbind res_bind]. by rewrite (left_id_L ∅ (∪)).
      - destruct (p g) as [x|e]; [|done]. cbn [mbind res_bind].
        by rewrite (left_id_L ∅ (∪)). }
    rewrite Hpart. destruct (parse_part ∅ g) as [cs|e]; [|done].
    cbn [mbind res_bind]. rewrite (IH (acc ∪ cs)), (IH cs).
    destruct (for_each parse_part gs ∅) as [cs'|e]; [|done].
    cbn [mbind res_bind]. by rewrite (assoc_L (∪)).
Qed.

Lemma decode_spec g gs :
  (∀ g', g' ∈ g :: gs → group g') →
  parse_char_ranges (spec_of (g :: gs)) = for_each parse_part (g :: gs) ∅.
Proof.
  intros Hgs. unfold parse_char_ranges. by rewrite strip_spec, split_groups.
Qed.

End decoder_groups.

(** X12: a range specification of several groups decodes to the union
    of what its parts decode to: written one after the other, two
    specifications give the codes of the first and the codes of the
    second, and the exception of the first that raises. *)
Theorem decode_concatenation (g1 g2 : string) (gs1 gs2 : list string) :
  (∀ g, g ∈ g1 :: gs1 → group g) → (∀ g, g ∈ g2 :: gs2 → group g) →
  parse_char_ranges (spec_of (g1 :: gs1) +:+ spec_of (g2 :: gs2)) =
  (cs1 ← parse_char_ranges (spec_of (g1 :: gs1));
   cs2 ← parse_char_ranges (spec_of (g2 :: gs2));
   Ok (cs1 ∪ cs2)).
Proof.
  intros H1 H2.
  assert (E : spec_of (g1 :: gs1) +:+ spec_of (g2 :: gs2)
              = spec_of ((g1 :: gs1) ++ g2 :: gs2)).
  { unfold spec_of. rewrite !append_assoc. f_equal.
    clear H1. revert g1. induction gs1 as [|g gs1 IH]; intros g1.
    - cbn [app]. rewrite join_cons, !append_assoc. reflexivity.
    - change ((g1 :: g :: gs1) ++ g2 :: gs2)
        with (g1 :: g :: (gs1 ++ g2 :: gs2)).
      rewrite (join_cons _ g1 g gs1), (join_cons _ g1 g), !append_assoc.
      f_equal. f_equal. apply (IH g). }
  rewrite E. change ((g1 :: gs1) ++ g2 :: gs2) with (g1 :: (gs1 ++ g2 :: gs2)).
  rewrite decode_spec.
  2:{ intros g [->|[Hg|Hg]%elem_of_app]%elem_of_cons.
      - apply H1, elem_of_cons. by left.
      - apply H1, elem_of_cons. by right.
      - by apply H2. }
  rewrite !decode_spec by done.
  change (g1 :: (gs1 ++ g2 :: gs2)) with ((g1 :: gs1) ++ g2 :: gs2).
  rewrite for_each_app.
  destruct (for_each parse_part (g1 :: gs1) ∅) as [cs1|e]; [|done].
  cbn [mbind res_bind]. apply parse_parts_acc.
Qed.

Lemma decode_concatenation_witness :
  parse_char_ranges (spec_of ["a-c"] +:+ spec_of ["0x41"; "x"]) =
  (cs1 ← parse_char_ranges (spec_of ["a-c"]);
   cs2 ← parse_char_ranges (spec_of ["0x41"; "x"]);
   Ok (cs1 ∪ cs2)).
Proof.
  apply (decode_concatenation "a-c" "0x41" [] ["x"]).
  - intros g ->%list_elem_of_singleton. split; [done|reflexivity].
  - intros g [->|Hg]%elem_of_cons; [split; [done|reflexivity]|].
    apply list_elem_of_singleton in Hg as ->. split; [done|reflexivity].
Defined.

Section decoder_results.
Implicit Types (s t g a b cur : string) (c d : ascii).
Implicit Types (gs : list string) (acc cs : gset Z).

Lemma split_go_not_nil sep skip cur s : Str.split_go sep skip cur s ≠ [].
Proof.
  revert skip cur. induction s as [|d s IH]; intros skip cur; [done|].
  cbn [Str.split_go]. destruct skip as [|k]; [|apply IH].
  destruct (String.prefix sep (String d s)); [done|apply IH].
Qed.

Lemma hex_digit_range c n : Str.hex_digit c = Some n → 0 ≤ n.
Proof.
  unfold Str.hex_digit. repeat case_match; intros [= <-]; lia.
Qed.

Lemma hex_digits_nonneg s n seen us x :
  0 ≤ n → Str.hex_digits n seen us s = Ok x → 0 ≤ x.
Proof.
  revert n seen us. induction s as [|c s IH]; intros n seen us Hn.
  - cbn [Str.hex_digits]. destruct (seen && negb us); [|done].
    by intros [= <-].
  - cbn [Str.hex_digits]. destruct (Str.hex_digit c) as [k|] eqn:Hk.
    + apply IH. apply hex_digit_range in Hk. lia.
    + destruct (Ascii.eqb c "_").
      * destruct (seen && negb us); [|done]. by apply IH.
      * destruct (seen && negb us && Str.all_int_space (String c s)); [|done].
        by intros [= <-].
Qed.

Lemma p_nonneg s x : p s = Ok x → 0 ≤ x.
Proof.
  unfold p. destruct (Str.startswith s "0x").
  - unfold Str.int16. destruct s as [|? [|? [|c s]]]; try done.
    destruct c as [[] [] [] [] [] [] [] []];
      apply hex_digits_nonneg; lia.
  - unfold Str.ord. destruct s as [|c [|? ?]]; try done.
    intros [= <-]. unfold Str.ord1. lia.
Qed.

Lemma parse_part_result acc g cs :
  parse_part acc g = Ok cs →
  (∀ x, x ∈ acc → 0 ≤ x) → cs ≠ ∅ ∧ ∀ x, x ∈ cs → 0 ≤ x.
Proof.
  unfold parse_part. intros Hpart Hacc. destruct (Str.contains "-" g).
  - destruct (Str.split "-" g) as [|a [|b [|? ?]]]; try done.
    destruct (p a) as [x|e] eqn:Hx; [|done].
    destruct (p b) as [y|e] eqn:Hy; [|done].
    injection Hpart as <-. apply p_nonneg in Hx, Hy. split.
    + assert (Z.min x y ∈ acc ∪ range_set (Z.min x y) (Z.max x y)); [|set_solver].
      apply elem_of_union. right. apply elem_of_range_set. lia.
    + intros k [Hk|Hk]%elem_of_union; [by apply Hacc|].
      apply elem_of_range_set in Hk. lia.
  - destruct (p g) as [x|e] eqn:Hx; [|done]. injection Hpart as <-.
    apply p_nonneg in Hx. split; [set_solver|].
    intros k [Hk|Hk]%elem_of_union; [by apply Hacc|].
    apply elem_of_singleton in Hk as ->. done.
Qed.

Lemma parse_parts_result gs acc cs :
  for_each parse_part gs acc = Ok cs →
  (∀ x, x ∈ acc → 0 ≤ x) →
  (gs ≠ [] ∨ acc ≠ ∅ → cs ≠ ∅) ∧ ∀ x, x ∈ cs → 0 ≤ x.
Proof.
  revert acc. induction gs as [|g gs IH]; intros acc.
  - intros [= <-] Hacc. split; [|done]. by intros [?|?].
  - cbn [for_each]. destruct (parse_part acc g) as [acc'|e] eqn:Hg; [|done].
    cbn [mbind res_bind]. intros Hgs Hacc.
    destruct (parse_part_result _ _ _ Hg Hacc) as [Hne Hnn].
    destruct (IH _ Hgs Hnn) as [Hne' Hnn']. split; [|done].
    intros _. apply Hne'. by right.
Qed.

End decoder_results.

(** X13: a range specification that decodes at all decodes to a set
    that is not empty and holds no negative code, so that the set of a
    decoded token is never the empty set that stands for an
    unconditional edge. *)
Theorem decode_never_empty (range_str : string) (cs : gset Z) :
  parse_char_ranges range_str = Ok cs → cs ≠ ∅ ∧ ∀ x, x ∈ cs → 0 ≤ x.
Proof.
  unfold parse_char_ranges. intros Hcs.
  destruct (parse_parts_result _ _ _ Hcs) as [Hne Hnn]; [set_solver|].
  split; [|done]. apply Hne. left. apply split_go_not_nil.
Qed.

Lemma decode_never_empty_witness :
  ({[ 98 ]} : gset Z) ≠ ∅ ∧ ∀ x, x ∈ ({[ 98 ]} : gset Z) → 0 ≤ x.
Proof. apply (decode_never_empty "[b]"). reflexivity. Defined.

Section decoder_hyphens.
Implicit Types (s t g a b cur : string) (c d : ascii).

Lemma split_go_count c cur s :
  length (Str.split_go (String c "") 0 cur s) = S (count_char c s).
Proof.
  revert cur. induction s as [|d s IH]; intros cur; [done|].
  cbn [Str.split_go String.prefix count_char String.length Nat.sub].
  destruct (ascii_dec c d) as [<-|Hne].
  - rewrite Ascii.eqb_refl.
    replace (String.prefix "" s) with true by (by destruct s).
    cbn [length]. by rewrite IH.
  - destruct (Ascii.eqb_spec c d) as [?|_]; [done|]. by rewrite IH.
Qed.

Lemma contains_count c s :
  (0 < count_char c s)%nat → Str.contains (String c "") s = true.
Proof.
  induction s as [|d s IH]; cbn [count_char Str.contains String.prefix].
  - lia.
  - destruct (ascii_dec c d) as [<-|Hne].
    + by destruct s.
    + destruct (Ascii.eqb_spec c d) as [?|_]; [done|]. intros Hs.
      by rewrite (IH Hs).
Qed.

End decoder_hyphens.

(** X14: the hyphen cannot be an endpoint: a group with two hyphens or
    more raises [ValueError], however they are placed, and a group
    that begins with its only hyphen raises [TypeError]. *)
Theorem hyphen_is_no_endpoint :
  (∀ g, group g → (2 ≤ count_char "-" g)%nat →
        parse_char_ranges ("[" +:+ g +:+ "]") = Raise ValueError) ∧
  (∀ b, free_of b meta = true →
        parse_char_ranges ("[" +:+ "-" +:+ b +:+ "]") = Raise TypeError).
Proof.
  split.
  - intros g Hg Hcount.
    change ("[" +:+ g +:+ "]") with (spec_of [g]).
    rewrite decode_spec by (by intros g' ->%list_elem_of_singleton).
    cbn [for_each]. unfold parse_part.
    rewrite contains_count by lia.
    pose proof (split_go_count "-" "" g) as Hlen.
    unfold Str.split.
    destruct (Str.split_go "-" 0 "" g) as [|a [|b [|? ?]]]; try done;
      simpl in Hlen; lia.
  - intros b Hb.
    change ("[" +:+ "-" +:+ b +:+ "]") with ("[" +:+ "" +:+ "-" +:+ b +:+ "]").
    by rewrite decode_range.
Qed.

Lemma hyphen_is_no_endpoint_witness :
  parse_char_ranges ("[" +:+ "+--" +:+ "]") = Raise ValueError.
Proof.
  apply (proj1 hyphen_is_no_endpoint "+--").
  - split; [done|reflexivity].
  - simpl. lia.
Defined.

(** ** Graph Parser: the label of an edge *)

Section label_facts.
Implicit Types (s t tok label cur : string) (c d : ascii).
Implicit Types (acc cs : gset Z).

Lemma split_ws_free chars (cur : option string) s tok :
  free_of s chars = true →
  (∀ w, cur = Some w → free_of w chars = true) →
  tok ∈ Str.split_ws_go cur s → free_of tok chars = true.
Proof.
  revert cur. induction s as [|c s IH]; intros cur Hs Hcur.
  - cbn [Str.split_ws_go]. destruct cur as [w|]; simpl.
    + intros ->%list_elem_of_singleton. by apply Hcur.
    + by intros ?%elem_of_nil.
  - cbn [free_of] in Hs. apply andb_true_iff in Hs as [Hc Hs].
    cbn [Str.split_ws_go]. destruct (Str.isspace c).
    + intros [Htok|Htok]%elem_of_app.
      * destruct cur as [w|]; simpl in Htok.
        -- apply list_elem_of_singleton in Htok as ->. by apply Hcur.
        -- by apply elem_of_nil in Htok.
      * by apply (IH None).
    + apply IH; [done|]. intros w [= <-].
      destruct cur as [w|]; cbn [from_option].
      * rewrite free_of_append, (Hcur w eq_refl). cbn [free_of].
        by rewrite Hc.
      * cbn [free_of]. by rewrite Hc.
Qed.

Lemma contains_free c s :
  free_of s (String c "") = true → Str.contains (String c "") s = false.
Proof.
  induction s as [|d s IH]; [done|]. cbn [free_of Str.mem Str.contains String.prefix].
  rewrite (Ascii.eqb_sym d c).
  destruct (Ascii.eqb_spec c d) as [->|Hne]; [done|]. cbn [orb negb andb].
  intros Hs. destruct (ascii_dec c d) as [?|_]; [done|]. by rewrite (IH Hs).
Qed.

End label_facts.

Section label_results.
Implicit Types (s t tok label cur : string) (c d : ascii).
Implicit Types (acc cs : gset Z) (toks : list string).

Lemma label_token_skipped acc tok : skipped tok → label_token acc tok = Ok acc.
Proof.
  unfold label_token. intros [->| ->]; [done|].
  by destruct (Str.startswith tok "yyacept=").
Qed.

Lemma label_token_decoded acc tok cs :
  ¬ skipped tok → label_token acc tok = Ok cs → cs ≠ ∅.
Proof.
  unfold skipped, label_token. intros Hns.
  destruct (Str.startswith tok "yyacept="); [by destruct Hns; left|].
  destruct (Str.contains "[" tok); [|by destruct Hns; right].
  destruct (parse_char_ranges tok) as [ds|e] eqn:Hds; [|done].
  intros [= <-]. unfold parse_char_ranges in Hds.
  destruct (parse_parts_result _ _ _ Hds) as [Hne _]; [set_solver|].
  assert (ds ≠ ∅) by (apply Hne; left; apply split_go_not_nil).
  set_solver.
Qed.

Lemma label_token_grows acc tok cs :
  label_token acc tok = Ok cs → acc ⊆ cs.
Proof.
  unfold label_token. destruct (Str.startswith tok "yyacept=").
  { by intros [= <-]. }
  destruct (Str.contains "[" tok); [|by intros [= <-]].
  destruct (parse_char_ranges tok) as [ds|e]; [|done].
  intros [= <-]. set_solver.
Qed.

Lemma label_tokens_empty toks acc cs :
  for_each label_token toks acc = Ok cs →
  cs = ∅ ↔ acc = ∅ ∧ ∀ tok, tok ∈ toks → skipped tok.
Proof.
  revert acc. induction toks as [|tok toks IH]; intros acc.
  - intros [= <-]. split; [|by intros [? _]].
    intros ->. split; [done|]. by intros tok ?%elem_of_nil.
  - cbn [for_each]. destruct (label_token acc tok) as [acc'|e] eqn:Htok; [|done].
    cbn [mbind res_bind]. intros Hcs. rewrite (IH _ Hcs). split.
    + intros [-> Hall].
      assert (Hsk : skipped tok).
      { destruct (Str.startswith tok "yyacept=") eqn:E1; [by left|].
        destruct (Str.contains "[" tok) eqn:E2; [|by right].
        exfalso. apply (label_token_decoded acc tok ∅); [|done|done].
        intros [?|?]; congruence. }
      rewrite (label_token_skipped _ _ Hsk) in Htok. injection Htok as ->.
      split; [done|]. intros tok' [->|?]%elem_of_cons; [done|by apply Hall].
    + intros [-> Hall]. rewrite label_token_skipped in Htok.
      * injection Htok as <-. split; [done|].
        intros tok' ?. apply Hall, elem_of_cons. by right.
      * apply Hall, elem_of_cons. by left.
Qed.

End label_results.

(** X15: a labelled edge is unconditional exactly when the loop over
    its label decodes nothing: the character set is empty when every
    token of the label begins with [yyacept=] or holds no opening
    bracket, and it is not empty as soon as one token was decoded. *)
Theorem labelled_edge_unconditional (src dst : Z) (label : string)
    (t : Transition) :
  edge_transition src dst (Some label) = Ok t →
  chars t = ∅ ↔ ∀ tok, tok ∈ Str.split_ws label → skipped tok.
Proof.
  unfold edge_transition.
  destruct (for_each label_token (Str.split_ws label) ∅) as [cs|e] eqn:Hcs;
    [|done].
  intros [= <-]. cbn [chars]. rewrite (label_tokens_empty _ _ _ Hcs).
  split; [by intros [_ ?]|done].
Qed.

Lemma labelled_edge_unconditional_witness :
  chars (mkTransition 1 2 ∅) = ∅ ↔
  ∀ tok, tok ∈ Str.split_ws "yyaccept=1" → skipped tok.
Proof.
  apply (labelled_edge_unconditional 1 2 "yyaccept=1"). reflexivity.
Defined.

(** X16: a label without opening bracket, whatever else it holds,
    raises nothing and makes the edge unconditional. *)
Theorem label_without_bracket (src dst : Z) (label : string) :
  free_of label "[" = true →
  edge_transition src dst (Some label) = Ok (mkTransition src dst ∅).
Proof.
  intros Hfree. unfold edge_transition.
  assert (Hall : ∀ toks acc,
            (∀ tok, tok ∈ toks → free_of tok "[" = true) →
            for_each label_token toks acc = Ok acc).
  { induction toks as [|tok toks IH]; intros acc Htoks; [done|].
    cbn [for_each]. rewrite label_token_skipped.
    - apply IH. intros tok' ?. apply Htoks, elem_of_cons. by right.
    - right. apply contains_free, Htoks, elem_of_cons. by left. }
  rewrite Hall; [done|]. intros tok Htok.
  by apply (split_ws_free "[" None label tok).
Qed.

Lemma label_without_bracket_witness :
  edge_transition 1 2 (Some "yyaccept=1 a-c") = Ok (mkTransition 1 2 ∅).
Proof. apply (label_without_bracket 1 2 "yyaccept=1 a-c"). reflexivity. Defined.

(** ** Automaton Builder: outcomes and the table *)

Section builder_more.
Implicit Types (pdfa : ParsedDFA) (A : DFA.t) (q r : string) (s x : Z).

(** The entry of a built table, whichever way it was written. *)
Lemma delta_cases pdfa A q s r :
  parsed_dfa_to_automaton pdfa = Ok A →
  DFA.delta (DFA.transitions A) q s = Some r →
  (∃ t, t ∈ transitions pdfa ∧ state_name (src t) = q ∧ r = state_name (dst t)) ∨
  (r = q ∧ q ∈ DFA.final_states A ∧ s ∈ DFA.input_symbols A ∧
   q ∈ DFA.states A).
Proof.
  intros HA Hr.
  destruct (builder_inv pdfa A HA)
    as (Hvalid & Hkeys & HS & HΣ & HF & [Hdom Htbl] & Hstart).
  rewrite Htbl in Hr. apply last_write_spec in Hr
    as [(i & t & Hi & [Hsrc _] & [= ->] & _)|[_ Hd]].
  - left. exists t. split; [by eapply list_elem_of_lookup_2|done].
  - right. case_decide as Hqs; [|done]. injection Hd as <-.
    destruct Hqs as [Hq Hs]. rewrite HF, HΣ, HS.
    split; [done|]. split; [done|]. split; [done|].
    destruct Hkeys as [E|Hsub]; [|by apply Hsub].
    rewrite E in Hs. by apply elem_of_empty in Hs.
Qed.

End builder_more.

(** Settles one line of the table of outcomes from the facts of the
    case at hand. *)
Ltac outcome :=
  split; [try discriminate|try discriminate]; try tauto;
  try (intros ?; exfalso); try (intros _); try lia; try tauto;
  naive_solver lia.

(** X17: what the builder does is decided in this order.  It raises
    [ValueError] or [OverflowError] exactly when the graph is not
    readable: some node number has more than 4300 digits, or some
    character code is outside [range(0x110000)]; it is [ValueError]
    when every character code fits a C int.  Otherwise it raises
    [KeyError] exactly when the alphabet is not empty and some
    accepting node is in no transition; otherwise it goes by the
    number of states that no transition enters: [Exception] for more
    than one, [AssertionError] for none.  With one such state the
    arguments reach [DFA(...)], which raises [MissingSymbolError]
    exactly when some state that does not accept has no transition for
    some symbol, [InvalidStateError] exactly when the alphabet is
    empty and some accepting node is in no transition, and returns the
    automaton otherwise.  The builder raises nothing else. *)
Theorem builder_outcomes (pdfa : ParsedDFA) :
  let S := pdfa_states (transitions pdfa) in
  let N := pdfa_nonstarters (transitions pdfa) in
  let Σ := pdfa_symbols (transitions pdfa) in
  let F := pdfa_finals pdfa in
  let r := parsed_dfa_to_automaton pdfa in
  (r = Raise ValueError ∨ r = Raise OverflowError ↔ ¬ readable pdfa) ∧
  ((∀ t x, t ∈ transitions pdfa → x ∈ chars t → int_code x) →
   r ≠ Raise OverflowError) ∧
  (r = Raise KeyError ↔ readable pdfa ∧ Σ ≠ ∅ ∧ ¬ F ⊆ S) ∧
  (r = Raise Exception ↔
   readable pdfa ∧ (Σ = ∅ ∨ F ⊆ S) ∧ (1 < size (S ∖ N))%nat) ∧
  (r = Raise AssertionError ↔
   readable pdfa ∧ (Σ = ∅ ∨ F ⊆ S) ∧ size (S ∖ N) = 0%nat) ∧
  (r = Raise MissingSymbolError ↔
   readable pdfa ∧ (Σ = ∅ ∨ F ⊆ S) ∧ size (S ∖ N) = 1%nat ∧
   incomplete pdfa) ∧
  (r = Raise InvalidStateError ↔
   readable pdfa ∧ Σ = ∅ ∧ size (S ∖ N) = 1%nat ∧ ¬ F ⊆ S) ∧
  (is_Ok r = true ↔
   readable pdfa ∧ size (S ∖ N) = 1%nat ∧ complete pdfa ∧ F ⊆ S) ∧
  r ≠ Raise TypeError ∧ r ≠ Raise MissingStateError ∧
  r ≠ Raise InvalidSymbolError.
Proof.
  intros S N Σ F r.
  assert (Hempty : Σ = ∅ → ¬ incomplete pdfa).
  { intros E (q & s & _ & Hs & _). fold Σ in Hs. rewrite E in Hs.
    by apply elem_of_empty in Hs. }
  pose proof (complete_incomplete pdfa) as Hcomp.
  assert (Hint : (∀ t x, t ∈ transitions pdfa → x ∈ chars t → int_code x) →
                 ¬ readable pdfa → r = Raise ValueError).
  { intros Hcodes Hread. by apply builder_unreadable_int. }
  pose proof (builder_cases pdfa) as Hcases. cbv zeta in Hcases.
  fold S N Σ F in Hcases. fold r in Hcases.
  destruct Hcases
    as [(Hread & Hr)|[(Hread & HΣ & HF & Hr)|[(Hread & Hk & Hn & Hr)|
        [(Hread & Hk & Hn & Hr)|[(Hread & Hk & Hn & Hinc & Hr)|
        [(Hread & HΣ & Hn & Hc & HF & Hr)|
         (Hread & Hn & Hc & HF & tbl & q0 & _ & _ & Hr)]]]]]].
  - split; [by split|]. split.
    { intros Hcodes. by rewrite (Hint Hcodes Hread). }
    destruct Hr as [Hr|Hr]; rewrite Hr; cbn [is_Ok]; split_and!;
      try done; (split; [done|]); by intros (? & _).
  - rewrite Hr; cbn [is_Ok]. split_and!; try done; outcome.
  - rewrite Hr; cbn [is_Ok]. split_and!; try done; outcome.
  - rewrite Hr; cbn [is_Ok]. split_and!; try done; outcome.
  - rewrite Hr; cbn [is_Ok]. split_and!; try done; outcome.
  - rewrite Hr; cbn [is_Ok]. split_and!; try done; outcome.
  - rewrite Hr; cbn [is_Ok]. split_and!; try done; outcome.
Qed.

Lemma builder_outcomes_witness :
  parsed_dfa_to_automaton refused_codes ≠ Raise KeyError ∧
  parsed_dfa_to_automaton accepts_nothing ≠ Raise OverflowError.
Proof.
  split.
  - destruct (builder_outcomes refused_codes) as (_ & _ & [Hkey _] & _).
    intros (Hread & _)%Hkey. revert Hread.
    apply (bool_decide_eq_false_1 (readable refused_codes)).
    vm_compute. reflexivity.
  - destruct (builder_outcomes accepts_nothing) as (_ & Hint & _).
    apply Hint. intros t x Ht Hx.
    apply elem_of_cons in Ht as [->|Ht];
      [|apply list_elem_of_singleton in Ht as ->];
      cbn [chars] in Hx; apply elem_of_singleton in Hx as ->;
      unfold int_code; lia.
Defined.

(** X18: the table of a built automaton never leads out of the state
    set: every successor is a state of the automaton. *)
Theorem successors_are_states (pdfa : ParsedDFA) (A : DFA.t)
    (q r : string) (s : Z) :
  parsed_dfa_to_automaton pdfa = Ok A →
  DFA.delta (DFA.transitions A) q s = Some r →
  r ∈ DFA.states A.
Proof.
  intros HA Hr.
  destruct (delta_cases pdfa A q s r HA Hr)
    as [(t & Ht & _ & ->)|(-> & _ & _ & Hq)]; [|done].
  destruct (builder_inv pdfa A HA) as (_ & _ & -> & _).
  apply elem_of_pdfa_states. exists t. split; [done|]. by right.
Qed.

Lemma successors_are_states_witness :
  ∃ A, parsed_dfa_to_automaton catch_all_first = Ok A ∧ "2" ∈ DFA.states A.
Proof.
  built catch_all_first A HA. exists A. split; [reflexivity|].
  apply (successors_are_states catch_all_first A "0" "2" 97 HA).
  revert HA. vm_compute. intros [= <-]. reflexivity.
Defined.

(** X19: no transition of a built automaton leads back to the start
    state from another state: the only entry of the table that holds
    the start state is its own self-loop, which it has when it is
    accepting. *)
Theorem start_state_not_entered (pdfa : ParsedDFA) (A : DFA.t)
    (q : string) (s : Z) :
  parsed_dfa_to_automaton pdfa = Ok A →
  DFA.delta (DFA.transitions A) q s = Some (DFA.initial_state A) →
  q = DFA.initial_state A ∧ q ∈ DFA.final_states A.
Proof.
  intros HA Hr.
  destruct (delta_cases pdfa A q s _ HA Hr)
    as [(t & Ht & _ & Hdst)|(-> & ? & _)]; [|done].
  destruct (builder_inv pdfa A HA) as (_ & _ & _ & _ & _ & _ & Hstart).
  assert (Hin : DFA.initial_state A ∈
                pdfa_states (transitions pdfa)
                  ∖ pdfa_nonstarters (transitions pdfa)).
  { rewrite Hstart. by apply elem_of_singleton. }
  apply elem_of_difference in Hin as [_ Hin]. destruct Hin.
  apply elem_of_pdfa_nonstarters. by exists t.
Qed.

Lemma start_state_not_entered_witness :
  ∃ A, parsed_dfa_to_automaton start_accepts = Ok A ∧
       "0" = DFA.initial_state A ∧ "0" ∈ DFA.final_states A.
Proof.
  built start_accepts A HA. exists A. split; [reflexivity|].
  apply (start_state_not_entered start_accepts A "0" 98 HA).
  revert HA. vm_compute. intros [= <-]. reflexivity.
Defined.

(** X20: the alphabet of a built automaton holds exactly the character
    codes of the labels of the graph, all of them code points; an
    unconditional edge adds no symbol to it. *)
Theorem alphabet_of_labels (pdfa : ParsedDFA) (A : DFA.t) :
  parsed_dfa_to_automaton pdfa = Ok A →
  ∀ x, x ∈ DFA.input_symbols A ↔
       (∃ t, t ∈ transitions pdfa ∧ x ∈ chars t) ∧ 0 ≤ x < 1114112.
Proof.
  intros HA x.
  destruct (builder_inv pdfa A HA) as (Hvalid & _ & _ & -> & _).
  rewrite elem_of_pdfa_symbols. split.
  - intros (t & Ht & Hx). split; [by exists t|]. apply (Hvalid t x Ht Hx).
  - by intros [? _].
Qed.

Lemma alphabet_of_labels_witness :
  ∃ A, parsed_dfa_to_automaton catch_all_first = Ok A ∧
       ∀ x, x ∈ DFA.input_symbols A ↔
            (∃ t, t ∈ transitions catch_all_first ∧ x ∈ chars t) ∧
            0 ≤ x < 1114112.
Proof.
  built catch_all_first A HA. exists A. split; [reflexivity|].
  apply (alphabet_of_labels catch_all_first A HA).
Defined.

(** ** Automaton Builder: the order of the edges *)

Section builder_order.
Implicit Types (pdfa : ParsedDFA) (l : list Transition) (q r : string) (s : Z).

Lemma table_ext (tbl tbl' : gmap string (gmap Z string)) :
  dom tbl = dom tbl' →
  (∀ q s, DFA.delta tbl q s = DFA.delta tbl' q s) →
  tbl = tbl'.
Proof.
  intros Hdom Hdelta. apply map_eq. intros q.
  destruct (tbl !! q) as [row|] eqn:Hrow, (tbl' !! q) as [row'|] eqn:Hrow'.
  - f_equal. apply map_eq. intros s. specialize (Hdelta q s).
    unfold DFA.delta in Hdelta. by rewrite Hrow, Hrow' in Hdelta.
  - apply (elem_of_dom_2 (D := gset string)) in Hrow.
    rewrite Hdom in Hrow. apply elem_of_dom in Hrow as [? ?]. congruence.
  - apply (elem_of_dom_2 (D := gset string)) in Hrow'.
    rewrite <- Hdom in Hrow'. apply elem_of_dom in Hrow' as [? ?]. congruence.
  - done.
Qed.

Lemma pdfa_sets_perm l l' :
  l ≡ₚ l' →
  pdfa_states l' = pdfa_states l ∧ pdfa_symbols l' = pdfa_symbols l ∧
  pdfa_nonstarters l' = pdfa_nonstarters l ∧
  (valid_chars l' ↔ valid_chars l) ∧ (small_edges l' ↔ small_edges l).
Proof.
  intros Hperm.
  assert (Hmem : ∀ t, t ∈ l' ↔ t ∈ l) by (intros t; by rewrite Hperm).
  split; [|split; [|split; [|split]]].
  - apply set_eq. intros q. rewrite !elem_of_pdfa_states.
    by setoid_rewrite Hmem.
  - apply set_eq. intros x. rewrite !elem_of_pdfa_symbols.
    by setoid_rewrite Hmem.
  - apply set_eq. intros q. rewrite !elem_of_pdfa_nonstarters.
    by setoid_rewrite Hmem.
  - unfold valid_chars. by setoid_rewrite Hmem.
  - unfold small_edges. by setoid_rewrite Hmem.
Qed.

(** Where the transitions that cover an entry agree on the
    destination, their order does not count. *)
Lemma last_write_perm alphabet q s l l' d :
  l ≡ₚ l' →
  (∀ t t', t ∈ l → t' ∈ l → covers alphabet t q s → covers alphabet t' q s →
           dst t = dst t') →
  last_write alphabet q s l' d = last_write alphabet q s l d.
Proof.
  intros Hperm Hagree.
  assert (Hmem : ∀ t, t ∈ l' ↔ t ∈ l) by (intros t; by rewrite Hperm).
  destruct (proj1 (last_write_spec alphabet q s l d _) eq_refl)
    as [(i & t & Hi & Ht & -> & _)|[Hnone ->]];
  destruct (proj1 (last_write_spec alphabet q s l' d _) eq_refl)
    as [(i' & t' & Hi' & Ht' & -> & _)|[Hnone' ->]].
  - apply list_elem_of_lookup_2 in Hi, Hi'. apply Hmem in Hi'.
    by rewrite (Hagree t t' Hi Hi' Ht Ht').
  - apply list_elem_of_lookup_2 in Hi. destruct (Hnone' t); [by apply Hmem|done].
  - apply list_elem_of_lookup_2 in Hi'. destruct (Hnone t'); [by apply Hmem|done].
  - done.
Qed.

End builder_order.

(** The order of the edges decides which exception is raised when one
    character code is refused for its range and another for its
    size. *)
Lemma refused_codes_order :
  (parsed_dfa_to_automaton refused_codes,
   parsed_dfa_to_automaton
     (mkParsedDFA (reverse (transitions refused_codes))
                  (finalnodes refused_codes)))
  = (Raise ValueError, Raise OverflowError).
Proof. vm_compute. reflexivity. Qed.

(** X21: the order in which the edges of a graph are listed, and that
    of its accepting nodes, changes nothing where no two edges that
    cover the same state and symbol differ in their destination, and
    the graph is readable or every character code fits a C int: the
    builder then returns the same automaton, or raises the same
    exception.  (With a code that does not fit a C int, [chr] raises
    [OverflowError] and not [ValueError], and the first edge that is
    refused decides.) *)
Theorem edge_order_irrelevant (pdfa pdfa' : ParsedDFA) :
  transitions pdfa ≡ₚ transitions pdfa' →
  finalnodes pdfa ≡ₚ finalnodes pdfa' →
  (readable pdfa ∨
   ∀ t x, t ∈ transitions pdfa → x ∈ chars t → int_code x) →
  (∀ t t' q s, t ∈ transitions pdfa → t' ∈ transitions pdfa →
     covers (pdfa_symbols (transitions pdfa)) t q s →
     covers (pdfa_symbols (transitions pdfa)) t' q s → dst t = dst t') →
  parsed_dfa_to_automaton pdfa' = parsed_dfa_to_automaton pdfa.
Proof.
  intros Hperm Hfin Hint Hagree.
  destruct (pdfa_sets_perm _ _ Hperm) as (HS & HΣ & HN & Hv & Hse).
  assert (HF : pdfa_finals pdfa' = pdfa_finals pdfa).
  { apply set_eq. intros q. rewrite !elem_of_pdfa_finals.
    by setoid_rewrite Hfin. }
  assert (Hsf : small_finals (finalnodes pdfa') ↔
                small_finals (finalnodes pdfa)).
  { unfold small_finals. by setoid_rewrite Hfin. }
  assert (Hr : readable pdfa' ↔ readable pdfa).
  { unfold readable, small_nodes. by rewrite Hsf, Hse, Hv. }
  destruct (decide (readable pdfa)) as [Hread|Hread].
  2:{ destruct Hint as [?|Hint]; [done|].
      rewrite (builder_unreadable_int pdfa Hread Hint).
      apply builder_unreadable_int; [by rewrite Hr|].
      intros t x Ht. apply Hint. by rewrite Hperm. }
  destruct (decide (pdfa_symbols (transitions pdfa) = ∅ ∨
                    pdfa_finals pdfa ⊆ pdfa_states (transitions pdfa)))
    as [Hkeys|Hkeys].
  2:{ assert (pdfa_symbols (transitions pdfa) ≠ ∅)
        by (intros E; apply Hkeys; by left).
      assert (¬ pdfa_finals pdfa ⊆ pdfa_states (transitions pdfa))
        by (intros E; apply Hkeys; by right).
      rewrite (builder_KeyError pdfa) by done.
      apply builder_KeyError; [by apply Hr|by rewrite HΣ|by rewrite HF, HS]. }
  destruct (builder_reaches_start pdfa Hread Hkeys)
    as (tbl & [Hdom Htbl] & ->).
  destruct (builder_reaches_start pdfa') as (tbl' & [Hdom' Htbl'] & ->).
  { by apply Hr. }
  { by rewrite HΣ, HF, HS. }
  rewrite HS, HΣ, HN, HF.
  assert (tbl' = tbl) as ->; [|done].
  apply table_ext; [by rewrite Hdom, Hdom', HS|].
  intros q s. rewrite Htbl, Htbl', HΣ, HF.
  apply last_write_perm; [done|]. intros t t'. apply Hagree.
Qed.

Lemma edge_order_irrelevant_witness :
  parsed_dfa_to_automaton
    (mkParsedDFA [mkTransition 1 1 {[ 97 ]}; mkTransition 0 1 {[ 97 ]}] []) =
  parsed_dfa_to_automaton accepts_nothing.
Proof.
  apply (edge_order_irrelevant accepts_nothing).
  - apply perm_swap.
  - reflexivity.
  - right. intros t x Ht Hx.
    apply elem_of_cons in Ht as [->|Ht];
      [|apply list_elem_of_singleton in Ht as ->];
      cbn [chars] in Hx; apply elem_of_singleton in Hx as ->;
      unfold int_code; lia.
  - intros t t' q s Ht Ht' _ _.
    apply elem_of_cons in Ht as [->|Ht];
      [|apply list_elem_of_singleton in Ht as ->];
      (apply elem_of_cons in Ht' as [->|Ht'];
        [|apply list_elem_of_singleton in Ht' as ->]); reflexivity.
Defined.

(** ** Character Range Decoder and labels: what a token gives *)

Section token_facts.
Implicit Types (g tok label : string) (acc cs ds : gset Z).
Implicit Types (toks : list string).

Lemma contains_none c g :
  count_char c g = 0%nat → Str.contains (String c "") g = false.
Proof.
  induction g as [|d g IH]; cbn [count_char Str.contains String.prefix]; [done|].
  destruct (Ascii.eqb_spec c d) as [->|Hne]; [done|]. intros Hg.
  destruct (ascii_dec c d) as [?|_]; [done|]. by rewrite (IH Hg).
Qed.

Lemma label_token_cases acc tok cs :
  label_token acc tok = Ok cs →
  skipped tok ∧ cs = acc ∨
  ¬ skipped tok ∧ ∃ ds, parse_char_ranges tok = Ok ds ∧ cs = acc ∪ ds.
Proof.
  unfold label_token, skipped.
  destruct (Str.startswith tok "yyacept="); [intros [= <-]; left; by split; [left|]|].
  destruct (Str.contains "[" tok); [|intros [= <-]; left; by split; [right|]].
  destruct (parse_char_ranges tok) as [ds|e]; [|done].
  intros [= <-]. right. split; [by intros [?|?]|]. by exists ds.
Qed.

Lemma label_tokens_chars toks acc cs :
  for_each label_token toks acc = Ok cs →
  ∀ x, x ∈ cs ↔
       x ∈ acc ∨
       ∃ tok ds, tok ∈ toks ∧ ¬ skipped tok ∧
                 parse_char_ranges tok = Ok ds ∧ x ∈ ds.
Proof.
  revert acc. induction toks as [|tok toks IH]; intros acc.
  - intros [= <-] x. split; [by left|].
    intros [?|(? & ? & []%elem_of_nil & _)]. done.
  - cbn [for_each]. destruct (label_token acc tok) as [acc'|e] eqn:Htok; [|done].
    cbn [mbind res_bind]. intros Hcs x. rewrite (IH _ Hcs x).
    apply label_token_cases in Htok
      as [[Hsk ->]|[Hns (ds & Hds & ->)]].
    + split.
      * intros [?|(tok' & ds & Hin & ?)]; [by left|right].
        exists tok', ds. split; [apply elem_of_cons; by right|done].
      * intros [?|(tok' & ds & [->|Hin]%elem_of_cons & Hns & ?)];
          [by left|done|right].
        by exists tok', ds.
    + split.
      * intros [[?|?]%elem_of_union|(tok' & ds' & Hin & ?)].
        -- by left.
        -- right. exists tok, ds. split; [apply elem_of_cons; by left|done].
        -- right. exists tok', ds'. split; [apply elem_of_cons; by right|done].
      * intros [?|(tok' & ds' & [->|Hin]%elem_of_cons & Hns' & Hds' & Hx)].
        -- left. apply elem_of_union. by left.
        -- left. apply elem_of_union. right. congruence.
        -- right. by exists tok', ds'.
Qed.

End token_facts.

(** X22: a group without hyphen stands for one code: it decodes to
    the single code of its text, so that a group of two or more
    characters that is no [0x] literal raises [TypeError] instead of
    standing for each of its characters. *)
Theorem group_is_one_code (g : string) :
  group g → count_char "-" g = 0%nat →
  parse_char_ranges ("[" +:+ g +:+ "]") = (x ← p g; Ok {[ x ]}) ∧
  (Str.startswith g "0x" = false → (2 ≤ String.length g)%nat →
   parse_char_ranges ("[" +:+ g +:+ "]") = Raise TypeError).
Proof.
  intros Hg Hcount.
  assert (E : parse_char_ranges ("[" +:+ g +:+ "]") = (x ← p g; Ok {[ x ]})).
  { change ("[" +:+ g +:+ "]") with (spec_of [g]).
    rewrite decode_spec by (by intros g' ->%list_elem_of_singleton).
    cbn [for_each]. unfold parse_part. rewrite (contains_none _ _ Hcount).
    destruct (p g) as [x|e]; [|done]. cbn [mbind res_bind].
    by rewrite (left_id_L ∅ (∪)). }
  split; [done|]. intros H0x Hlen. rewrite E. unfold p. rewrite H0x.
  destruct g as [|c [|d g]]; simpl in Hlen; [lia|lia|done].
Qed.

Lemma group_is_one_code_witness :
  parse_char_ranges ("[" +:+ "ab" +:+ "]") = Raise TypeError.
Proof.
  apply (group_is_one_code "ab").
  - split; [done|reflexivity].
  - reflexivity.
  - reflexivity.
  - simpl. lia.
Defined.

(** X23: the character set of a labelled edge holds exactly the codes
    of the tokens of the label that are decoded, that is of the
    tokens that hold an opening bracket and do not begin with
    [yyacept=], as the source spells the prefix. *)
Theorem labelled_edge_chars (src dst : Z) (label : string) (t : Transition) :
  edge_transition src dst (Some label) = Ok t →
  ∀ x, x ∈ chars t ↔
       ∃ tok ds, tok ∈ Str.split_ws label ∧ ¬ skipped tok ∧
                 parse_char_ranges tok = Ok ds ∧ x ∈ ds.
Proof.
  unfold edge_transition.
  destruct (for_each label_token (Str.split_ws label) ∅) as [cs|e] eqn:Hcs;
    [|done].
  intros [= <-] x. cbn [chars]. rewrite (label_tokens_chars _ _ _ Hcs x).
  split; [|by right]. by intros [?%elem_of_empty|?].
Qed.

Lemma labelled_edge_chars_witness :
  98 ∈ chars (mkTransition 1 2 {[ 98 ]}) ↔
  ∃ tok ds, tok ∈ Str.split_ws "[b] yyaccept=1" ∧ ¬ skipped tok ∧
            parse_char_ranges tok = Ok ds ∧ 98 ∈ ds.
Proof.
  apply (labelled_edge_chars 1 2 "[b] yyaccept=1"). reflexivity.
Defined.
